(** * Helixer: slicing transcripts across coordinate windows

    A shallow embedding of [helixerprep/core/handlers.py]: the interval
    classifier [FeatureVsCoords], the piece manager [mk_new_piece], the
    border split [set_status_downstream_border], the trimmer
    [modify4new_slice] and its caller [modify4slice], and the loading of
    the interval trees by [FeatureHandler] and [SuperLocusHandler].

    Python integers are [Z].  Objects that live in the database session
    (features, pieces, coordinates) are kept in finite maps keyed by their
    primary key: the session's identity map holds one object per key, so a
    key stands for the Python reference, [x is y] is equality of keys and
    [x.id] is the key itself.  Mutation of an object is an update of the
    map, so that every alias of the object sees it. *)

From Stdlib Require Import ZArith Lia Bool.
From stdpp Require Import base option list gmap fin_maps strings.

Set Warnings "-clear-no-such-hyp".

Local Open Scope Z_scope.

(** * The program *)

(** ** Data model *)

(** [Coordinates]: [id], [seqid], [start], [end] (annotations_orm.py). *)
Module Coordinates.
Record t : Type := mk {
  id : nat;
  seqid : Z;
  start : Z;
  end_ : Z
}.
End Coordinates.

(** [Feature], with the attributes handlers.py reads or writes, and three
    further mapped columns ([type], [phase], [source]) that stand for the
    attributes it only copies.  The primary key is the key of the feature
    in the store. *)
Module Feature.
Record t : Type := mk {
  given_name : option string;
  type : string;
  start : Z;
  end_ : Z;
  is_plus_strand : bool;
  phase : Z;
  source : string;
  coordinate : Coordinates.t;
  start_is_biological_start : bool;
  end_is_biological_end : bool;
  transcribed_pieces : list nat
}.

Definition set_coordinate (c : Coordinates.t) (f : t) : t :=
  mk (given_name f) (type f) (start f) (end_ f) (is_plus_strand f) (phase f)
     (source f) c (start_is_biological_start f) (end_is_biological_end f)
     (transcribed_pieces f).

Definition set_transcribed_pieces (ps : list nat) (f : t) : t :=
  mk (given_name f) (type f) (start f) (end_ f) (is_plus_strand f) (phase f)
     (source f) (coordinate f) (start_is_biological_start f)
     (end_is_biological_end f) ps.
End Feature.

(** [TranscribedPiece]: the owning transcript and the order key. *)
Module TranscribedPiece.
Record t : Type := mk {
  transcribed : nat;
  position : Z
}.

Definition set_position (p : Z) (x : t) : t := mk (transcribed x) p.
End TranscribedPiece.

(** ** [FeatureVsCoords] *)

Record FeatureVsCoords : Type := mkFeatureVsCoords {
  feature : Feature.t;
  slice_coordinates : Coordinates.t;
  is_plus_strand : bool;
  sign : Z;
  feature_py_start : Z;
  feature_py_end : Z
}.

(** [FeatureVsCoords.__init__] *)
Definition FeatureVsCoords_init (feature : Feature.t)
    (slice_coordinates : Coordinates.t) (is_plus_strand : bool)
  : FeatureVsCoords :=
  mkFeatureVsCoords feature slice_coordinates is_plus_strand
    (if is_plus_strand then 1 else -1)
    (if is_plus_strand then Feature.start feature
     else Feature.end_ feature + 1)
    (if is_plus_strand then Feature.end_ feature
     else Feature.start feature + 1).

Definition is_detached (self : FeatureVsCoords) : bool :=
  if negb (Coordinates.seqid (slice_coordinates self)
           =? Coordinates.seqid (Feature.coordinate (feature self)))
  then true
  else if negb (eqb (is_plus_strand self)
                    (Feature.is_plus_strand (feature self)))
  then true
  else false.

Definition _is_lower (self : FeatureVsCoords) : bool :=
  Coordinates.start (slice_coordinates self) - feature_py_end self >=? 0.

Definition _is_higher (self : FeatureVsCoords) : bool :=
  feature_py_start self - Coordinates.end_ (slice_coordinates self) >=? 0.

Definition is_upstream (self : FeatureVsCoords) : bool :=
  if is_plus_strand self then _is_lower self else _is_higher self.

Definition is_downstream (self : FeatureVsCoords) : bool :=
  if is_plus_strand self then _is_higher self else _is_lower self.

Definition is_contained (self : FeatureVsCoords) : bool :=
  let start_contained :=
    (Coordinates.start (slice_coordinates self) <=? feature_py_start self)
    && (feature_py_start self <? Coordinates.end_ (slice_coordinates self)) in
  let end_contained :=
    (Coordinates.start (slice_coordinates self) <? feature_py_end self)
    && (feature_py_end self <=? Coordinates.end_ (slice_coordinates self)) in
  start_contained && end_contained.

Definition _overlaps_lower (self : FeatureVsCoords) : bool :=
  (feature_py_start self <? Coordinates.start (slice_coordinates self))
  && (Coordinates.start (slice_coordinates self) <? feature_py_end self).

Definition _overlaps_higher (self : FeatureVsCoords) : bool :=
  (feature_py_start self <? Coordinates.end_ (slice_coordinates self))
  && (Coordinates.end_ (slice_coordinates self) <? feature_py_end self).

Definition overlaps_upstream (self : FeatureVsCoords) : bool :=
  if is_plus_strand self then _overlaps_lower self else _overlaps_higher self.

Definition overlaps_downstream (self : FeatureVsCoords) : bool :=
  if is_plus_strand self then _overlaps_higher self else _overlaps_lower self.

(** The six answers of the [if]/[elif] chain of [modify4new_slice], in the
    order the chain asks; [None] is its final [else]. *)
Inductive Classification : Type :=
  | detached
  | upstream
  | overlaps_upstream_of
  | contained
  | overlaps_downstream_of
  | downstream.

Definition classify (position_interp : FeatureVsCoords)
  : option Classification :=
  if is_detached position_interp then Some detached
  else if is_upstream position_interp then Some upstream
  else if overlaps_upstream position_interp then Some overlaps_upstream_of
  else if is_contained position_interp then Some contained
  else if overlaps_downstream position_interp then Some overlaps_downstream_of
  else if is_downstream position_interp then Some downstream
  else None.

(** ** The store, the batch queue and the trimmer *)

(** The three [assert]s and [raise AssertionError]s of the file. *)
Inductive assertion : Type :=
  | unreachable_code        (* 'this code should be unreachable...?' *)
  | old_piece_not_in_pieces (* "old id: ({}) not in feature {}'s pieces" *)
  | feature_within_slice.   (* the double check of [modify4slice] *)

Inductive exn : Type :=
  | NoFeaturesInSliceError
  | AssertionError (a : assertion)
  | ValueError
  | IndexError
  | InvalidReference.
    (* not a Python exception: the answer of the store to a key that names
       no object, which no Python reference can do *)

Inductive result (A : Type) : Type :=
  | Ok (a : A)
  | Raise (e : exn).
Arguments Ok {A} a.
Arguments Raise {A} e.

(** The records of the batch queue:
    [{'feat_id': f.id, 'coordinate_id_new': new_coords.id}] and
    [{'piece_id_old': .., 'piece_id_new': .., 'feat_id': f.id}]. *)
Record CoordSwap : Type := mkCoordSwap {
  cs_feat_id : nat;
  coordinate_id_new : nat
}.

Record PieceSwap : Type := mkPieceSwap {
  piece_id_old : nat;
  piece_id_new : nat;
  ps_feat_id : nat
}.

Record CoreQueue : Type := mkCoreQueue {
  coord_swaps : list CoordSwap;
  piece_swaps : list PieceSwap
}.

(** An interval of an [IntervalTree]: begin, end and the feature whose
    handler is the payload. *)
Definition Interval : Type := (Z * Z * nat)%type.

(** Everything a [TranscriptTrimmer] can reach: the session's objects, the
    core queue, the trees, the super locus' handler holder, and the
    trimmer's own attributes. *)
Record State : Type := mkState {
  features : gmap nat Feature.t;
  pieces : gmap nat TranscribedPiece.t;
  coordinates : gmap nat Coordinates.t;
  core_queue : CoreQueue;
  trees : gmap Z (gset Interval);
  handler_holder : list nat;
  transcript : nat;
  handlers : list nat;
  _downstream_piece : option nat
}.

Definition set_features (x : gmap nat Feature.t) (st : State) : State :=
  mkState x (pieces st) (coordinates st) (core_queue st) (trees st)
    (handler_holder st) (transcript st) (handlers st) (_downstream_piece st).

Definition set_pieces (x : gmap nat TranscribedPiece.t) (st : State) : State :=
  mkState (features st) x (coordinates st) (core_queue st) (trees st)
    (handler_holder st) (transcript st) (handlers st) (_downstream_piece st).

Definition set_core_queue (x : CoreQueue) (st : State) : State :=
  mkState (features st) (pieces st) (coordinates st) x (trees st)
    (handler_holder st) (transcript st) (handlers st) (_downstream_piece st).

Definition set_trees (x : gmap Z (gset Interval)) (st : State) : State :=
  mkState (features st) (pieces st) (coordinates st) (core_queue st) x
    (handler_holder st) (transcript st) (handlers st) (_downstream_piece st).

Definition set_handler_holder (x : list nat) (st : State) : State :=
  mkState (features st) (pieces st) (coordinates st) (core_queue st) (trees st)
    x (transcript st) (handlers st) (_downstream_piece st).

Definition set_handlers (x : list nat) (st : State) : State :=
  mkState (features st) (pieces st) (coordinates st) (core_queue st) (trees st)
    (handler_holder st) (transcript st) x (_downstream_piece st).

Definition set_downstream_piece (x : option nat) (st : State) : State :=
  mkState (features st) (pieces st) (coordinates st) (core_queue st) (trees st)
    (handler_holder st) (transcript st) (handlers st) x.

(** [TranscriptTrimmer.__init__]: a new trimmer over the same session. *)
Definition TranscriptTrimmer_init (transcript : nat) (st : State) : State :=
  mkState (features st) (pieces st) (coordinates st) (core_queue st) (trees st)
    (handler_holder st) transcript [] None.

(** ** State and exceptions

    A computation runs from a state to a result and a state; what it wrote
    before raising stays written, as in Python. *)
Definition M (A : Type) : Type := State -> result A * State.

#[global] Instance M_ret : MRet M := fun A a st => (Ok a, st).

#[global] Instance M_bind : MBind M := fun A B k m st =>
  match m st with
  | (Ok a, st') => k a st'
  | (Raise e, st') => (Raise e, st')
  end.

Definition raise {A : Type} (e : exn) : M A := fun st => (Raise e, st).

Definition get : M State := fun st => (Ok st, st).

Definition modify (f : State -> State) : M unit := fun st => (Ok tt, f st).

#[global] Instance assertion_eq_dec : EqDecision assertion.
Proof. solve_decision. Defined.

#[global] Instance exn_eq_dec : EqDecision exn.
Proof. solve_decision. Defined.

(** [try: m  except e: handler] *)
Definition try_except {A : Type} (m : M A) (e : exn) (handler : M A) : M A :=
  fun st =>
    match m st with
    | (Raise e', st') =>
        if decide (e' = e) then handler st' else (Raise e', st')
    | r => r
    end.

(** [for x in l: body(x)] *)
Fixpoint for_each {A : Type} (l : list A) (body : A -> M unit) : M unit :=
  match l with
  | [] => mret tt
  | x :: l' => body x ;; for_each l' body
  end.

(** [assert b] *)
Definition assert (b : bool) (a : assertion) : M unit :=
  if b then mret tt else raise (AssertionError a).

(** Reading an object through its reference. *)
Definition get_feature (k : nat) : M Feature.t := fun st =>
  match features st !! k with
  | Some f => (Ok f, st)
  | None => (Raise InvalidReference, st)
  end.

Definition get_piece (k : nat) : M TranscribedPiece.t := fun st =>
  match pieces st !! k with
  | Some p => (Ok p, st)
  | None => (Raise InvalidReference, st)
  end.

(** The two relationships read by the code, as the association tables give
    them: [transcript.transcribed_pieces] and [piece.features]. *)
Definition transcribed_pieces (st : State) (transcribed : nat) : list nat :=
  (map_to_list
     (filter (fun kp => TranscribedPiece.transcribed (snd kp) = transcribed)
             (pieces st))).*1.

Definition piece_features (st : State) (piece : nat) : list nat :=
  (map_to_list
     (filter (fun kf => piece ∈ Feature.transcribed_pieces (snd kf))
             (features st))).*1.

(** ** The batch queue *)

Definition append_coord_swap (coord_swap : CoordSwap) : M unit :=
  modify (fun st =>
    set_core_queue
      (mkCoreQueue (coord_swaps (core_queue st) ++ [coord_swap])
                   (piece_swaps (core_queue st))) st).

Definition append_piece_swap (to_swap : PieceSwap) : M unit :=
  modify (fun st =>
    set_core_queue
      (mkCoreQueue (coord_swaps (core_queue st))
                   (piece_swaps (core_queue st) ++ [to_swap])) st).

(** Modelled from the spec: [CoreQueue.execute_so_far] is not among the
    sources.  Spec 4.5: the queue accumulates [{feature_id,
    new_coordinate_id}] and [{feature_id, old_piece_id, new_piece_id}]
    records without applying them, and [execute_so_far()] flushes all
    accumulated records as a single consistent update and clears the queue.
    A coordinate record points the feature of that id at the coordinates of
    the new id (a record whose id names no coordinates changes nothing); a
    piece record replaces the old piece by the new one among the pieces of
    the feature of that id. *)
Definition apply_coord_swap (coords : gmap nat Coordinates.t)
    (fs : gmap nat Feature.t) (r : CoordSwap) : gmap nat Feature.t :=
  match coords !! coordinate_id_new r with
  | Some c => alter (Feature.set_coordinate c) (cs_feat_id r) fs
  | None => fs
  end.

Definition swap_piece (old new p : nat) : nat :=
  if decide (p = old) then new else p.

Definition apply_piece_swap (fs : gmap nat Feature.t) (r : PieceSwap)
  : gmap nat Feature.t :=
  alter (fun f => Feature.set_transcribed_pieces
                    (swap_piece (piece_id_old r) (piece_id_new r)
                       <$> Feature.transcribed_pieces f) f)
        (ps_feat_id r) fs.

Definition execute_so_far : M unit :=
  modify (fun st =>
    set_core_queue (mkCoreQueue [] [])
      (set_features
         (foldl (apply_coord_swap (coordinates st))
                (foldl apply_piece_swap (features st)
                       (piece_swaps (core_queue st)))
                (coord_swaps (core_queue st))) st)).

(** ** [FeatureHandler.load_to_intervaltree]

    [tree[py_start:py_end] = self] raises [ValueError] on an interval that
    is empty or negative, which the method reports and raises again. *)
Definition load_to_intervaltree (self : nat) : M unit :=
  data ← get_feature self;
  let seqid := Coordinates.seqid (Feature.coordinate data) in
  st ← get;
  let tree := default ∅ (trees st !! seqid) in
  let '(py_start, py_end) :=
    if Feature.is_plus_strand data
    then (Feature.start data, Feature.end_ data)
    else (Feature.end_ data + 1, Feature.start data + 1) in
  if py_start <? py_end
  then modify (set_trees (<[seqid := {[ (py_start, py_end, self) ]} ∪ tree]>
                            (trees st)))
  else modify (set_trees (<[seqid := tree]> (trees st))) ;;
       raise ValueError.

(** ** [TranscriptTrimmer]

    [session.add_all] and [session.commit] write nothing that the code
    reads back but the primary key of a new object, which the store gives
    when the object is made. *)

(** [new_handled_data(template, geenuff.orm.Feature, **kwargs)]: a new
    feature with every mapped attribute of the template
    ([db_attr_as_dict]), updated by the keyword arguments, and a handler
    for it in the super locus' holder.  [id=None] leaves the key to the
    store, which gives one that no feature has. *)
Definition new_handled_data (template : nat)
    (kwargs : Feature.t -> Feature.t) : M nat :=
  template_dict ← get_feature template;
  st ← get;
  let data := fresh (dom (features st)) in
  modify (set_handler_holder (handler_holder st ++ [data])) ;;
  modify (fun st => set_features (<[data := kwargs template_dict]>
                                    (features st)) st) ;;
  mret data.

(** [mk_new_piece(piece)] *)
Definition mk_new_piece (piece : nat) : M nat :=
  st ← get;
  let old_pieces := transcribed_pieces st (transcript st) in
  for_each old_pieces (fun old_piece =>
    o ← get_piece old_piece;
    p ← get_piece piece;
    if TranscribedPiece.position o >? TranscribedPiece.position p
    then modify (fun st =>
           set_pieces
             (<[old_piece :=
                  TranscribedPiece.set_position
                    (TranscribedPiece.position o + 1) o]> (pieces st)) st)
    else mret tt) ;;
  p ← get_piece piece;
  st ← get;
  let new_piece := fresh (dom (pieces st)) in
  modify (set_pieces
            (<[new_piece :=
                 TranscribedPiece.mk (transcript st)
                   (TranscribedPiece.position p + 1)]> (pieces st))) ;;
  modify (fun st => set_handlers (handlers st ++ [new_piece]) st) ;;
  mret new_piece.

(** [downstream_piece(piece)] *)
Definition downstream_piece (piece : nat) : M nat :=
  st ← get;
  match _downstream_piece st with
  | None =>
      new_piece ← mk_new_piece piece;
      modify (set_downstream_piece (Some new_piece)) ;;
      mret new_piece
  | Some new_piece => mret new_piece
  end.

(** [swap_list_item(template_list, replacement_item, item_to_remove)];
    [None] is the [ValueError] of [list.index]. *)
Fixpoint swap_list_item (template_list : list nat)
    (replacement_item item_to_remove : nat) : option (list nat) :=
  match template_list with
  | [] => None
  | x :: l =>
      if decide (x = item_to_remove) then Some (replacement_item :: l)
      else (x ::.) <$> swap_list_item l replacement_item item_to_remove
  end.

(** The cut point of [set_status_downstream_border]. *)
Definition down_at (new_coords : Coordinates.t) (is_plus_strand : bool) : Z :=
  if is_plus_strand then Coordinates.end_ new_coords
  else Coordinates.start new_coords - 1.

(** The keyword arguments of the call of [new_handled_data] in
    [set_status_downstream_border]: [id=None, start=down_at,
    given_name=None, coordinate=old_coords,
    start_is_biological_start=False,
    transcribed_pieces=downstream_pieces]; the other attributes are the
    template's. *)
Definition downstream_kwargs (down_at : Z) (old_coords : Coordinates.t)
    (downstream_pieces : list nat) (template : Feature.t) : Feature.t :=
  Feature.mk None (Feature.type template) down_at (Feature.end_ template)
    (Feature.is_plus_strand template) (Feature.phase template)
    (Feature.source template) old_coords false
    (Feature.end_is_biological_end template) downstream_pieces.

(** [template_feature.end = down_at],
    [template_feature.end_is_biological_end = False],
    [template_feature.coordinate = new_coords]. *)
Definition truncated (down_at : Z) (new_coords : Coordinates.t)
    (template : Feature.t) : Feature.t :=
  Feature.mk (Feature.given_name template) (Feature.type template)
    (Feature.start template) down_at (Feature.is_plus_strand template)
    (Feature.phase template) (Feature.source template) new_coords
    (Feature.start_is_biological_start template) false
    (Feature.transcribed_pieces template).

(** [set_status_downstream_border(new_coords, old_coords, is_plus_strand,
    template_feature, new_piece, old_piece, trees)] *)
Definition set_status_downstream_border (new_coords old_coords : Coordinates.t)
    (is_plus_strand : bool) (template_feature new_piece old_piece : nat)
  : M unit :=
  let down_at := down_at new_coords is_plus_strand in
  template ← get_feature template_feature;
  assert (bool_decide (old_piece ∈ Feature.transcribed_pieces template))
         old_piece_not_in_pieces ;;
  match swap_list_item (Feature.transcribed_pieces template)
                       new_piece old_piece with
  | None => raise ValueError
  | Some downstream_pieces =>
      downstream ← new_handled_data template_feature
                     (downstream_kwargs down_at old_coords downstream_pieces);
      load_to_intervaltree downstream ;;
      modify (fun st =>
        set_features
          (alter (truncated down_at new_coords) template_feature
                 (features st)) st)
  end.

(** One turn of the loop of [modify4new_slice] over
    [(aligned_features, piece)]; the loop's variables [seen_one_overlap] and
    [piece_at_border] go in and come out. *)
Definition visit (new_coords : Coordinates.t) (is_plus_strand : bool)
    (locals : bool * option nat) (item : list nat * nat)
  : M (bool * option nat) :=
  let '(seen_one_overlap, piece_at_border) := locals in
  let '(aligned_features, piece) := item in
  match aligned_features with
  | [] => raise IndexError
  | f0_ref :: _ =>
      f0 ← get_feature f0_ref;
      let old_coordinate := Feature.coordinate f0 in
      let position_interp := FeatureVsCoords_init f0 new_coords is_plus_strand in
      match classify position_interp with
      | Some detached => mret (seen_one_overlap, piece_at_border)
      | Some upstream => mret (seen_one_overlap, piece_at_border)
      | Some overlaps_upstream_of => mret (seen_one_overlap, piece_at_border)
      | Some contained =>
          for_each aligned_features (fun f =>
            append_coord_swap (mkCoordSwap f (Coordinates.id new_coords))) ;;
          mret (true, piece_at_border)
      | Some overlaps_downstream_of =>
          new_piece_after_border ← downstream_piece piece;
          execute_so_far ;;
          for_each aligned_features (fun feature =>
            set_status_downstream_border new_coords old_coordinate
              is_plus_strand feature new_piece_after_border piece) ;;
          mret (true, Some piece)
      | Some downstream =>
          match piece_at_border with
          | Some border =>
              if decide (piece = border)
              then for_each aligned_features (fun f =>
                     new_piece ← downstream_piece piece;
                     append_piece_swap (mkPieceSwap border new_piece f))
              else mret tt
          | None => mret tt
          end ;;
          mret (seen_one_overlap, piece_at_border)
      | None => raise (AssertionError unreachable_code)
      end
  end.

Arguments visit : simpl never.

Fixpoint walk (new_coords : Coordinates.t) (is_plus_strand : bool)
    (transition_gen : list (list nat * nat)) (locals : bool * option nat)
  : M (bool * option nat) :=
  match transition_gen with
  | [] => mret locals
  | item :: rest =>
      locals' ← visit new_coords is_plus_strand locals item;
      walk new_coords is_plus_strand rest locals'
  end.

(** [modify4new_slice(new_coords, is_plus_strand, trees)].
    [transition_gen] is the list that [list(self.transition_5p_to_3p())]
    gave (geenuff's walk, not part of this repository): the groups of
    aligned features from 5' to 3', each with its piece. *)
Definition modify4new_slice (transition_gen : list (list nat * nat))
    (new_coords : Coordinates.t) (is_plus_strand : bool) : M unit :=
  locals ← walk new_coords is_plus_strand transition_gen (false, None);
  if negb (fst locals) then raise NoFeaturesInSliceError
  else modify (set_downstream_piece None).

(** ** [SuperLocusHandler] *)

(** [SuperLocusHandler.modify4slice]; [transcribeds] is
    [self.data.transcribeds] and [transition_5p_to_3p] the walk of each. *)
Definition modify4slice
    (transition_5p_to_3p : State -> nat -> list (list nat * nat))
    (transcribeds : list nat) (new_coords : Coordinates.t)
    (is_plus_strand : bool) : M unit :=
  for_each transcribeds (fun transcribed =>
    modify (TranscriptTrimmer_init transcribed) ;;
    st ← get;
    try_except
      (modify4new_slice (transition_5p_to_3p st transcribed)
                        new_coords is_plus_strand)
      NoFeaturesInSliceError
      (st ← get;
       for_each (transcribed_pieces st transcribed) (fun piece =>
         st ← get;
         for_each (piece_features st piece) (fun feature_ref =>
           feature ← get_feature feature_ref;
           if eqb is_plus_strand (Feature.is_plus_strand feature)
           then
             if is_plus_strand
             then assert
                    (negb ((Coordinates.start new_coords
                              <=? Feature.start feature)
                           && (Feature.start feature
                                 <=? Coordinates.end_ new_coords)))
                    feature_within_slice
             else assert
                    (negb ((Coordinates.start new_coords - 1
                              <=? Feature.start feature)
                           && (Feature.start feature
                                 <=? Coordinates.end_ new_coords - 1)))
                    feature_within_slice
           else mret tt)))).

(** [SuperLocusHandler.features], the generator over the features of every
    piece of every transcript of the super locus, and
    [SuperLocusHandler.load_to_intervaltree].  [transcribeds] is
    [self.data.transcribeds].  [make_all_handlers] is geenuff's (not part
    of this repository): it is taken by what it does to the list of the
    handler holder.  A feature's handler, [f.handler] or the
    [FeatureHandler] made for it, stands under the feature's key.  The
    loop writes to the trees only, which the generator does not read, so
    that the features it yields are those of the state the loop starts
    in. *)
Module SuperLocusHandler.
Definition features (st : State) (transcribeds : list nat) : list nat :=
  transcript ← transcribeds;
  piece ← transcribed_pieces st transcript;
  piece_features st piece.

Definition load_to_intervaltree (make_all_handlers : list nat -> list nat)
    (transcribeds : list nat) : M unit :=
  modify (fun st =>
    set_handler_holder (make_all_handlers (handler_holder st)) st) ;;
  st ← get;
  for_each (features st transcribeds) (fun f => load_to_intervaltree f).
End SuperLocusHandler.

(** * The vocabulary of the properties *)

(** ** The classifier *)

(** The question each classification stands for. *)
Definition holds (c : Classification) (p : FeatureVsCoords) : bool :=
  match c with
  | detached => is_detached p
  | upstream => is_upstream p
  | overlaps_upstream_of => overlaps_upstream p
  | contained => is_contained p
  | overlaps_downstream_of => overlaps_downstream p
  | downstream => is_downstream p
  end.

(** The place of a classification in the chain. *)
Definition rank (c : Classification) : nat :=
  match c with
  | detached => 0
  | upstream => 1
  | overlaps_upstream_of => 2
  | contained => 3
  | overlaps_downstream_of => 4
  | downstream => 5
  end.

(** A computation that never raises [e]. *)
Definition never_raises {A : Type} (e : exn) (m : M A) : Prop :=
  forall st, fst (m st) <> Raise e.

(** ** The piece manager *)

(** What the loop of [mk_new_piece] does to a piece it meets, given the
    position of the piece to split after. *)
Definition bump_position (position : Z) (x : TranscribedPiece.t)
  : TranscribedPiece.t :=
  if TranscribedPiece.position x >? position
  then TranscribedPiece.set_position (TranscribedPiece.position x + 1) x
  else x.

(** What [mk_new_piece] does to any old piece: those of the transcript are
    met by the loop, the others are not. *)
Definition bumped (transcribed : nat) (position : Z) (x : TranscribedPiece.t)
  : TranscribedPiece.t :=
  if decide (TranscribedPiece.transcribed x = transcribed)
  then bump_position position x
  else x.

(** No two pieces of the transcript hold the same position. *)
Definition positions_distinct (st : State) (transcribed : nat) : Prop :=
  forall k1 k2 x1 x2,
    pieces st !! k1 = Some x1 -> pieces st !! k2 = Some x2 ->
    TranscribedPiece.transcribed x1 = transcribed ->
    TranscribedPiece.transcribed x2 = transcribed ->
    TranscribedPiece.position x1 = TranscribedPiece.position x2 ->
    k1 = k2.

(** Some piece of the transcript holds position [z]. *)
Definition position_taken (st : State) (transcribed : nat) (z : Z) : Prop :=
  exists k x, pieces st !! k = Some x /\
              TranscribedPiece.transcribed x = transcribed /\
              TranscribedPiece.position x = z.

(** The positions of the transcript's pieces are exactly [0 .. n-1], each
    held once. *)
Definition dense (st : State) (transcribed : nat) (n : Z) : Prop :=
  positions_distinct st transcribed /\
  forall z, position_taken st transcribed z <-> 0 <= z < n.

(** The pieces after [mk_new_piece]. *)
Definition pieces_after_split (st : State) (p : TranscribedPiece.t)
  : gmap nat TranscribedPiece.t :=
  <[fresh (dom (pieces st)) :=
      TranscribedPiece.mk (transcript st) (TranscribedPiece.position p + 1)]>
    (bumped (transcript st) (TranscribedPiece.position p) <$> pieces st).

(** ** The flush of the queue *)

(** The pieces and the coordinate of the feature of key [k] once the
    records of the queue are applied. *)
Definition pieces_after (l : list PieceSwap) (k : nat) (ps : list nat)
  : list nat :=
  foldl (fun ps r =>
           if decide (ps_feat_id r = k)
           then swap_piece (piece_id_old r) (piece_id_new r) <$> ps
           else ps) ps l.

Definition coordinate_after (coords : gmap nat Coordinates.t)
    (l : list CoordSwap) (k : nat) (c : Coordinates.t) : Coordinates.t :=
  foldl (fun c r =>
           if decide (cs_feat_id r = k)
           then default c (coords !! coordinate_id_new r)
           else c) c l.

Definition flushed (st : State) (k : nat) (t : Feature.t) : Feature.t :=
  Feature.set_coordinate
    (coordinate_after (coordinates st) (coord_swaps (core_queue st)) k
       (Feature.coordinate t))
    (Feature.set_transcribed_pieces
       (pieces_after (piece_swaps (core_queue st)) k
          (Feature.transcribed_pieces t)) t).

(** ** The border split *)

(** The interval of a feature as [load_to_intervaltree] indexes it. *)
Definition py_interval (f : Feature.t) : Z * Z :=
  if Feature.is_plus_strand f
  then (Feature.start f, Feature.end_ f)
  else (Feature.end_ f + 1, Feature.start f + 1).

(** What a border split leaves alone: everything but the features, the
    trees and the handler holder. *)
Definition same_but_features (st st' : State) : Prop :=
  pieces st' = pieces st /\
  coordinates st' = coordinates st /\
  core_queue st' = core_queue st /\
  transcript st' = transcript st /\
  handlers st' = handlers st /\
  _downstream_piece st' = _downstream_piece st.

(** The part of the template beyond the cut is not empty. *)
Definition downstream_nonempty (down_at : Z) (t : Feature.t) : Prop :=
  if Feature.is_plus_strand t then down_at < Feature.end_ t
  else Feature.end_ t < down_at.

(** The template and the new feature after the split of [t]. *)
Definition split_pair (st' : State) (d : Z) (new_coords old_coords : Coordinates.t)
    (new_piece old_piece : nat) (t : Feature.t) (f k : nat) : Prop :=
  exists downstream_pieces,
    swap_list_item (Feature.transcribed_pieces t) new_piece old_piece
    = Some downstream_pieces /\
    features st' !! f = Some (truncated d new_coords t) /\
    features st' !! k
    = Some (downstream_kwargs d old_coords downstream_pieces t).

(** Aligned features have the same coordinates as the first of the
    group. *)
Definition aligned_with (f0 t : Feature.t) : Prop :=
  Feature.start t = Feature.start f0 /\
  Feature.end_ t = Feature.end_ f0 /\
  Feature.is_plus_strand t = Feature.is_plus_strand f0 /\
  Feature.coordinate t = Feature.coordinate f0.

(** The base pairs of a feature: those of its interval, read low to
    high. *)
Definition covers (f : Feature.t) (z : Z) : Prop :=
  fst (py_interval f) <= z < snd (py_interval f).

(** ** Downstream of the border *)

Definition enqueue_piece_swaps (rs : list PieceSwap) (st : State) : State :=
  set_core_queue
    (mkCoreQueue (coord_swaps (core_queue st))
                 (piece_swaps (core_queue st) ++ rs)) st.

(** ** Whole walks *)

(** The classification of a group in a state: that of its first feature;
    [None] for a group with no feature or a reference to no feature. *)
Definition group_classification (st : State) (new_coords : Coordinates.t)
    (is_plus : bool) (item : list nat * nat) : option Classification :=
  f0_ref ← head (fst item);
  f0 ← features st !! f0_ref;
  classify (FeatureVsCoords_init f0 new_coords is_plus).

Definition enqueue_coord_swaps (rs : list CoordSwap) (st : State) : State :=
  set_core_queue
    (mkCoreQueue (coord_swaps (core_queue st) ++ rs)
                 (piece_swaps (core_queue st))) st.

(** The coordinate reassignments of a contained group. *)
Definition group_coord_swaps (new_coords : Coordinates.t)
    (item : list nat * nat) : list CoordSwap :=
  (fun f => mkCoordSwap f (Coordinates.id new_coords)) <$> fst item.


(** The features of a walk. *)
Definition walk_features (transition_gen : list (list nat * nat)) : list nat :=
  mjoin (fst <$> transition_gen).

(** [lo, hi) is the span of the walk's features: every adjusted interval
    lies within it, one starts at [lo] and one ends at [hi]. *)
Definition is_span (st : State) (transition_gen : list (list nat * nat))
    (lo hi : Z) : Prop :=
  (forall k, k ∈ walk_features transition_gen ->
     exists t, features st !! k = Some t /\
               lo <= fst (py_interval t) /\ snd (py_interval t) <= hi) /\
  (exists k t, k ∈ walk_features transition_gen /\
               features st !! k = Some t /\ fst (py_interval t) = lo) /\
  (exists k t, k ∈ walk_features transition_gen /\
               features st !! k = Some t /\ snd (py_interval t) = hi).

(** The classifications at which nothing is done, whatever the border. *)
Definition passed_over (c : Classification) : Prop :=
  c = detached \/ c = upstream \/ c = overlaps_upstream_of.

(** ** When the slice holds no feature of the transcript *)

(** The classifications that set [seen_one_overlap]. *)
Definition sets_seen (c : Classification) : bool :=
  match c with
  | contained | overlaps_downstream_of => true
  | _ => false
  end.

(** The condition asserted by the double check of [modify4slice] for a
    feature of the strand at hand. *)
Definition outside_slice (new_coords : Coordinates.t) (is_plus : bool)
    (f : Feature.t) : bool :=
  if is_plus
  then negb ((Coordinates.start new_coords <=? Feature.start f)
             && (Feature.start f <=? Coordinates.end_ new_coords))
  else negb ((Coordinates.start new_coords - 1 <=? Feature.start f)
             && (Feature.start f <=? Coordinates.end_ new_coords - 1)).

(** The double check over a transcript: every feature of the strand at
    hand, on every piece, is outside the slice. *)
Definition double_check (st : State) (transcribed : nat)
    (new_coords : Coordinates.t) (is_plus : bool) : bool :=
  forallb (fun piece =>
    forallb (fun feature_ref =>
      match features st !! feature_ref with
      | Some f =>
          if eqb is_plus (Feature.is_plus_strand f)
          then outside_slice new_coords is_plus f
          else true
      | None => true
      end) (piece_features st piece))
    (transcribed_pieces st transcribed).

(** ** What a computation leaves alone *)

(** [m] relates every state to the state it ends in, whether it returns or
    raises. *)
Definition preserves {A : Type} (R : relation State) (m : M A) : Prop :=
  forall st, R st (snd (m st)).

(** The part [proj] of the state is as it was. *)
Definition unchanged {B : Type} (proj : State -> B) : relation State :=
  fun st st' => proj st' = proj st.

#[global] Instance unchanged_preorder {B : Type} (proj : State -> B) :
  PreOrder (unchanged proj).
Proof.
  split.
  - by intros st.
  - intros st1 st2 st3 H12 H23. unfold unchanged in *. congruence.
Qed.

(** ** Where the queue is flushed *)

(** Nothing is applied and the queue only grows: the features and the
    coordinates are as they were, and the queue holds what it held, and
    maybe more after it. *)
Definition queue_grows : relation State := fun st st' =>
  features st' = features st /\
  coordinates st' = coordinates st /\
  (exists cs, coord_swaps (core_queue st')
              = coord_swaps (core_queue st) ++ cs) /\
  (exists ps, piece_swaps (core_queue st')
              = piece_swaps (core_queue st) ++ ps).

#[global] Instance queue_grows_preorder : PreOrder queue_grows.
Proof.
  split.
  - intros st. split; [done |]. split; [done |].
    split; exists []; by rewrite app_nil_r.
  - intros st1 st2 st3 (Hf & Hc & [cs Hcs] & [ps Hps])
      (Hf' & Hc' & [cs' Hcs'] & [ps' Hps']).
    split; [congruence |]. split; [congruence |].
    split; [exists (cs ++ cs') | exists (ps ++ ps')];
      rewrite app_assoc; congruence.
Qed.

(** The session: features, coordinates and queue. *)
Definition session (st : State)
  : gmap nat Feature.t * gmap nat Coordinates.t * CoreQueue :=
  (features st, coordinates st, core_queue st).

(** ** What a walk can do to a feature outside its groups *)

(** The steps by which the turn of the loop at a group [G] changes the
    session: a record for a feature of [G] is queued, the queue is flushed,
    a feature is made under a new key, a feature of [G] is altered; or the
    session is left as it is. *)
Inductive move (G : list nat) : relation State :=
  | move_other (st st' : State) :
      unchanged session st st' -> move G st st'
  | move_enqueue_coord (st : State) (r : CoordSwap) :
      cs_feat_id r ∈ G -> move G st (enqueue_coord_swaps [r] st)
  | move_enqueue_piece (st : State) (r : PieceSwap) :
      ps_feat_id r ∈ G -> move G st (enqueue_piece_swaps [r] st)
  | move_flush (st : State) :
      move G st (snd (execute_so_far st))
  | move_new (st : State) (k : nat) (v : Feature.t) :
      features st !! k = None ->
      move G st (set_features (<[k := v]> (features st)) st)
  | move_alter (st : State) (k : nat) (g : Feature.t -> Feature.t) :
      k ∈ G -> move G st (set_features (alter g k (features st)) st).

Definition moves (G : list nat) : relation State := rtc (move G).



#[global] Instance moves_preorder (G : list nat) : PreOrder (moves G).
Proof. unfold moves. apply _. Qed.

(** ** One new piece per call *)

(** The pieces, counting one more while no downstream piece is
    memoized. *)
Definition pieces_budget (st : State) : nat :=
  size (pieces st)
  + match _downstream_piece st with Some _ => 0 | None => 1 end.

Definition within_budget : relation State := fun st st' =>
  (pieces_budget st' <= pieces_budget st)%nat.

#[global] Instance within_budget_preorder : PreOrder within_budget.
Proof.
  split.
  - intros st. unfold within_budget. lia.
  - intros st1 st2 st3. unfold within_budget. lia.
Qed.

(** The pieces and the memoized downstream piece. *)
Definition piece_store (st : State)
  : gmap nat TranscribedPiece.t * option nat :=
  (pieces st, _downstream_piece st).

(** ** The two strands and the reading of the chain *)

(** The image of a slice and of a feature under [z -> -z]: the half-open
    interval from [start] to [end] becomes the one from [1 - end] to
    [1 - start], and the strand becomes the other one. *)
Definition mirror_coordinates (c : Coordinates.t) : Coordinates.t :=
  Coordinates.mk (Coordinates.id c) (Coordinates.seqid c)
    (1 - Coordinates.end_ c) (1 - Coordinates.start c).

Definition mirror_feature (f : Feature.t) : Feature.t :=
  Feature.mk (Feature.given_name f) (Feature.type f) (- Feature.start f)
    (- Feature.end_ f) (negb (Feature.is_plus_strand f)) (Feature.phase f)
    (Feature.source f) (mirror_coordinates (Feature.coordinate f))
    (Feature.start_is_biological_start f) (Feature.end_is_biological_end f)
    (Feature.transcribed_pieces f).

(** What a classification says of the adjusted interval of the feature,
    from [a] to [b], and of the slice, from [S] to [E], on either
    strand. *)
Definition interval_reading (is_plus : bool) (a b S E : Z)
    (c : Classification) : Prop :=
  match c with
  | detached => False
  | upstream => if is_plus then b <= S else E <= a
  | overlaps_upstream_of => if is_plus then a < S < b else a < E < b
  | contained => S <= a /\ b <= E
  | overlaps_downstream_of =>
      if is_plus then S <= a /\ a < E < b else a < S < b /\ b <= E
  | downstream => if is_plus then E <= a else b <= S
  end.

(** ** Walks that do not cross the downstream border *)

#[global] Instance Classification_eq_dec : EqDecision Classification.
Proof. solve_decision. Defined.

(** The groups of a walk that have a given classification in a state. *)
Definition groups_classified (c : Classification) (st : State)
    (new_coords : Coordinates.t) (is_plus : bool)
    (transition_gen : list (list nat * nat)) : list (list nat * nat) :=
  filter (fun item => group_classification st new_coords is_plus item = Some c)
         transition_gen.

(** ** What a call never does *)

(** What a feature is known by stays: its name, type, start, strand,
    phase, source and the mark of its start; and an end that is still
    marked as biological is where it was, and was marked so. *)
Definition same_identity (f f' : Feature.t) : Prop :=
  Feature.given_name f' = Feature.given_name f /\
  Feature.type f' = Feature.type f /\
  Feature.start f' = Feature.start f /\
  Feature.is_plus_strand f' = Feature.is_plus_strand f /\
  Feature.phase f' = Feature.phase f /\
  Feature.source f' = Feature.source f /\
  Feature.start_is_biological_start f'
  = Feature.start_is_biological_start f /\
  (Feature.end_is_biological_end f' = true ->
   Feature.end_is_biological_end f = true /\
   Feature.end_ f' = Feature.end_ f).

(** Every feature is still there under its key, known by what it was
    known by; every piece is still there under its key, in the same
    transcript, at its position or beyond; and the coordinates are as
    they were. *)
Definition persists : relation State := fun st st' =>
  (forall k f, features st !! k = Some f ->
     exists f', features st' !! k = Some f' /\ same_identity f f') /\
  (forall k p, pieces st !! k = Some p ->
     exists p', pieces st' !! k = Some p' /\
                TranscribedPiece.transcribed p'
                = TranscribedPiece.transcribed p /\
                TranscribedPiece.position p
                <= TranscribedPiece.position p') /\
  coordinates st' = coordinates st.

(** The features, the pieces and the coordinates. *)
Definition stored (st : State)
  : gmap nat Feature.t * gmap nat TranscribedPiece.t
    * gmap nat Coordinates.t :=
  (features st, pieces st, coordinates st).

(** ** The interval trees *)

(** The tree of a sequence; a sequence with no tree has no interval. *)
Definition tree_of (st : State) (seqid : Z) : gset Interval :=
  default ∅ (trees st !! seqid).

(** The interval under which [load_to_intervaltree] files the feature of
    key [k]. *)
Definition interval_of (k : nat) (f : Feature.t) : Interval :=
  (fst (py_interval f), snd (py_interval f), k).

(** Only the trees differ. *)
Definition same_but_trees (st st' : State) : Prop :=
  st' = set_trees (trees st') st.

(** The trees only grow: every feature is still there, every interval is
    still in its tree, and an interval that was not there is not empty and
    is filed for a feature that was not there. *)
Definition trees_grow : relation State := fun st st' =>
  dom (features st) ⊆ dom (features st') /\
  (forall s i, i ∈ tree_of st s -> i ∈ tree_of st' s) /\
  (forall s lo hi k,
     (lo, hi, k) ∈ tree_of st' s ->
     (lo, hi, k) ∈ tree_of st s \/ (features st !! k = None /\ lo < hi)).

(** The features and the trees. *)
Definition filed (st : State)
  : gmap nat Feature.t * gmap Z (gset Interval) :=
  (features st, trees st).

(** ** The order of the pieces across a call *)

(** In every transcript, positions that no two pieces shared are shared
    by no two pieces. *)
Definition keeps_distinct : relation State := fun st st' =>
  forall t, positions_distinct st t -> positions_distinct st' t.

(** The pieces of the list [P] are pieces of the transcript [T]. *)
Definition pieces_of (T : nat) (P : list nat) (st : State) : Prop :=
  forall piece, piece ∈ P ->
    exists p, pieces st !! piece = Some p /\
              TranscribedPiece.transcribed p = T.

(** The trimmer is on the transcript [T], whose positions are exactly
    [0 .. n-1], or exactly [0 .. n] with a downstream piece memoized. *)
Definition dense_or_split (T : nat) (n : Z) (st : State) : Prop :=
  transcript st = T /\
  (dense st T n \/
   (is_Some (_downstream_piece st) /\ dense st T (n + 1))).

Definition keeps_dense (T : nat) (n : Z) (P : list nat) : relation State :=
  fun st st' =>
    dense_or_split T n st /\ pieces_of T P st ->
    dense_or_split T n st' /\ pieces_of T P st'.

(** The pieces, the trimmer's transcript and its memoized piece. *)
Definition trimmer_pieces (st : State)
  : gmap nat TranscribedPiece.t * nat * option nat :=
  (pieces st, transcript st, _downstream_piece st).

(** ** What a call can raise *)

(** A walk as [transition_5p_to_3p] gives it: no group is empty, and its
    features and pieces are objects of the session. *)
Definition well_formed (st : State)
    (transition_gen : list (list nat * nat)) : Prop :=
  forall item, item ∈ transition_gen ->
    fst item <> [] /\
    (forall f, f ∈ fst item -> is_Some (features st !! f)) /\
    is_Some (pieces st !! snd item).

(** * Scenarios *)

Definition chr1 : Coordinates.t := Coordinates.mk 1 1 0 1000.
Definition slice_0_400 : Coordinates.t := Coordinates.mk 2 1 0 400.

Definition plus_feature (s e : Z) (ps : list nat) : Feature.t :=
  Feature.mk (Some "f"%string) "exon"%string s e true 0 "gff"%string chr1
             true true ps.

(** Spec 8: a plus-strand transcript with one piece and three features at
    [100,200), [200,500), [500,800), sliced at [0,400). *)
Definition scenario : State :=
  mkState
    (list_to_map [(1%nat, plus_feature 100 200 [10%nat]);
                  (2%nat, plus_feature 200 500 [10%nat]);
                  (3%nat, plus_feature 500 800 [10%nat])])
    (list_to_map [(10%nat, TranscribedPiece.mk 7 0)])
    (list_to_map [(1%nat, chr1); (2%nat, slice_0_400)])
    (mkCoreQueue [] []) ∅ [] 7 [] None.

Definition scenario_walk : list (list nat * nat) :=
  [([1%nat], 10%nat); ([2%nat], 10%nat); ([3%nat], 10%nat)].

Definition slice_100_200 : Coordinates.t := Coordinates.mk 3 1 100 200.

(** A zero-length plus-strand feature at [150,150), inside [100,200). *)
Definition empty_feature_state : State :=
  mkState
    (list_to_map [(1%nat, plus_feature 150 150 [10%nat])])
    (list_to_map [(10%nat, TranscribedPiece.mk 7 0)])
    (list_to_map [(1%nat, chr1); (3%nat, slice_100_200)])
    (mkCoreQueue [] []) ∅ [] 7 [] None.

(** A transcript with three pieces at 0, 1, 2, and a piece of another
    transcript. *)
Definition three_pieces : State :=
  mkState ∅
    (list_to_map [(10%nat, TranscribedPiece.mk 7 0);
                  (11%nat, TranscribedPiece.mk 7 1);
                  (12%nat, TranscribedPiece.mk 7 2);
                  (20%nat, TranscribedPiece.mk 8 5)])
    ∅ (mkCoreQueue [] []) ∅ [] 7 [] None.

(** A transcript on two pieces: the feature at [200,500) on piece 10 and
    the feature at [500,800) on piece 12. *)
Definition two_pieces : State :=
  mkState
    (list_to_map [(2%nat, plus_feature 200 500 [10%nat]);
                  (3%nat, plus_feature 500 800 [12%nat])])
    (list_to_map [(10%nat, TranscribedPiece.mk 7 0);
                  (12%nat, TranscribedPiece.mk 7 1)])
    (list_to_map [(1%nat, chr1); (2%nat, slice_0_400)])
    (mkCoreQueue [] []) ∅ [] 7 [] None.

Definition two_pieces_walk : list (list nat * nat) :=
  [([2%nat], 10%nat); ([3%nat], 12%nat)].


(** A plus-strand feature at [50,150) against the slice [100,200): it
    overlaps the upstream boundary. *)
Definition upstream_overlap : State :=
  mkState
    (list_to_map [(1%nat, plus_feature 50 150 [10%nat])])
    (list_to_map [(10%nat, TranscribedPiece.mk 7 0)])
    (list_to_map [(1%nat, chr1); (3%nat, slice_100_200)])
    (mkCoreQueue [] []) ∅ [] 7 [] None.

(** A minus-strand feature from 200 down to 101 (start 200, end 100),
    against the slice [150,300): it overlaps the downstream border, which
    is the low one on this strand; the cut is at 149. *)
Definition minus_strand : State :=
  mkState
    (list_to_map
       [(1%nat, Feature.mk (Some "f"%string) "exon"%string 200 100 false 0
                  "gff"%string chr1 true true [10%nat])])
    (list_to_map [(10%nat, TranscribedPiece.mk 7 0)])
    (list_to_map [(1%nat, chr1); (4%nat, Coordinates.mk 4 1 150 300)])
    (mkCoreQueue [] []) ∅ [] 7 [] None.

(** The slice after [0,400): [400,600). *)
Definition slice_400_600 : Coordinates.t := Coordinates.mk 5 1 400 600.

(** A transcript of one plus-strand feature at [400,500), which begins
    right where the slice [0,400) ends. *)
Definition adjacent_downstream : State :=
  mkState
    (list_to_map [(1%nat, plus_feature 400 500 [10%nat])])
    (list_to_map [(10%nat, TranscribedPiece.mk 7 0)])
    (list_to_map [(1%nat, chr1); (2%nat, slice_0_400)])
    (mkCoreQueue [] []) ∅ [] 7 [] None.

(** * Properties *)

(** ** The classifier *)

Ltac bool_arith :=
  repeat match goal with
  | H : _ && _ = true |- _ => apply andb_true_iff in H; destruct H
  | H : _ && _ = false |- _ => apply andb_false_iff in H
  | H : negb _ = true |- _ => apply negb_true_iff in H
  | H : negb _ = false |- _ => apply negb_false_iff in H
  | H : (_ <? _) = true |- _ => apply Z.ltb_lt in H
  | H : (_ <? _) = false |- _ => apply Z.ltb_ge in H
  | H : (_ <=? _) = true |- _ => apply Z.leb_le in H
  | H : (_ <=? _) = false |- _ => apply Z.leb_gt in H
  | H : (_ >=? _) = true |- _ => rewrite Z.geb_le in H
  | H : (_ >=? _) = false |- _ => rewrite Z.geb_leb in H
  | H : (_ >? _) = true |- _ => rewrite Z.gtb_ltb in H
  | H : (_ >? _) = false |- _ => rewrite Z.gtb_ltb in H
  | H : (_ =? _) = true |- _ => apply Z.eqb_eq in H
  | H : (_ =? _) = false |- _ => apply Z.eqb_neq in H
  end.

Ltac bool_cases :=
  repeat (bool_arith;
          match goal with H : _ \/ _ |- _ => destruct H end);
  bool_arith.

Ltac questions_unfold :=
  unfold is_upstream, overlaps_upstream, is_contained, overlaps_downstream,
    is_downstream, _is_lower, _is_higher, _overlaps_lower, _overlaps_higher
    in *;
  simpl in *.

(** Whatever the numbers, one of the five geometric questions answers
    yes. *)
Lemma geometry_exhaustive (s e S E : Z) :
  (S - e >=? 0) = false -> (s - E >=? 0) = false ->
  (s <? S) && (S <? e) = false -> (s <? E) && (E <? e) = false ->
  ((S <=? s) && (s <? E)) && ((S <? e) && (e <=? E)) = true.
Proof.
  intros H1 H2 H3 H4. bool_arith.
  rewrite !andb_true_iff, !Z.leb_le, !Z.ltb_lt.
  rewrite !Z.ltb_ge in H3, H4. lia.
Qed.

Lemma classify_total (position_interp : FeatureVsCoords) :
  exists c, classify position_interp = Some c.
Proof.
  unfold classify.
  destruct (is_detached position_interp); [eauto |].
  destruct (is_upstream position_interp) eqn:Hup; [eauto |].
  destruct (overlaps_upstream position_interp) eqn:Hou; [eauto |].
  destruct (is_contained position_interp) eqn:Hc; [eauto |].
  destruct (overlaps_downstream position_interp) eqn:Hod; [eauto |].
  destruct (is_downstream position_interp) eqn:Hd; [eauto |].
  exfalso.
  unfold is_upstream, overlaps_upstream, is_contained, overlaps_downstream,
    is_downstream, _is_lower, _is_higher, _overlaps_lower, _overlaps_higher
    in *.
  destruct (is_plus_strand position_interp);
    rewrite geometry_exhaustive in Hc; congruence.
Qed.

Lemma classify_first_match (p : FeatureVsCoords) (c : Classification) :
  classify p = Some c ->
  holds c p = true /\
  forall c', (rank c' < rank c)%nat -> holds c' p = false.
Proof.
  unfold classify.
  destruct (is_detached p) eqn:H0;
    [intros [= <-]; split; [done | intros []; simpl; lia] |].
  destruct (is_upstream p) eqn:H1;
    [intros [= <-]; split; [done | intros []; simpl; (done || lia)] |].
  destruct (overlaps_upstream p) eqn:H2;
    [intros [= <-]; split; [done | intros []; simpl; (done || lia)] |].
  destruct (is_contained p) eqn:H3;
    [intros [= <-]; split; [done | intros []; simpl; (done || lia)] |].
  destruct (overlaps_downstream p) eqn:H4;
    [intros [= <-]; split; [done | intros []; simpl; (done || lia)] |].
  destruct (is_downstream p) eqn:H5;
    [intros [= <-]; split; [done | intros []; simpl; (done || lia)] |].
  discriminate.
Qed.

(** ** What a computation never raises *)

Lemma never_raises_ret {A : Type} (e : exn) (a : A) : never_raises e (mret a).
Proof. intros st. done. Qed.

Lemma never_raises_bind {A B : Type} (e : exn) (m : M A) (k : A -> M B) :
  never_raises e m -> (forall a, never_raises e (k a)) ->
  never_raises e (m ≫= k).
Proof.
  intros Hm Hk st. unfold mbind, M_bind.
  generalize (Hm st). destruct (m st) as [[a | e'] st']; simpl.
  - intros _. apply Hk.
  - intros Hne Heq. apply Hne. congruence.
Qed.

Lemma never_raises_raise {A : Type} (e e' : exn) :
  e' <> e -> never_raises e (raise e' : M A).
Proof. intros Hne st. simpl. congruence. Qed.

Lemma never_raises_modify (e : exn) (f : State -> State) :
  never_raises e (modify f).
Proof. intros st. done. Qed.

Lemma never_raises_get (e : exn) : never_raises e get.
Proof. intros st. done. Qed.

Lemma never_raises_get_feature (e : exn) (k : nat) :
  e <> InvalidReference -> never_raises e (get_feature k).
Proof.
  intros Hne st. unfold get_feature.
  destruct (features st !! k); simpl; congruence.
Qed.

Lemma never_raises_get_piece (e : exn) (k : nat) :
  e <> InvalidReference -> never_raises e (get_piece k).
Proof.
  intros Hne st. unfold get_piece.
  destruct (pieces st !! k); simpl; congruence.
Qed.

Lemma never_raises_for_each {A : Type} (e : exn) (l : list A)
    (body : A -> M unit) :
  (forall x, never_raises e (body x)) -> never_raises e (for_each l body).
Proof.
  intros Hb. induction l as [| x l IH]; simpl.
  - apply never_raises_ret.
  - apply never_raises_bind; [apply Hb | intros _; apply IH].
Qed.

Lemma never_raises_assert (e : exn) (b : bool) (a : assertion) :
  e <> AssertionError a -> never_raises e (assert b a).
Proof.
  intros Hne. unfold assert. destruct b.
  - apply never_raises_ret.
  - apply never_raises_raise. congruence.
Qed.

Ltac never_step :=
  lazymatch goal with
  | |- never_raises _ (mbind _ _) => apply never_raises_bind; [| intros ? ]
  | |- never_raises _ (mret _) => apply never_raises_ret
  | |- never_raises _ (modify _) => apply never_raises_modify
  | |- never_raises _ get => apply never_raises_get
  | |- never_raises _ (get_feature _) =>
      apply never_raises_get_feature; congruence
  | |- never_raises _ (get_piece _) =>
      apply never_raises_get_piece; congruence
  | |- never_raises _ (raise _) => apply never_raises_raise; congruence
  | |- never_raises _ (assert _ _) => apply never_raises_assert; congruence
  | |- never_raises _ (for_each _ _) =>
      apply never_raises_for_each; intros ?
  end.

Lemma never_raises_mk_new_piece (e : exn) (piece : nat) :
  e <> InvalidReference -> never_raises e (mk_new_piece piece).
Proof.
  intros Hne. unfold mk_new_piece.
  repeat never_step.
  match goal with |- context [if ?b then _ else _] => destruct b end;
    repeat never_step.
Qed.

Lemma never_raises_downstream_piece (e : exn) (piece : nat) :
  e <> InvalidReference -> never_raises e (downstream_piece piece).
Proof.
  intros Hne. unfold downstream_piece.
  never_step; [never_step |].
  destruct (_downstream_piece a); repeat never_step.
  by apply never_raises_mk_new_piece.
Qed.

Lemma never_raises_execute_so_far (e : exn) : never_raises e execute_so_far.
Proof. apply never_raises_modify. Qed.

Lemma never_raises_load_to_intervaltree (e : exn) (self : nat) :
  e <> InvalidReference -> e <> ValueError ->
  never_raises e (load_to_intervaltree self).
Proof.
  intros H1 H2. unfold load_to_intervaltree.
  repeat never_step.
  destruct (Feature.is_plus_strand a);
    match goal with |- context [if ?b then _ else _] => destruct b end;
    repeat never_step.
Qed.

Lemma never_raises_new_handled_data (e : exn) (template : nat)
    (kwargs : Feature.t -> Feature.t) :
  e <> InvalidReference -> never_raises e (new_handled_data template kwargs).
Proof. intros Hne. unfold new_handled_data. repeat never_step. Qed.

Lemma never_raises_set_status_downstream_border (e : exn)
    (new_coords old_coords : Coordinates.t) (is_plus : bool)
    (template_feature new_piece old_piece : nat) :
  e <> InvalidReference -> e <> ValueError ->
  e <> AssertionError old_piece_not_in_pieces ->
  never_raises e
    (set_status_downstream_border new_coords old_coords is_plus
       template_feature new_piece old_piece).
Proof.
  intros H1 H2 H3. unfold set_status_downstream_border.
  repeat never_step.
  destruct (swap_list_item _ _ _); repeat never_step.
  - by apply never_raises_new_handled_data.
  - by apply never_raises_load_to_intervaltree.
Qed.

(** A turn of the loop raises nothing but [IndexError] (a group with no
    feature), what the border split raises, and the store's answer to a
    reference to nothing; the final [else] is never taken. *)
Lemma never_raises_visit (e : exn) (new_coords : Coordinates.t)
    (is_plus : bool) (locals : bool * option nat) (item : list nat * nat) :
  e <> InvalidReference -> e <> ValueError -> e <> IndexError ->
  e <> AssertionError old_piece_not_in_pieces ->
  never_raises e (visit new_coords is_plus locals item).
Proof.
  intros H1 H2 H3 H4.
  unfold visit. destruct locals as [seen border], item as [aligned piece].
  destruct aligned as [| f0_ref rest]; [never_step |].
  never_step; [never_step |].
  destruct (classify_total (FeatureVsCoords_init a new_coords is_plus))
    as [c ->].
  destruct c; repeat never_step.
  - unfold append_coord_swap. never_step.
  - by apply never_raises_downstream_piece.
  - apply never_raises_execute_so_far.
  - by apply never_raises_set_status_downstream_border.
  - destruct border as [b |]; [| never_step].
    destruct (decide (piece = b)); repeat never_step.
    + by apply never_raises_downstream_piece.
    + unfold append_piece_swap. never_step.
Qed.

Lemma never_raises_walk (e : exn) (new_coords : Coordinates.t)
    (is_plus : bool) (transition_gen : list (list nat * nat))
    (locals : bool * option nat) :
  e <> InvalidReference -> e <> ValueError -> e <> IndexError ->
  e <> AssertionError old_piece_not_in_pieces ->
  never_raises e (walk new_coords is_plus transition_gen locals).
Proof.
  intros H1 H2 H3 H4.
  revert locals. induction transition_gen as [| item rest IH]; intros locals.
  - apply never_raises_ret.
  - simpl. apply never_raises_bind; [| intros a; apply IH].
    by apply never_raises_visit.
Qed.

(** C4, as the code has it.  For every feature and every slice the chain
    of [modify4new_slice] over the answers of [FeatureVsCoords] gives one
    classification and only one: the first in the chain's order whose
    question answers yes.  The questions are asked of the interval from
    [feature.end + 1] to [feature.start + 1] on the minus strand and from
    [feature.start] to [feature.end] on the plus strand, and each says
    what is written here of that interval and of the slice.  The six
    questions do not exclude one another: [is_detached] is asked of the
    sequence and the strand only, whatever the interval; and of the five
    others, asked of an interval that is not empty and of a slice whose
    end is not before its start, exactly one answers yes, unless the
    interval reaches beyond both ends of the slice, when both overlaps
    do.  No call of [modify4new_slice], whatever the groups and their
    intervals, reaches the [AssertionError] of the final [else]. *)
Theorem C4_classification_total :
  (forall (f : Feature.t) (slice : Coordinates.t) (is_plus : bool),
     exists c,
       classify (FeatureVsCoords_init f slice is_plus) = Some c /\
       holds c (FeatureVsCoords_init f slice is_plus) = true /\
       (forall c', (rank c' < rank c)%nat ->
                   holds c' (FeatureVsCoords_init f slice is_plus) = false) /\
       (forall c', classify (FeatureVsCoords_init f slice is_plus) = Some c' ->
                   c' = c)) /\
  (forall (f : Feature.t) (slice : Coordinates.t),
     feature_py_start (FeatureVsCoords_init f slice false) = Feature.end_ f + 1 /\
     feature_py_end (FeatureVsCoords_init f slice false) = Feature.start f + 1 /\
     feature_py_start (FeatureVsCoords_init f slice true) = Feature.start f /\
     feature_py_end (FeatureVsCoords_init f slice true) = Feature.end_ f) /\
  (forall (f : Feature.t) (slice : Coordinates.t) (is_plus : bool),
     (is_detached (FeatureVsCoords_init f slice is_plus) = true <->
      Coordinates.seqid slice <> Coordinates.seqid (Feature.coordinate f) \/
      is_plus <> Feature.is_plus_strand f) /\
     (is_upstream (FeatureVsCoords_init f slice is_plus) = true <->
      if is_plus
      then feature_py_end (FeatureVsCoords_init f slice is_plus)
           <= Coordinates.start slice
      else Coordinates.end_ slice
           <= feature_py_start (FeatureVsCoords_init f slice is_plus)) /\
     (overlaps_upstream (FeatureVsCoords_init f slice is_plus) = true <->
      if is_plus
      then feature_py_start (FeatureVsCoords_init f slice is_plus)
           < Coordinates.start slice
           < feature_py_end (FeatureVsCoords_init f slice is_plus)
      else feature_py_start (FeatureVsCoords_init f slice is_plus)
           < Coordinates.end_ slice
           < feature_py_end (FeatureVsCoords_init f slice is_plus)) /\
     (is_contained (FeatureVsCoords_init f slice is_plus) = true <->
      Coordinates.start slice
      <= feature_py_start (FeatureVsCoords_init f slice is_plus)
      < Coordinates.end_ slice /\
      Coordinates.start slice
      < feature_py_end (FeatureVsCoords_init f slice is_plus)
      <= Coordinates.end_ slice) /\
     (overlaps_downstream (FeatureVsCoords_init f slice is_plus) = true <->
      if is_plus
      then feature_py_start (FeatureVsCoords_init f slice is_plus)
           < Coordinates.end_ slice
           < feature_py_end (FeatureVsCoords_init f slice is_plus)
      else feature_py_start (FeatureVsCoords_init f slice is_plus)
           < Coordinates.start slice
           < feature_py_end (FeatureVsCoords_init f slice is_plus)) /\
     (is_downstream (FeatureVsCoords_init f slice is_plus) = true <->
      if is_plus
      then Coordinates.end_ slice
           <= feature_py_start (FeatureVsCoords_init f slice is_plus)
      else feature_py_end (FeatureVsCoords_init f slice is_plus)
           <= Coordinates.start slice)) /\
  (forall (f : Feature.t) (slice : Coordinates.t) (is_plus : bool),
     feature_py_start (FeatureVsCoords_init f slice is_plus)
     < feature_py_end (FeatureVsCoords_init f slice is_plus) ->
     Coordinates.start slice <= Coordinates.end_ slice ->
     (overlaps_upstream (FeatureVsCoords_init f slice is_plus) = true /\
      overlaps_downstream (FeatureVsCoords_init f slice is_plus) = true /\
      is_upstream (FeatureVsCoords_init f slice is_plus) = false /\
      is_contained (FeatureVsCoords_init f slice is_plus) = false /\
      is_downstream (FeatureVsCoords_init f slice is_plus) = false /\
      feature_py_start (FeatureVsCoords_init f slice is_plus)
      < Coordinates.start slice /\
      Coordinates.end_ slice
      < feature_py_end (FeatureVsCoords_init f slice is_plus))
     \/
     (exists c,
        c <> detached /\
        holds c (FeatureVsCoords_init f slice is_plus) = true /\
        forall c', c' <> detached ->
                   holds c' (FeatureVsCoords_init f slice is_plus) = true ->
                   c' = c)) /\
  (forall (transition_gen : list (list nat * nat)) (new_coords : Coordinates.t)
          (is_plus : bool) (st : State),
     fst (modify4new_slice transition_gen new_coords is_plus st)
       <> Raise (AssertionError unreachable_code)).
Proof.
  split; [| split; [| split; [| split]]].
  - intros f slice is_plus.
    destruct (classify_total (FeatureVsCoords_init f slice is_plus)) as [c Hc].
    exists c. split; [done |].
    destruct (classify_first_match _ _ Hc) as [Hholds Hbefore].
    split; [done |]. split; [done |]. intros c' Hc'. congruence.
  - intros f slice. by simpl.
  - intros f slice is_plus. split.
    { unfold is_detached. simpl.
      destruct (Z.eqb_spec (Coordinates.seqid slice)
                  (Coordinates.seqid (Feature.coordinate f))) as [Heq | Hne];
        simpl; [| naive_solver].
      destruct is_plus, (Feature.is_plus_strand f); simpl; naive_solver. }
    questions_unfold.
    destruct is_plus; simpl;
      rewrite ?andb_true_iff, ?Z.ltb_lt, ?Z.leb_le, ?Z.geb_le;
      split_and!; lia.
  - intros f slice is_plus Hne Hslice.
    destruct (overlaps_upstream (FeatureVsCoords_init f slice is_plus))
      eqn:Hou;
      destruct (overlaps_downstream (FeatureVsCoords_init f slice is_plus))
        eqn:Hod.
    + left. split; [done |]. split; [done |].
      questions_unfold. destruct is_plus; simpl in *; bool_cases;
        rewrite ?andb_false_iff, ?Z.geb_leb, ?Z.leb_gt, ?Z.ltb_ge, ?Z.leb_le;
        split_and!; lia.
    + right. exists overlaps_upstream_of. split; [done |]. split; [done |].
      intros c' Hc' Hh. destruct c'; try done; simpl in Hh; exfalso;
        try congruence;
        questions_unfold; destruct is_plus; simpl in *; bool_cases; lia.
    + right. exists overlaps_downstream_of. split; [done |]. split; [done |].
      intros c' Hc' Hh. destruct c'; try done; simpl in Hh; exfalso;
        try congruence;
        questions_unfold; destruct is_plus; simpl in *; bool_cases; lia.
    + destruct (is_upstream (FeatureVsCoords_init f slice is_plus)) eqn:Hu;
        [| destruct (is_contained (FeatureVsCoords_init f slice is_plus))
             eqn:Hco;
           [| destruct (is_downstream (FeatureVsCoords_init f slice is_plus))
                eqn:Hd]].
      * right. exists upstream. split; [done |]. split; [done |].
        intros c' Hc' Hh. destruct c'; try done; simpl in Hh; exfalso;
          try congruence;
          questions_unfold; destruct is_plus; simpl in *; bool_cases; lia.
      * right. exists contained. split; [done |]. split; [done |].
        intros c' Hc' Hh. destruct c'; try done; simpl in Hh; exfalso;
          try congruence;
          questions_unfold; destruct is_plus; simpl in *; bool_cases; lia.
      * right. exists downstream. split; [done |]. split; [done |].
        intros c' Hc' Hh. destruct c'; try done; simpl in Hh; exfalso;
          try congruence;
          questions_unfold; destruct is_plus; simpl in *; bool_cases; lia.
      * exfalso. questions_unfold.
        destruct is_plus; simpl in *;
          rewrite geometry_exhaustive in Hco; congruence.
  - intros gen new_coords is_plus.
    unfold modify4new_slice. apply never_raises_bind.
    + by apply never_raises_walk.
    + intros [seen border]. simpl. destruct seen; simpl.
      * apply never_raises_modify.
      * by apply never_raises_raise.
Qed.

(** C4, counterexample: the questions of [FeatureVsCoords] do not give
    exactly one classification.  The feature at [200,500) reaches beyond
    both ends of the slice [300,400), and overlaps its upstream border and
    its downstream border, of which the chain takes the first; the feature
    at [100,200) is on another sequence than the slice [300,400) of
    sequence 2, and is detached and upstream, of which the chain takes the
    first. *)
Lemma C4_counterexample :
  overlaps_upstream
    (FeatureVsCoords_init (plus_feature 200 500 [10%nat])
       (Coordinates.mk 5 1 300 400) true) = true /\
  overlaps_downstream
    (FeatureVsCoords_init (plus_feature 200 500 [10%nat])
       (Coordinates.mk 5 1 300 400) true) = true /\
  classify
    (FeatureVsCoords_init (plus_feature 200 500 [10%nat])
       (Coordinates.mk 5 1 300 400) true) = Some overlaps_upstream_of /\
  is_detached
    (FeatureVsCoords_init (plus_feature 100 200 [10%nat])
       (Coordinates.mk 6 2 300 400) true) = true /\
  is_upstream
    (FeatureVsCoords_init (plus_feature 100 200 [10%nat])
       (Coordinates.mk 6 2 300 400) true) = true /\
  classify
    (FeatureVsCoords_init (plus_feature 100 200 [10%nat])
       (Coordinates.mk 6 2 300 400) true) = Some detached.
Proof. vm_compute. repeat split. Qed.

(** ** Running a computation *)

Lemma bind_ok {A B : Type} (m : M A) (k : A -> M B) (st st' : State) (a : A) :
  m st = (Ok a, st') -> (m ≫= k) st = k a st'.
Proof. intros H. unfold mbind, M_bind. by rewrite H. Qed.

Lemma bind_raise {A B : Type} (m : M A) (k : A -> M B) (st st' : State)
    (e : exn) :
  m st = (Raise e, st') -> (m ≫= k) st = (Raise e, st').
Proof. intros H. unfold mbind, M_bind. by rewrite H. Qed.

Lemma get_feature_ok (k : nat) (f : Feature.t) (st : State) :
  features st !! k = Some f -> get_feature k st = (Ok f, st).
Proof. intros H. unfold get_feature. by rewrite H. Qed.

Lemma get_piece_ok (k : nat) (p : TranscribedPiece.t) (st : State) :
  pieces st !! k = Some p -> get_piece k st = (Ok p, st).
Proof. intros H. unfold get_piece. by rewrite H. Qed.

Lemma never_raises_apply {A : Type} (e : exn) (m : M A) (st : State) :
  never_raises e m -> fst (m st) <> Raise e.
Proof. intros H. apply H. Qed.

(** ** Empty and inverted intervals *)

(** An interval that is empty or inverted straddles no boundary. *)
Lemma degenerate_never_overlaps (p : FeatureVsCoords) :
  feature_py_start p >= feature_py_end p ->
  overlaps_upstream p = false /\ overlaps_downstream p = false.
Proof.
  intros Hdeg.
  unfold overlaps_upstream, overlaps_downstream, _overlaps_lower,
    _overlaps_higher.
  destruct (is_plus_strand p); split;
    apply andb_false_iff; rewrite !Z.ltb_ge; lia.
Qed.

(** C8, as the code has it.  A feature whose adjusted interval is empty or
    inverted is classified by the same chain as any other: it comes out
    detached, upstream, contained or downstream, and the turn of the loop
    of [modify4new_slice] over a group that it heads raises none of the
    exceptions of the code (an exception can only be the store's answer to
    a reference that names no object). *)
Theorem C8_degenerate_interval_is_classified (f : Feature.t)
    (slice : Coordinates.t) (is_plus : bool) :
  feature_py_start (FeatureVsCoords_init f slice is_plus)
    >= feature_py_end (FeatureVsCoords_init f slice is_plus) ->
  (classify (FeatureVsCoords_init f slice is_plus) = Some detached \/
   classify (FeatureVsCoords_init f slice is_plus) = Some upstream \/
   classify (FeatureVsCoords_init f slice is_plus) = Some contained \/
   classify (FeatureVsCoords_init f slice is_plus) = Some downstream) /\
  forall (st : State) (locals : bool * option nat) (f0_ref : nat)
         (rest : list nat) (piece : nat) (e : exn),
    features st !! f0_ref = Some f ->
    fst (visit slice is_plus locals (f0_ref :: rest, piece) st) = Raise e ->
    e = InvalidReference.
Proof.
  intros Hdeg.
  destruct (degenerate_never_overlaps _ Hdeg) as [Hou Hod].
  destruct (classify_total (FeatureVsCoords_init f slice is_plus)) as [c Hc].
  pose proof (classify_first_match _ _ Hc) as [Hholds _].
  assert (Hfour : c = detached \/ c = upstream \/ c = contained
                  \/ c = downstream).
  { destruct c; simpl in Hholds; try congruence; tauto. }
  split.
  { rewrite Hc. destruct Hfour as [-> | [-> | [-> | ->]]]; tauto. }
  intros st [seen border] f0_ref rest piece e Hf Hraise.
  destruct (decide (e = InvalidReference)) as [| Hne]; [done |].
  exfalso. revert Hraise.
  unfold visit. rewrite (bind_ok _ _ _ _ _ (get_feature_ok _ _ _ Hf)).
  rewrite Hc.
  destruct Hfour as [-> | [-> | [-> | ->]]];
    apply never_raises_apply; repeat never_step.
  - unfold append_coord_swap. never_step.
  - destruct border as [b |]; [| never_step].
    destruct (decide (piece = b)); repeat never_step.
    + by apply never_raises_downstream_piece.
    + unfold append_piece_swap. never_step.
Qed.

(** C8, witness: the zero-length feature at [150,150). *)
Lemma C8_degenerate_interval_witness :
  (classify (FeatureVsCoords_init (plus_feature 150 150 [10%nat])
                                  slice_100_200 true) = Some detached \/
   classify (FeatureVsCoords_init (plus_feature 150 150 [10%nat])
                                  slice_100_200 true) = Some upstream \/
   classify (FeatureVsCoords_init (plus_feature 150 150 [10%nat])
                                  slice_100_200 true) = Some contained \/
   classify (FeatureVsCoords_init (plus_feature 150 150 [10%nat])
                                  slice_100_200 true) = Some downstream) /\
  forall (st : State) (locals : bool * option nat) (f0_ref : nat)
         (rest : list nat) (piece : nat) (e : exn),
    features st !! f0_ref = Some (plus_feature 150 150 [10%nat]) ->
    fst (visit slice_100_200 true locals (f0_ref :: rest, piece) st)
      = Raise e ->
    e = InvalidReference.
Proof.
  apply (C8_degenerate_interval_is_classified
           (plus_feature 150 150 [10%nat]) slice_100_200 true).
  simpl. lia.
Defined.

(** C8, counterexample: the zero-length feature at [150,150) is accepted
    as contained in [100,200); the call returns normally with the
    coordinate reassignment of the feature in the queue. *)
Lemma C8_counterexample :
  feature_py_start (FeatureVsCoords_init (plus_feature 150 150 [10%nat])
                                         slice_100_200 true)
    >= feature_py_end (FeatureVsCoords_init (plus_feature 150 150 [10%nat])
                                            slice_100_200 true) /\
  classify (FeatureVsCoords_init (plus_feature 150 150 [10%nat])
                                 slice_100_200 true) = Some contained /\
  modify4new_slice [([1%nat], 10%nat)] slice_100_200 true empty_feature_state
    = (Ok tt,
       set_core_queue (mkCoreQueue [mkCoordSwap 1 3] []) empty_feature_state).
Proof.
  split; [simpl; lia |]. split; reflexivity.
Qed.

(** ** The piece manager *)

Lemma set_pieces_id (st : State) : set_pieces (pieces st) st = st.
Proof. by destruct st. Qed.

Lemma set_pieces_twice (m m' : gmap nat TranscribedPiece.t) (st : State) :
  set_pieces m' (set_pieces m st) = set_pieces m' st.
Proof. by destruct st. Qed.

Lemma elem_of_transcribed_pieces (st : State) (t k : nat) :
  k ∈ transcribed_pieces st t <->
  exists x, pieces st !! k = Some x /\ TranscribedPiece.transcribed x = t.
Proof.
  unfold transcribed_pieces. rewrite list_elem_of_fmap. split.
  - intros [[k' x] [-> H]]. apply elem_of_map_to_list in H.
    apply map_lookup_filter_Some in H as [H1 H2]. eauto.
  - intros (x & H1 & H2). exists (k, x). split; [done |].
    apply elem_of_map_to_list. by apply map_lookup_filter_Some.
Qed.

Lemma NoDup_transcribed_pieces (st : State) (t : nat) :
  NoDup (transcribed_pieces st t).
Proof. apply NoDup_fst_map_to_list. Qed.

Lemma bump_position_self (p : TranscribedPiece.t) :
  bump_position (TranscribedPiece.position p) p = p.
Proof.
  unfold bump_position.
  destruct (TranscribedPiece.position p >? TranscribedPiece.position p) eqn:E;
    [| done].
  rewrite Z.gtb_ltb in E. apply Z.ltb_lt in E. lia.
Qed.

(** One turn of the loop of [mk_new_piece]. *)
Lemma mk_new_piece_turn (piece x : nat) (p o : TranscribedPiece.t)
    (st : State) :
  pieces st !! piece = Some p ->
  pieces st !! x = Some o ->
  (o ← get_piece x;
   p ← get_piece piece;
   if TranscribedPiece.position o >? TranscribedPiece.position p
   then modify (fun st =>
          set_pieces
            (<[x := TranscribedPiece.set_position
                      (TranscribedPiece.position o + 1) o]> (pieces st)) st)
   else mret tt) st
  = (Ok tt,
     set_pieces
       (<[x := bump_position (TranscribedPiece.position p) o]> (pieces st))
       st).
Proof.
  intros Hp Ho.
  rewrite (bind_ok _ _ _ _ _ (get_piece_ok _ _ _ Ho)).
  rewrite (bind_ok _ _ _ _ _ (get_piece_ok _ _ _ Hp)).
  unfold bump_position.
  destruct (TranscribedPiece.position o >? TranscribedPiece.position p);
    [done |].
  rewrite insert_id by done. by rewrite set_pieces_id.
Qed.

(** The loop of [mk_new_piece] over [old_pieces]. *)
Lemma mk_new_piece_loop (piece : nat) (p : TranscribedPiece.t)
    (l : list nat) :
  forall st : State,
    NoDup l ->
    pieces st !! piece = Some p ->
    (forall k, k ∈ l -> is_Some (pieces st !! k)) ->
    exists m',
      for_each l (fun old_piece =>
        o ← get_piece old_piece;
        p ← get_piece piece;
        if TranscribedPiece.position o >? TranscribedPiece.position p
        then modify (fun st =>
               set_pieces
                 (<[old_piece :=
                      TranscribedPiece.set_position
                        (TranscribedPiece.position o + 1) o]> (pieces st)) st)
        else mret tt) st = (Ok tt, set_pieces m' st) /\
      forall k,
        m' !! k =
        if decide (k ∈ l)
        then bump_position (TranscribedPiece.position p) <$> pieces st !! k
        else pieces st !! k.
Proof.
  induction l as [| x l IH]; intros st Hnd Hp Hin.
  - exists (pieces st). split; [simpl; by rewrite set_pieces_id |].
    intros k. case_decide; [set_solver | done].
  - apply NoDup_cons in Hnd as [Hx Hnd].
    destruct (Hin x) as [o Ho]; [set_solver |].
    set (m1 := <[x := bump_position (TranscribedPiece.position p) o]>
                 (pieces st)).
    assert (Hp1 : pieces (set_pieces m1 st) !! piece = Some p).
    { simpl. unfold m1. destruct (decide (x = piece)) as [-> | Hne].
      - rewrite lookup_insert_eq. replace o with p by congruence.
        by rewrite bump_position_self.
      - by rewrite lookup_insert_ne. }
    destruct (IH (set_pieces m1 st) Hnd Hp1) as (m' & Hrun & Hlook).
    { intros k Hk. simpl. unfold m1.
      destruct (decide (x = k)) as [-> | Hne]; [by rewrite lookup_insert_eq |].
      rewrite lookup_insert_ne by done. apply Hin. set_solver. }
    exists m'. split.
    + simpl.
      rewrite (bind_ok _ _ _ _ _ (mk_new_piece_turn _ _ _ _ _ Hp Ho)).
      fold m1. rewrite Hrun. by rewrite set_pieces_twice.
    + intros k. rewrite Hlook. simpl. unfold m1.
      destruct (decide (k = x)) as [-> | Hne].
      * rewrite decide_False by done. rewrite decide_True by set_solver.
        by rewrite lookup_insert_eq, Ho.
      * rewrite lookup_insert_ne by done.
        destruct (decide (k ∈ l)).
        -- rewrite decide_True; [done | by apply list_elem_of_further].
        -- rewrite decide_False; [done |].
           by intros [? | ?]%elem_of_cons.
Qed.

Lemma mk_new_piece_spec (st : State) (piece : nat) (p : TranscribedPiece.t) :
  pieces st !! piece = Some p ->
  mk_new_piece piece st =
  (Ok (fresh (dom (pieces st))),
   set_handlers (handlers st ++ [fresh (dom (pieces st))])
     (set_pieces
        (<[fresh (dom (pieces st)) :=
             TranscribedPiece.mk (transcript st)
               (TranscribedPiece.position p + 1)]>
           (bumped (transcript st) (TranscribedPiece.position p)
              <$> pieces st)) st)).
Proof.
  intros Hp. unfold mk_new_piece.
  rewrite (bind_ok get _ st st st) by done.
  destruct (mk_new_piece_loop piece p (transcribed_pieces st (transcript st))
              st (NoDup_transcribed_pieces _ _) Hp) as (m' & Hrun & Hlook).
  { intros k Hk. apply elem_of_transcribed_pieces in Hk as (x & -> & _).
    eauto. }
  assert (Hm' : m' = bumped (transcript st) (TranscribedPiece.position p)
                       <$> pieces st).
  { apply map_eq. intros k. rewrite Hlook, lookup_fmap.
    destruct (pieces st !! k) as [x |] eqn:Hk; simpl.
    - unfold bumped. destruct (decide (k ∈ _)) as [Hin | Hnin].
      + apply elem_of_transcribed_pieces in Hin as (x' & Hx' & Ht).
        assert (x' = x) as -> by congruence. by rewrite decide_True.
      + rewrite decide_False; [done |]. intros Ht. apply Hnin.
        apply elem_of_transcribed_pieces. eauto.
    - by case_decide. }
  subst m'.
  rewrite (bind_ok _ _ _ _ _ Hrun).
  assert (Hp' : pieces (set_pieces
                  (bumped (transcript st) (TranscribedPiece.position p)
                     <$> pieces st) st) !! piece = Some p).
  { simpl. rewrite lookup_fmap, Hp. simpl. unfold bumped.
    case_decide; [by rewrite bump_position_self | done]. }
  rewrite (bind_ok _ _ _ _ _ (get_piece_ok _ _ _ Hp')).
  unfold mbind, M_bind, get, modify, mret, M_ret. simpl.
  rewrite dom_fmap_L. by destruct st.
Qed.

Lemma bumped_transcribed (t : nat) (pos : Z) (x : TranscribedPiece.t) :
  TranscribedPiece.transcribed (bumped t pos x)
  = TranscribedPiece.transcribed x.
Proof.
  unfold bumped, bump_position.
  case_decide; [| done].
  by destruct (TranscribedPiece.position x >? pos).
Qed.

Lemma bumped_position (t : nat) (pos : Z) (x : TranscribedPiece.t) :
  TranscribedPiece.transcribed x = t ->
  (TranscribedPiece.position x <= pos /\
   TranscribedPiece.position (bumped t pos x) = TranscribedPiece.position x)
  \/
  (pos < TranscribedPiece.position x /\
   TranscribedPiece.position (bumped t pos x)
   = TranscribedPiece.position x + 1).
Proof.
  intros Ht. unfold bumped, bump_position. rewrite decide_True by done.
  destruct (TranscribedPiece.position x >? pos) eqn:E;
    rewrite Z.gtb_ltb in E; [apply Z.ltb_lt in E | apply Z.ltb_ge in E];
    simpl; lia.
Qed.

Lemma fresh_piece_is_new (st : State) :
  pieces st !! fresh (dom (pieces st)) = None.
Proof. apply not_elem_of_dom. apply is_fresh. Qed.

Lemma pieces_after_split_old (st : State) (p x : TranscribedPiece.t)
    (k : nat) :
  pieces st !! k = Some x ->
  pieces_after_split st p !! k
  = Some (bumped (transcript st) (TranscribedPiece.position p) x).
Proof.
  intros Hk. unfold pieces_after_split.
  rewrite lookup_insert_ne.
  - by rewrite lookup_fmap, Hk.
  - intros <-. rewrite fresh_piece_is_new in Hk. done.
Qed.

Lemma pieces_after_split_inv (st : State) (p y : TranscribedPiece.t)
    (k : nat) :
  pieces_after_split st p !! k = Some y ->
  (k = fresh (dom (pieces st)) /\
   y = TranscribedPiece.mk (transcript st) (TranscribedPiece.position p + 1))
  \/
  (exists x, pieces st !! k = Some x /\
             y = bumped (transcript st) (TranscribedPiece.position p) x).
Proof.
  unfold pieces_after_split. intros H.
  apply lookup_insert_Some in H as [[<- <-] | [Hne H]]; [by left |].
  right. rewrite lookup_fmap in H.
  destruct (pieces st !! k) as [x |]; simpl in H; [| done].
  exists x. split; congruence.
Qed.

Lemma positions_distinct_after_split (st : State) (p : TranscribedPiece.t) :
  positions_distinct st (transcript st) ->
  positions_distinct (set_pieces (pieces_after_split st p) st) (transcript st).
Proof.
  intros Hd k1 k2 y1 y2 H1 H2 Ht1 Ht2 Hpos. simpl in H1, H2.
  apply pieces_after_split_inv in H1 as [[-> ->] | (x1 & Hx1 & ->)];
  apply pieces_after_split_inv in H2 as [[-> ->] | (x2 & Hx2 & ->)];
    [ done | | | ].
  - rewrite bumped_transcribed in Ht2.
    destruct (bumped_position _ (TranscribedPiece.position p) _ Ht2)
      as [[? E] | [? E]]; rewrite E in Hpos; simpl in Hpos; lia.
  - rewrite bumped_transcribed in Ht1.
    destruct (bumped_position _ (TranscribedPiece.position p) _ Ht1)
      as [[? E] | [? E]]; rewrite E in Hpos; simpl in Hpos; lia.
  - rewrite bumped_transcribed in Ht1, Ht2.
    apply (Hd k1 k2 x1 x2 Hx1 Hx2 Ht1 Ht2).
    destruct (bumped_position _ (TranscribedPiece.position p) _ Ht1)
      as [[? E1] | [? E1]];
    destruct (bumped_position _ (TranscribedPiece.position p) _ Ht2)
      as [[? E2] | [? E2]]; rewrite E1, E2 in Hpos; lia.
Qed.

Lemma dense_after_split (st : State) (p : TranscribedPiece.t) (piece : nat)
    (n : Z) :
  pieces st !! piece = Some p ->
  TranscribedPiece.transcribed p = transcript st ->
  dense st (transcript st) n ->
  dense (set_pieces (pieces_after_split st p) st) (transcript st) (n + 1).
Proof.
  intros Hp Htp [Hd Hrange].
  assert (Hpp : 0 <= TranscribedPiece.position p < n).
  { apply Hrange. by exists piece, p. }
  split; [by apply positions_distinct_after_split |].
  intros z. split.
  - intros (k & y & Hk & Ht & Hz). simpl in Hk.
    apply pieces_after_split_inv in Hk as [[-> ->] | (x & Hx & ->)].
    + simpl in Hz. lia.
    + rewrite bumped_transcribed in Ht.
      assert (0 <= TranscribedPiece.position x < n).
      { apply Hrange. by exists k, x. }
      destruct (bumped_position _ (TranscribedPiece.position p) _ Ht)
        as [[? E] | [? E]]; rewrite E in Hz; lia.
  - intros Hz.
    destruct (Z_lt_le_dec (TranscribedPiece.position p) z) as [Hgt | Hle].
    + destruct (Z.eq_dec z (TranscribedPiece.position p + 1)) as [-> | Hne].
      * exists (fresh (dom (pieces st))), 
          (TranscribedPiece.mk (transcript st)
             (TranscribedPiece.position p + 1)).
        split; [| done]. simpl. unfold pieces_after_split.
        by rewrite lookup_insert_eq.
      * destruct (proj2 (Hrange (z - 1))) as (k & x & Hk & Ht & Hx); [lia |].
        exists k, (bumped (transcript st) (TranscribedPiece.position p) x).
        split; [simpl; by apply pieces_after_split_old |].
        rewrite bumped_transcribed. split; [done |].
        destruct (bumped_position _ (TranscribedPiece.position p) _ Ht)
          as [[? E] | [? E]]; rewrite E; lia.
    + destruct (proj2 (Hrange z)) as (k & x & Hk & Ht & Hx); [lia |].
      exists k, (bumped (transcript st) (TranscribedPiece.position p) x).
      split; [simpl; by apply pieces_after_split_old |].
      rewrite bumped_transcribed. split; [done |].
      destruct (bumped_position _ (TranscribedPiece.position p) _ Ht)
        as [[? E] | [? E]]; rewrite E; lia.
Qed.

(** C5.  [mk_new_piece(piece)] returns a new piece of the transcript at
    [piece.position + 1]; every old piece of the transcript whose position
    was greater than [piece.position] has its position incremented by
    exactly one, and every other old piece is as it was; if no two pieces
    of the transcript held the same position before, none do after; and if
    [piece] is a piece of the transcript and the positions were exactly
    [0 .. N-1], each held once, they are exactly [0 .. N] after. *)
Theorem C5_mk_new_piece (st : State) (piece : nat) (p : TranscribedPiece.t) :
  pieces st !! piece = Some p ->
  exists (new_piece : nat) (st' : State),
    mk_new_piece piece st = (Ok new_piece, st') /\
    pieces st !! new_piece = None /\
    pieces st' !! new_piece
    = Some (TranscribedPiece.mk (transcript st)
              (TranscribedPiece.position p + 1)) /\
    (forall k x, pieces st !! k = Some x ->
       pieces st' !! k =
       Some (if decide (TranscribedPiece.transcribed x = transcript st)
             then if TranscribedPiece.position x >? TranscribedPiece.position p
                  then TranscribedPiece.set_position
                         (TranscribedPiece.position x + 1) x
                  else x
             else x)) /\
    (forall k, k <> new_piece -> pieces st !! k = None ->
               pieces st' !! k = None) /\
    transcript st' = transcript st /\
    (positions_distinct st (transcript st) ->
     positions_distinct st' (transcript st)) /\
    (forall n, TranscribedPiece.transcribed p = transcript st ->
               dense st (transcript st) n ->
               dense st' (transcript st) (n + 1)).
Proof.
  intros Hp. eexists _, _. split; [by apply mk_new_piece_spec |].
  fold (pieces_after_split st p).
  split; [apply fresh_piece_is_new |].
  split; [simpl; unfold pieces_after_split; by rewrite lookup_insert_eq |].
  split; [intros k x Hk; simpl; by rewrite (pieces_after_split_old _ _ x) |].
  split.
  { intros k Hne Hk. simpl. unfold pieces_after_split.
    rewrite lookup_insert_ne by done. by rewrite lookup_fmap, Hk. }
  split; [done |].
  split.
  - intros Hd. by apply (positions_distinct_after_split st p).
  - intros n Ht Hdense. by apply (dense_after_split st p piece n).
Qed.

(** C5, witness: three pieces at 0, 1, 2; the split is after the first,
    and the piece of the other transcript stays where it is. *)
Lemma C5_mk_new_piece_witness :
  exists (new_piece : nat) (st' : State),
    mk_new_piece 10 three_pieces = (Ok new_piece, st') /\
    pieces st' !! new_piece = Some (TranscribedPiece.mk 7 1) /\
    pieces st' !! 11%nat = Some (TranscribedPiece.mk 7 2) /\
    pieces st' !! 12%nat = Some (TranscribedPiece.mk 7 3) /\
    pieces st' !! 20%nat = Some (TranscribedPiece.mk 8 5).
Proof.
  destruct (C5_mk_new_piece three_pieces 10 (TranscribedPiece.mk 7 0) eq_refl)
    as (new_piece & st' & Hrun & _ & Hnew & Hold & _).
  exists new_piece, st'.
  split; [exact Hrun |]. split; [exact Hnew |].
  split; [exact (Hold 11%nat (TranscribedPiece.mk 7 1) eq_refl) |].
  split; [exact (Hold 12%nat (TranscribedPiece.mk 7 2) eq_refl) |].
  exact (Hold 20%nat (TranscribedPiece.mk 8 5) eq_refl).
Defined.

(** ** The flush of the queue *)

Lemma set_transcribed_pieces_id (t : Feature.t) :
  Feature.set_transcribed_pieces (Feature.transcribed_pieces t) t = t.
Proof. by destruct t. Qed.

Lemma set_coordinate_id (t : Feature.t) :
  Feature.set_coordinate (Feature.coordinate t) t = t.
Proof. by destruct t. Qed.

Lemma foldl_apply_piece_swap_lookup (l : list PieceSwap) :
  forall (fs : gmap nat Feature.t) (k : nat),
    foldl apply_piece_swap fs l !! k
    = (fun t => Feature.set_transcribed_pieces
                  (pieces_after l k (Feature.transcribed_pieces t)) t)
      <$> fs !! k.
Proof.
  induction l as [| r l IH]; intros fs k; simpl.
  - destruct (fs !! k) as [t |]; simpl; [| done].
    by rewrite set_transcribed_pieces_id.
  - rewrite IH. unfold apply_piece_swap at 1, pieces_after. simpl.
    destruct (decide (ps_feat_id r = k)) as [-> | Hne].
    + rewrite lookup_alter_eq. by destruct (fs !! k).
    + by rewrite lookup_alter_ne.
Qed.

Lemma foldl_apply_coord_swap_lookup (coords : gmap nat Coordinates.t)
    (l : list CoordSwap) :
  forall (fs : gmap nat Feature.t) (k : nat),
    foldl (apply_coord_swap coords) fs l !! k
    = (fun t => Feature.set_coordinate
                  (coordinate_after coords l k (Feature.coordinate t)) t)
      <$> fs !! k.
Proof.
  induction l as [| r l IH]; intros fs k; simpl.
  - destruct (fs !! k) as [t |]; simpl; [| done].
    by rewrite set_coordinate_id.
  - rewrite IH. unfold apply_coord_swap at 1, coordinate_after. simpl.
    destruct (coords !! coordinate_id_new r) as [c |]; simpl.
    + destruct (decide (cs_feat_id r = k)) as [-> | Hne].
      * rewrite lookup_alter_eq. by destruct (fs !! k).
      * by rewrite lookup_alter_ne.
    + by case_decide.
Qed.

Lemma execute_so_far_spec (st : State) :
  exists fs,
    execute_so_far st
    = (Ok tt, set_core_queue (mkCoreQueue [] []) (set_features fs st)) /\
    forall k, fs !! k = flushed st k <$> features st !! k.
Proof.
  eexists. split; [reflexivity |].
  intros k. rewrite foldl_apply_coord_swap_lookup,
    foldl_apply_piece_swap_lookup.
  by destruct (features st !! k).
Qed.

(** ** The border split *)

Lemma same_but_features_refl (st : State) : same_but_features st st.
Proof. by repeat split. Qed.

Lemma same_but_features_trans (st1 st2 st3 : State) :
  same_but_features st1 st2 -> same_but_features st2 st3 ->
  same_but_features st1 st3.
Proof.
  intros (? & ? & ? & ? & ? & ?) (? & ? & ? & ? & ? & ?).
  repeat split; congruence.
Qed.

Lemma swap_list_item_Some (l : list nat) (new old : nat) :
  old ∈ l -> exists l', swap_list_item l new old = Some l'.
Proof.
  induction l as [| x l IH]; intros Hin; [by apply elem_of_nil in Hin |].
  simpl. case_decide; [eauto |].
  destruct IH as [l' ->]; [| simpl; eauto].
  apply elem_of_cons in Hin as [-> | Hin]; done.
Qed.

(** The swap puts the new piece where the old one first stood. *)
Lemma swap_list_item_spec (l l' : list nat) (new old : nat) :
  swap_list_item l new old = Some l' ->
  exists l1 l2, l = l1 ++ old :: l2 /\ l' = l1 ++ new :: l2 /\ old ∉ l1.
Proof.
  revert l'. induction l as [| x l IH]; intros l'; simpl; [done |].
  case_decide as Hx.
  - intros [= <-]. subst x. exists [], l.
    split; [done |]. split; [done |]. apply not_elem_of_nil.
  - destruct (swap_list_item l new old) as [l'' |]; simpl; [| done].
    intros [= <-]. destruct (IH l'' eq_refl) as (l1 & l2 & -> & -> & Hni).
    exists (x :: l1), l2. split; [done |]. split; [done |].
    intros [-> | ?]%elem_of_cons; done.
Qed.

Lemma fresh_feature_is_new (st : State) :
  features st !! fresh (dom (features st)) = None.
Proof. apply not_elem_of_dom. apply is_fresh. Qed.

Lemma new_handled_data_spec (st : State) (template : nat) (t : Feature.t)
    (kwargs : Feature.t -> Feature.t) :
  features st !! template = Some t ->
  new_handled_data template kwargs st
  = (Ok (fresh (dom (features st))),
     set_features (<[fresh (dom (features st)) := kwargs t]> (features st))
       (set_handler_holder
          (handler_holder st ++ [fresh (dom (features st))]) st)).
Proof.
  intros Ht. unfold new_handled_data.
  rewrite (bind_ok _ _ _ _ _ (get_feature_ok _ _ _ Ht)).
  reflexivity.
Qed.

Lemma load_to_intervaltree_spec (st : State) (self : nat) (data : Feature.t) :
  features st !! self = Some data ->
  fst (py_interval data) < snd (py_interval data) ->
  load_to_intervaltree self st
  = (Ok tt,
     set_trees
       (<[Coordinates.seqid (Feature.coordinate data) :=
            {[ (fst (py_interval data), snd (py_interval data), self) ]}
            ∪ default ∅ (trees st
                           !! Coordinates.seqid (Feature.coordinate data))]>
          (trees st)) st).
Proof.
  intros Hd Hlt. unfold load_to_intervaltree.
  rewrite (bind_ok _ _ _ _ _ (get_feature_ok _ _ _ Hd)).
  rewrite (bind_ok get _ st st st) by done.
  unfold py_interval in *.
  destruct (Feature.is_plus_strand data); simpl in *;
    apply Z.ltb_lt in Hlt; by rewrite Hlt.
Qed.

(** An empty or negative interval is refused by the tree. *)
Lemma load_to_intervaltree_null (st : State) (self : nat) (data : Feature.t) :
  features st !! self = Some data ->
  snd (py_interval data) <= fst (py_interval data) ->
  fst (load_to_intervaltree self st) = Raise ValueError.
Proof.
  intros Hd Hge. unfold load_to_intervaltree.
  rewrite (bind_ok _ _ _ _ _ (get_feature_ok _ _ _ Hd)).
  rewrite (bind_ok get _ st st st) by done.
  unfold py_interval in *.
  destruct (Feature.is_plus_strand data); simpl in *;
    apply Z.ltb_ge in Hge; by rewrite Hge.
Qed.

(** One call of [set_status_downstream_border]. *)
Lemma set_status_downstream_border_spec (st : State)
    (new_coords old_coords : Coordinates.t) (is_plus : bool)
    (template_feature new_piece old_piece : nat) (t : Feature.t) :
  features st !! template_feature = Some t ->
  old_piece ∈ Feature.transcribed_pieces t ->
  (forall ps, fst (py_interval
                     (downstream_kwargs (down_at new_coords is_plus)
                        old_coords ps t))
              < snd (py_interval
                       (downstream_kwargs (down_at new_coords is_plus)
                          old_coords ps t))) ->
  exists (st' : State) (downstream_pieces : list nat),
    set_status_downstream_border new_coords old_coords is_plus
      template_feature new_piece old_piece st = (Ok tt, st') /\
    swap_list_item (Feature.transcribed_pieces t) new_piece old_piece
    = Some downstream_pieces /\
    features st' !! template_feature
    = Some (truncated (down_at new_coords is_plus) new_coords t) /\
    features st' !! fresh (dom (features st))
    = Some (downstream_kwargs (down_at new_coords is_plus) old_coords
              downstream_pieces t) /\
    (forall j, j <> template_feature -> j <> fresh (dom (features st)) ->
               features st' !! j = features st !! j) /\
    same_but_features st st'.
Proof.
  intros Ht Hin Hnn.
  destruct (swap_list_item_Some _ new_piece _ Hin) as [ps' Hps'].
  assert (Hne : fresh (dom (features st)) <> template_feature).
  { intros E. pose proof (fresh_feature_is_new st) as Hf.
    rewrite E in Hf. congruence. }
  unfold set_status_downstream_border.
  rewrite (bind_ok _ _ _ _ _ (get_feature_ok _ _ _ Ht)).
  unfold assert. rewrite bool_decide_eq_true_2 by done.
  rewrite (bind_ok (mret tt) _ st st tt) by done.
  rewrite Hps'.
  rewrite (bind_ok _ _ _ _ _ (new_handled_data_spec _ _ _ _ Ht)).
  erewrite bind_ok; cycle 1.
  { apply load_to_intervaltree_spec; [simpl; apply lookup_insert_eq |].
    apply Hnn. }
  eexists _, ps'. split; [reflexivity |]. simpl.
  split; [done |].
  split.
  { rewrite lookup_alter_eq, lookup_insert_ne by done. by rewrite Ht. }
  split.
  { rewrite lookup_alter_ne by done. by rewrite lookup_insert_eq. }
  split.
  { intros j Hj1 Hj2. rewrite lookup_alter_ne by done.
    by rewrite lookup_insert_ne. }
  by repeat split.
Qed.

Lemma downstream_nonempty_interval (d : Z) (oc : Coordinates.t)
    (ps : list nat) (t : Feature.t) :
  downstream_nonempty d t ->
  fst (py_interval (downstream_kwargs d oc ps t))
  < snd (py_interval (downstream_kwargs d oc ps t)).
Proof.
  unfold downstream_nonempty, py_interval. simpl.
  destruct (Feature.is_plus_strand t); simpl; lia.
Qed.

Lemma Forall2_with_elem_of {A B : Type} (P : A -> B -> Prop)
    (l : list A) (k : list B) :
  Forall2 P l k -> Forall2 (fun x y => x ∈ l /\ y ∈ k /\ P x y) l k.
Proof.
  induction 1 as [| x y l k HP HF IH]; constructor.
  - split; [apply list_elem_of_here |].
    split; [apply list_elem_of_here | done].
  - eapply Forall2_impl; [apply IH |].
    intros a b (Ha & Hb & Hab).
    split; [by apply list_elem_of_further |].
    split; [by apply list_elem_of_further | done].
Qed.

(** The loop of the border branch over the aligned features. *)
Lemma border_loop (new_coords old_coords : Coordinates.t) (is_plus : bool)
    (new_piece old_piece : nat) (aligned : list nat) :
  forall st : State,
    NoDup aligned ->
    (forall f, f ∈ aligned ->
       exists t, features st !! f = Some t /\
                 old_piece ∈ Feature.transcribed_pieces t /\
                 downstream_nonempty (down_at new_coords is_plus) t) ->
    exists (st' : State) (news : list nat),
      for_each aligned (fun feature =>
        set_status_downstream_border new_coords old_coords is_plus
          feature new_piece old_piece) st = (Ok tt, st') /\
      same_but_features st st' /\
      NoDup news /\
      (forall k, k ∈ news -> features st !! k = None) /\
      dom (features st') = dom (features st) ∪ list_to_set news /\
      (forall j, j ∉ aligned -> j ∉ news ->
                 features st' !! j = features st !! j) /\
      Forall2 (fun f k =>
                 exists t, features st !! f = Some t /\
                           split_pair st' (down_at new_coords is_plus)
                             new_coords old_coords new_piece old_piece t f k)
              aligned news.
Proof.
  induction aligned as [| x l IH]; intros st Hnd Hall.
  - exists st, []. simpl. split; [done |].
    split; [apply same_but_features_refl |].
    split; [constructor |]. split; [by intros k ?%elem_of_nil |].
    split; [set_solver |]. split; [done | constructor].
  - apply NoDup_cons in Hnd as [Hx Hnd].
    destruct (Hall x) as (t & Ht & Hop & Hnn); [apply list_elem_of_here |].
    destruct (set_status_downstream_border_spec st new_coords old_coords
                is_plus x new_piece old_piece t Ht Hop)
      as (st1 & ps' & Hrun & Hps' & Hx1 & Hk1 & Hother & Hsame1).
    { intros ps. by apply downstream_nonempty_interval. }
    set (k := fresh (dom (features st))) in *.
    assert (Hknew : features st !! k = None) by apply fresh_feature_is_new.
    assert (Hkx : k <> x) by (intros E; rewrite E in Hknew; congruence).
    assert (Hkl : k ∉ l).
    { intros Hin. destruct (Hall k) as (t' & Ht' & _);
        [by apply list_elem_of_further | congruence]. }
    destruct (IH st1 Hnd) as (st' & news & Hrun' & Hsame' & Hndn & Hnew
                               & Hdom & Hframe & Hpairs).
    { intros f Hf. destruct (Hall f) as (t' & Ht' & Hop' & Hnn');
        [by apply list_elem_of_further |].
      exists t'. split; [| done].
      rewrite Hother; [done | by intros -> | intros E; congruence]. }
    assert (Hknews : k ∉ news).
    { intros Hin. apply Hnew in Hin. congruence. }
    assert (Hxnews : x ∉ news).
    { intros Hin. apply Hnew in Hin. congruence. }
    exists st', (k :: news). simpl.
    split; [by rewrite (bind_ok _ _ _ _ _ Hrun) |].
    split; [by eapply same_but_features_trans |].
    split; [by apply NoDup_cons |].
    split.
    { intros j [-> | Hj]%elem_of_cons; [done |].
      specialize (Hnew j Hj).
      destruct (decide (j = x)) as [-> | Hjx]; [congruence |].
      destruct (decide (j = k)) as [-> | Hjk]; [done |].
      by rewrite <- (Hother j). }
    split.
    { rewrite Hdom.
      assert (Hdom1 : dom (features st1) = dom (features st) ∪ {[ k ]}).
      { apply set_eq. intros j. rewrite elem_of_union, elem_of_singleton,
          !elem_of_dom.
        destruct (decide (j = x)) as [-> | Hjx].
        - rewrite Hx1, Ht. split; [left; eauto | eauto].
        - destruct (decide (j = k)) as [-> | Hjk].
          + rewrite Hk1. split; [by right | eauto].
          + rewrite Hother by done. split; [by left |].
            intros [? | ?]; done. }
      rewrite Hdom1. set_solver. }
    split.
    { intros j Hjl Hjn.
      apply not_elem_of_cons in Hjl as [Hjx Hjl].
      apply not_elem_of_cons in Hjn as [Hjk Hjn].
      rewrite Hframe by done. by apply Hother. }
    constructor.
    + exists t. split; [done |]. exists ps'. split; [done |].
      rewrite !Hframe by done. done.
    + apply Forall2_with_elem_of in Hpairs.
      eapply Forall2_impl; [apply Hpairs |].
      intros f k' (Hfl & Hk'n & t' & Ht' & Hpair). exists t'. split; [| done].
      rewrite <- Ht'. symmetry. apply Hother.
      * by intros ->.
      * intros ->. done.
Qed.

Lemma downstream_piece_spec (st : State) (piece : nat) :
  (_downstream_piece st = None -> is_Some (pieces st !! piece)) ->
  exists (new_piece : nat) (st1 : State),
    downstream_piece piece st = (Ok new_piece, st1) /\
    _downstream_piece st1 = Some new_piece /\
    features st1 = features st /\
    coordinates st1 = coordinates st /\
    core_queue st1 = core_queue st /\
    trees st1 = trees st /\
    handler_holder st1 = handler_holder st /\
    transcript st1 = transcript st /\
    (forall np, _downstream_piece st = Some np -> new_piece = np /\ st1 = st) /\
    (_downstream_piece st = None ->
     new_piece = fresh (dom (pieces st)) /\
     exists p, pieces st !! piece = Some p /\
               pieces st1 = pieces_after_split st p).
Proof.
  intros Hpiece. unfold downstream_piece.
  rewrite (bind_ok get _ st st st) by done.
  destruct (_downstream_piece st) as [np |] eqn:Hmemo.
  - exists np, st. split_and!; try done.
    by intros ? [= <-].
  - destruct Hpiece as [p Hp]; [done |].
    rewrite (bind_ok _ _ _ _ _ (mk_new_piece_spec _ _ _ Hp)).
    eexists _, _. split; [reflexivity |]. simpl.
    split_and!; try done.
    intros _. split; [done |]. by exists p.
Qed.

Lemma pieces_after_not_named (l : list PieceSwap) (k : nat) (ps : list nat) :
  (forall r, r ∈ l -> ps_feat_id r <> k) -> pieces_after l k ps = ps.
Proof.
  revert ps. induction l as [| r l IH]; intros ps Hall; [done |].
  unfold pieces_after in *. simpl.
  rewrite decide_False by (apply Hall; apply list_elem_of_here).
  apply IH. intros r' Hr'. apply Hall. by apply list_elem_of_further.
Qed.

Lemma truncated_flushed (st : State) (k : nat) (d : Z) (nc : Coordinates.t)
    (t : Feature.t) :
  (forall r, r ∈ piece_swaps (core_queue st) -> ps_feat_id r <> k) ->
  truncated d nc (flushed st k t) = truncated d nc t.
Proof.
  intros Hall. unfold truncated, flushed. simpl.
  by rewrite pieces_after_not_named.
Qed.

Lemma downstream_kwargs_flushed (st : State) (k : nat) (d : Z)
    (oc : Coordinates.t) (ps : list nat) (t : Feature.t) :
  downstream_kwargs d oc ps (flushed st k t) = downstream_kwargs d oc ps t.
Proof. done. Qed.

(** The turn of the loop of [modify4new_slice] at a group that overlaps
    the downstream border. *)
Lemma visit_border (st : State) (new_coords : Coordinates.t) (is_plus : bool)
    (seen : bool) (border : option nat) (f0_ref : nat) (rest : list nat)
    (piece : nat) (f0 : Feature.t) :
  features st !! f0_ref = Some f0 ->
  classify (FeatureVsCoords_init f0 new_coords is_plus)
  = Some overlaps_downstream_of ->
  NoDup (f0_ref :: rest) ->
  (forall f, f ∈ f0_ref :: rest ->
     exists t, features st !! f = Some t /\
               piece ∈ Feature.transcribed_pieces t /\
               downstream_nonempty (down_at new_coords is_plus) t) ->
  (forall r, r ∈ piece_swaps (core_queue st) ->
             ps_feat_id r ∉ f0_ref :: rest) ->
  (_downstream_piece st = None -> is_Some (pieces st !! piece)) ->
  exists (st' : State) (new_piece : nat) (news : list nat),
    visit new_coords is_plus (seen, border) (f0_ref :: rest, piece) st
    = (Ok (true, Some piece), st') /\
    _downstream_piece st' = Some new_piece /\
    (forall np, _downstream_piece st = Some np ->
                new_piece = np /\ pieces st' = pieces st) /\
    (_downstream_piece st = None ->
     new_piece = fresh (dom (pieces st)) /\
     exists p, pieces st !! piece = Some p /\
               pieces st' = pieces_after_split st p) /\
    core_queue st' = mkCoreQueue [] [] /\
    coordinates st' = coordinates st /\
    transcript st' = transcript st /\
    NoDup news /\
    (forall k, k ∈ news -> features st !! k = None) /\
    dom (features st') = dom (features st) ∪ list_to_set news /\
    (forall j, j ∉ f0_ref :: rest -> j ∉ news ->
               features st' !! j = flushed st j <$> features st !! j) /\
    Forall2 (fun f k =>
               exists t, features st !! f = Some t /\
                         split_pair st' (down_at new_coords is_plus)
                           new_coords (Feature.coordinate f0)
                           new_piece piece t f k)
            (f0_ref :: rest) news.
Proof.
  intros Hf0 Hclass Hnd Hall Hswaps Hpiece.
  destruct (downstream_piece_spec st piece Hpiece)
    as (np & st1 & Hdp & Hmemo1 & Hfs1 & Hco1 & Hq1 & Htr1 & Hhh1 & Htx1
        & Hsome & Hnone).
  destruct (execute_so_far_spec st1) as (fs & Hflush & Hfs).
  set (st2 := set_core_queue (mkCoreQueue [] []) (set_features fs st1)) in *.
  assert (Hflushed : forall k t, flushed st1 k t = flushed st k t).
  { intros k t. unfold flushed. by rewrite Hco1, Hq1. }
  assert (Hfs2 : forall k, features st2 !! k = flushed st k <$> features st !! k).
  { intros k. simpl. rewrite Hfs, Hfs1.
    destruct (features st !! k); simpl; [by rewrite Hflushed | done]. }
  destruct (border_loop new_coords (Feature.coordinate f0) is_plus np piece
              (f0_ref :: rest) st2 Hnd)
    as (st' & news & Hloop & Hsame & Hndn & Hnew & Hdom & Hframe & Hpairs).
  { intros f Hf. destruct (Hall f Hf) as (t & Ht & Hop & Hnn).
    exists (flushed st f t). split; [by rewrite Hfs2, Ht |].
    split; [| done].
    unfold flushed. simpl. rewrite pieces_after_not_named; [done |].
    intros r Hr E. apply (Hswaps r Hr). by rewrite E. }
  destruct Hsame as (Hp' & Hco' & Hq' & Htx' & Hh' & Hm').
  assert (Hdom2 : dom (features st2) = dom (features st)).
  { apply set_eq. intros j. rewrite !elem_of_dom, Hfs2.
    by rewrite fmap_is_Some. }
  exists st', np, news.
  split.
  { unfold visit. rewrite (bind_ok _ _ _ _ _ (get_feature_ok _ _ _ Hf0)).
    rewrite Hclass. rewrite (bind_ok _ _ _ _ _ Hdp).
    rewrite (bind_ok _ _ _ _ _ Hflush). fold st2.
    by rewrite (bind_ok _ _ _ _ _ Hloop). }
  split; [by rewrite Hm' |].
  split.
  { intros np0 Hnp0. destruct (Hsome np0 Hnp0) as [-> ->].
    split; [done |]. by rewrite Hp'. }
  split.
  { intros Hn. destruct (Hnone Hn) as (-> & p & Hp & Hps).
    split; [done |]. exists p. split; [done |]. by rewrite Hp'. }
  split; [by rewrite Hq' |].
  split; [by rewrite Hco' |].
  split; [by rewrite Htx' |].
  split; [done |].
  split.
  { intros k Hk. specialize (Hnew k Hk). rewrite Hfs2 in Hnew.
    by destruct (features st !! k). }
  split; [by rewrite Hdom, Hdom2 |].
  split.
  { intros j Hj1 Hj2. by rewrite Hframe, Hfs2. }
  apply Forall2_with_elem_of in Hpairs.
  eapply Forall2_impl; [apply Hpairs |].
  intros f k (Hfin & Hkin & t' & Ht' & ps' & Hps' & Hx & Hk).
  rewrite Hfs2 in Ht'.
  destruct (features st !! f) as [t |] eqn:Ht; simpl in Ht'; [| done].
  injection Ht' as <-.
  assert (Hnot : forall r, r ∈ piece_swaps (core_queue st) -> ps_feat_id r <> f).
  { intros r Hr E. apply (Hswaps r Hr). by rewrite E. }
  exists t. split; [done |]. exists ps'.
  split.
  { revert Hps'. unfold flushed. simpl.
    by rewrite pieces_after_not_named. }
  split; [by rewrite <- (truncated_flushed st f) |].
  by rewrite <- (downstream_kwargs_flushed st f).
Qed.

(** ** Splitting at the downstream border *)

Lemma is_detached_false (f0 : Feature.t) (new_coords : Coordinates.t)
    (is_plus : bool) :
  is_detached (FeatureVsCoords_init f0 new_coords is_plus) = false ->
  Coordinates.seqid new_coords = Coordinates.seqid (Feature.coordinate f0) /\
  Feature.is_plus_strand f0 = is_plus.
Proof.
  unfold is_detached. simpl.
  destruct (Coordinates.seqid new_coords
            =? Coordinates.seqid (Feature.coordinate f0)) eqn:E;
    simpl; [| done].
  apply Z.eqb_eq in E.
  destruct is_plus, (Feature.is_plus_strand f0); simpl; done.
Qed.

(** The cut falls strictly inside a feature that overlaps the downstream
    border. *)
Lemma overlaps_downstream_cut (f0 : Feature.t) (new_coords : Coordinates.t)
    (is_plus : bool) :
  classify (FeatureVsCoords_init f0 new_coords is_plus)
  = Some overlaps_downstream_of ->
  Feature.is_plus_strand f0 = is_plus /\
  if is_plus
  then Feature.start f0 < down_at new_coords is_plus < Feature.end_ f0
  else Feature.end_ f0 < down_at new_coords is_plus < Feature.start f0.
Proof.
  intros Hclass.
  destruct (classify_first_match _ _ Hclass) as [Hholds Hbefore].
  pose proof (Hbefore detached ltac:(simpl; lia)) as Hdet. simpl in Hdet.
  apply is_detached_false in Hdet as [_ Hstrand].
  split; [done |].
  simpl in Hholds. unfold overlaps_downstream, _overlaps_higher,
    _overlaps_lower, down_at in *. simpl in *.
  destruct is_plus; bool_arith; lia.
Qed.

(** C1, as the code has it.  At a group that [modify4new_slice]
    classifies as overlapping the downstream border, whose features are
    distinct, aligned with the first, on the group's piece, and named by no
    piece reassignment that waits in the queue, the cut point is
    [new_coords.end] on the plus strand and [new_coords.start - 1] on the
    minus strand; the turn of the loop succeeds, and creates exactly one
    new feature for each feature of the group.  The new feature starts at
    the cut point, ends where the template ended, has the coordinates the
    template had, and has the template's pieces with the new downstream
    piece in the place of the old piece (the memoized downstream piece,
    made now at the old piece's position + 1 if there was none); the
    template now ends at the cut point, under the slice's coordinates, and
    is otherwise where it was.  The base pairs of the template before the
    split are those of the truncated template and of the new feature
    together, and these two share none. *)
Theorem C1_downstream_border_split (st : State) (new_coords : Coordinates.t)
    (is_plus : bool) (seen : bool) (border : option nat) (f0_ref : nat)
    (rest : list nat) (piece : nat) (f0 : Feature.t) :
  features st !! f0_ref = Some f0 ->
  classify (FeatureVsCoords_init f0 new_coords is_plus)
  = Some overlaps_downstream_of ->
  NoDup (f0_ref :: rest) ->
  (forall f, f ∈ f0_ref :: rest ->
     exists t, features st !! f = Some t /\ aligned_with f0 t /\
               piece ∈ Feature.transcribed_pieces t) ->
  (forall r, r ∈ piece_swaps (core_queue st) ->
             ps_feat_id r ∉ f0_ref :: rest) ->
  (_downstream_piece st = None -> is_Some (pieces st !! piece)) ->
  down_at new_coords true = Coordinates.end_ new_coords /\
  down_at new_coords false = Coordinates.start new_coords - 1 /\
  exists (st' : State) (new_piece : nat) (news : list nat),
    visit new_coords is_plus (seen, border) (f0_ref :: rest, piece) st
    = (Ok (true, Some piece), st') /\
    _downstream_piece st' = Some new_piece /\
    (forall np, _downstream_piece st = Some np -> new_piece = np) /\
    (_downstream_piece st = None ->
     pieces st !! new_piece = None /\
     exists p, pieces st !! piece = Some p /\
               pieces st' !! new_piece
               = Some (TranscribedPiece.mk (transcript st)
                         (TranscribedPiece.position p + 1))) /\
    NoDup news /\
    (forall k, k ∈ news -> features st !! k = None) /\
    dom (features st') = dom (features st) ∪ list_to_set news /\
    Forall2
      (fun f k =>
         exists t original new,
           features st !! f = Some t /\
           features st' !! f = Some original /\
           features st' !! k = Some new /\
           Feature.start new = down_at new_coords is_plus /\
           Feature.end_ new = Feature.end_ t /\
           Feature.coordinate new = Feature.coordinate t /\
           (exists l1 l2,
              Feature.transcribed_pieces t = l1 ++ piece :: l2 /\
              Feature.transcribed_pieces new = l1 ++ new_piece :: l2 /\
              piece ∉ l1) /\
           Feature.start original = Feature.start t /\
           Feature.end_ original = down_at new_coords is_plus /\
           Feature.coordinate original = new_coords /\
           Feature.transcribed_pieces original = Feature.transcribed_pieces t /\
           (forall z, covers t z <-> covers original z \/ covers new z) /\
           (forall z, ~ (covers original z /\ covers new z)))
      (f0_ref :: rest) news.
Proof.
  intros Hf0 Hclass Hnd Hall Hswaps Hpiece.
  split; [done |]. split; [done |].
  destruct (overlaps_downstream_cut _ _ _ Hclass) as [Hstrand Hcut].
  destruct (visit_border st new_coords is_plus seen border f0_ref rest piece
              f0 Hf0 Hclass Hnd)
    as (st' & np & news & Hrun & Hmemo & Hsome & Hnone & _ & _ & _ & Hndn
        & Hnew & Hdom & _ & Hpairs); [| done | done |].
  { intros f Hf. destruct (Hall f Hf) as (t & Ht & (Hs & He & Hp & Hc) & Hop).
    exists t. split; [done |]. split; [done |].
    unfold downstream_nonempty. rewrite Hp, Hstrand, He.
    destruct is_plus; lia. }
  exists st', np, news. split_and!; try done.
  { intros np0 Hnp0. by destruct (Hsome np0 Hnp0). }
  { intros Hn. destruct (Hnone Hn) as (-> & p & Hp & Hps).
    split; [apply fresh_piece_is_new |]. exists p. split; [done |].
    rewrite Hps. unfold pieces_after_split. by rewrite lookup_insert_eq. }
  apply Forall2_with_elem_of in Hpairs.
  eapply Forall2_impl; [apply Hpairs |].
  intros f k (Hfin & _ & t & Ht & ps' & Hps' & Horig & Hnewf).
  destruct (Hall f Hfin) as (t' & Ht' & (Hs & He & Hp & Hc) & Hop).
  assert (t' = t) as -> by congruence.
  eexists t, _, _. split; [done |]. split; [exact Horig |].
  split; [exact Hnewf |]. simpl.
  split_and!; try done.
  - destruct (swap_list_item_spec _ _ _ _ Hps') as (l1 & l2 & H1 & H2 & H3).
    by exists l1, l2.
  - intros z. unfold covers, py_interval. simpl.
    rewrite Hp, Hstrand, Hs, He. clear -Hcut.
    destruct is_plus; unfold down_at in *; simpl in *; lia.
  - intros z. unfold covers, py_interval. simpl.
    rewrite Hp, Hstrand. clear.
    destruct is_plus; unfold down_at; simpl; lia.
Qed.

(** C1, witness: the second feature of the scenario, [200,500), against
    the slice [0,400). *)
Lemma C1_downstream_border_split_witness :
  exists (st' : State) (new_piece : nat) (news : list nat),
    visit slice_0_400 true (true, None) ([2%nat], 10%nat) scenario
    = (Ok (true, Some 10%nat), st') /\
    _downstream_piece st' = Some new_piece /\
    NoDup news /\
    dom (features st') = dom (features scenario) ∪ list_to_set news.
Proof.
  destruct (C1_downstream_border_split scenario slice_0_400 true true None
              2 [] 10 (plus_feature 200 500 [10%nat]))
    as (_ & _ & st' & np & news & Hrun & Hmemo & _ & _ & Hnd & _ & Hdom & _).
  - reflexivity.
  - reflexivity.
  - apply NoDup_singleton.
  - intros f Hf. apply list_elem_of_singleton in Hf as ->.
    exists (plus_feature 200 500 [10%nat]).
    split; [reflexivity |]. split; [done |]. apply list_elem_of_here.
  - intros r Hr. by apply elem_of_nil in Hr.
  - intros _. by exists (TranscribedPiece.mk 7 0).
  - by exists st', np, news.
Defined.

(** C1, counterexample: the state in which [modify4new_slice] returns for
    the scenario still has the reassignment of the third feature from
    piece 10 to piece 11 in the queue.  Against the next slice, [400,600),
    the third feature, still on piece 10, crosses the downstream border:
    the turn of the loop flushes the queue, which moves the feature to
    piece 11, and the [assert] on the old piece raises; no feature is made
    and the feature still ends at 800. *)
Lemma C1_counterexample :
  fst (modify4new_slice scenario_walk slice_0_400 true scenario) = Ok tt /\
  piece_swaps
    (core_queue (snd (modify4new_slice scenario_walk slice_0_400 true
                        scenario)))
  = [mkPieceSwap 10 11 3] /\
  Feature.transcribed_pieces
    <$> features (snd (modify4new_slice scenario_walk slice_0_400 true
                         scenario)) !! 3%nat
  = Some [10%nat] /\
  group_classification
    (snd (modify4new_slice scenario_walk slice_0_400 true scenario))
    slice_400_600 true ([3%nat], 10%nat)
  = Some overlaps_downstream_of /\
  fst (visit slice_400_600 true (false, None) ([3%nat], 10%nat)
         (snd (modify4new_slice scenario_walk slice_0_400 true scenario)))
  = Raise (AssertionError old_piece_not_in_pieces) /\
  size (features
          (snd (visit slice_400_600 true (false, None) ([3%nat], 10%nat)
                  (snd (modify4new_slice scenario_walk slice_0_400 true
                          scenario)))))
  = size (features (snd (modify4new_slice scenario_walk slice_0_400 true
                           scenario))) /\
  Feature.end_
    <$> features
          (snd (visit slice_400_600 true (false, None) ([3%nat], 10%nat)
                  (snd (modify4new_slice scenario_walk slice_0_400 true
                          scenario)))) !! 3%nat
  = Some 800.
Proof. vm_compute. repeat split. Qed.

(** The scenario of spec 8, run: the first feature is under the slice, the
    second is cut at 400, the part beyond is a new feature under the old
    coordinates on the new piece, and the reassignment of the third
    feature to the new piece waits in the queue. *)
Example scenario_run :
  let r := modify4new_slice scenario_walk slice_0_400 true scenario in
  fst r = Ok tt /\
  features (snd r) !! 1%nat
  = Some (Feature.set_coordinate slice_0_400 (plus_feature 100 200 [10%nat])) /\
  features (snd r) !! 2%nat
  = Some (truncated 400 slice_0_400 (plus_feature 200 500 [10%nat])) /\
  features (snd r) !! 4%nat
  = Some (downstream_kwargs 400 chr1 [11%nat] (plus_feature 200 500 [10%nat])) /\
  features (snd r) !! 3%nat = Some (plus_feature 500 800 [10%nat]) /\
  pieces (snd r) !! 11%nat = Some (TranscribedPiece.mk 7 1) /\
  core_queue (snd r) = mkCoreQueue [] [mkPieceSwap 10 11 3].
Proof. vm_compute. repeat split. Qed.

Example minus_strand_run :
  let r := modify4new_slice [([1%nat], 10%nat)] (Coordinates.mk 4 1 150 300)
             false minus_strand in
  fst r = Ok tt /\
  (fun f => (Feature.start f, Feature.end_ f)) <$> features (snd r) !! 1%nat
  = Some (200, 149) /\
  (fun f => (Feature.start f, Feature.end_ f)) <$> features (snd r) !! 2%nat
  = Some (149, 100) /\
  py_interval <$> features (snd r) !! 1%nat = Some (150, 201) /\
  py_interval <$> features (snd r) !! 2%nat = Some (101, 150).
Proof. vm_compute. repeat split. Qed.

(** ** The marks of an artificial cut *)

(** C10, as the code has it.  When a group is split at the downstream
    border, each new downstream feature has a key that no feature had, no
    given name and [start_is_biological_start = False]; its start, its
    coordinates and its pieces are those the call sets (the cut point, the
    old coordinates, the template's pieces with the new piece swapped in);
    its other attributes (type, end, strand, phase, source,
    [end_is_biological_end]) are the template's.  The truncated template
    has [end_is_biological_end = False] and keeps its given name, type,
    start, strand, phase, source, [start_is_biological_start] and
    pieces. *)
Theorem C10_cut_is_marked (st : State) (new_coords : Coordinates.t)
    (is_plus : bool) (seen : bool) (border : option nat) (f0_ref : nat)
    (rest : list nat) (piece : nat) (f0 : Feature.t) :
  features st !! f0_ref = Some f0 ->
  classify (FeatureVsCoords_init f0 new_coords is_plus)
  = Some overlaps_downstream_of ->
  NoDup (f0_ref :: rest) ->
  (forall f, f ∈ f0_ref :: rest ->
     exists t, features st !! f = Some t /\
               piece ∈ Feature.transcribed_pieces t /\
               downstream_nonempty (down_at new_coords is_plus) t) ->
  (forall r, r ∈ piece_swaps (core_queue st) ->
             ps_feat_id r ∉ f0_ref :: rest) ->
  (_downstream_piece st = None -> is_Some (pieces st !! piece)) ->
  exists (st' : State) (new_piece : nat) (news : list nat),
    visit new_coords is_plus (seen, border) (f0_ref :: rest, piece) st
    = (Ok (true, Some piece), st') /\
    _downstream_piece st' = Some new_piece /\
    NoDup news /\
    Forall2
      (fun f k =>
         exists t original new,
           features st !! f = Some t /\
           features st' !! f = Some original /\
           features st !! k = None /\
           features st' !! k = Some new /\
           Feature.given_name new = None /\
           Feature.start_is_biological_start new = false /\
           Feature.start new = down_at new_coords is_plus /\
           Feature.coordinate new = Feature.coordinate f0 /\
           swap_list_item (Feature.transcribed_pieces t) new_piece piece
           = Some (Feature.transcribed_pieces new) /\
           Feature.type new = Feature.type t /\
           Feature.end_ new = Feature.end_ t /\
           Feature.is_plus_strand new = Feature.is_plus_strand t /\
           Feature.phase new = Feature.phase t /\
           Feature.source new = Feature.source t /\
           Feature.end_is_biological_end new
           = Feature.end_is_biological_end t /\
           Feature.end_is_biological_end original = false /\
           Feature.given_name original = Feature.given_name t /\
           Feature.type original = Feature.type t /\
           Feature.start original = Feature.start t /\
           Feature.is_plus_strand original = Feature.is_plus_strand t /\
           Feature.phase original = Feature.phase t /\
           Feature.source original = Feature.source t /\
           Feature.start_is_biological_start original
           = Feature.start_is_biological_start t /\
           Feature.transcribed_pieces original
           = Feature.transcribed_pieces t)
      (f0_ref :: rest) news.
Proof.
  intros Hf0 Hclass Hnd Hall Hswaps Hpiece.
  destruct (visit_border st new_coords is_plus seen border f0_ref rest piece
              f0 Hf0 Hclass Hnd Hall Hswaps Hpiece)
    as (st' & np & news & Hrun & Hmemo & _ & _ & _ & _ & _ & Hndn & Hnew
        & _ & _ & Hpairs).
  exists st', np, news. split_and!; try done.
  apply Forall2_with_elem_of in Hpairs.
  eapply Forall2_impl; [apply Hpairs |].
  intros f k (_ & Hkin & t & Ht & ps' & Hps' & Horig & Hnewf).
  eexists t, _, _. split; [done |]. split; [exact Horig |].
  split; [by apply Hnew |]. split; [exact Hnewf |].
  simpl. by split_and!.
Qed.

(** C10, witness: the second feature of the scenario. *)
Lemma C10_cut_is_marked_witness :
  exists (st' : State) (new_piece : nat) (news : list nat),
    visit slice_0_400 true (true, None) ([2%nat], 10%nat) scenario
    = (Ok (true, Some 10%nat), st') /\
    _downstream_piece st' = Some new_piece /\
    NoDup news.
Proof.
  destruct (C10_cut_is_marked scenario slice_0_400 true true None
              2 [] 10 (plus_feature 200 500 [10%nat]))
    as (st' & np & news & Hrun & Hmemo & Hnd & _).
  - reflexivity.
  - reflexivity.
  - apply NoDup_singleton.
  - intros f Hf. apply list_elem_of_singleton in Hf as ->.
    exists (plus_feature 200 500 [10%nat]).
    split; [reflexivity |]. split; [apply list_elem_of_here |].
    unfold downstream_nonempty. simpl. lia.
  - intros r Hr. by apply elem_of_nil in Hr.
  - intros _. by exists (TranscribedPiece.mk 7 0).
  - by exists st', np, news.
Defined.

(** C10, counterexample: in the scenario the new feature has neither the
    start nor the pieces of its template, the second feature. *)
Lemma C10_counterexample :
  exists (template new : Feature.t),
    features scenario !! 2%nat = Some template /\
    features (snd (modify4new_slice scenario_walk slice_0_400 true scenario))
      !! 4%nat = Some new /\
    features scenario !! 4%nat = None /\
    Feature.start template = 200 /\
    Feature.start new = 400 /\
    Feature.transcribed_pieces template = [10%nat] /\
    Feature.transcribed_pieces new = [11%nat].
Proof.
  exists (plus_feature 200 500 [10%nat]),
         (downstream_kwargs 400 chr1 [11%nat] (plus_feature 200 500 [10%nat])).
  vm_compute. repeat split.
Qed.

(** ** Walks over contained groups *)

Lemma enqueue_piece_swaps_nil (st : State) : enqueue_piece_swaps [] st = st.
Proof.
  unfold enqueue_piece_swaps. rewrite app_nil_r.
  by destruct st as [? ? ? [? ?] ? ? ? ? ?].
Qed.

Lemma enqueue_piece_swaps_app (rs rs' : list PieceSwap) (st : State) :
  enqueue_piece_swaps rs' (enqueue_piece_swaps rs st)
  = enqueue_piece_swaps (rs ++ rs') st.
Proof. unfold enqueue_piece_swaps. simpl. by rewrite app_assoc. Qed.

(** The loop of the downstream branch, once the new piece exists. *)
Lemma downstream_loop_memo (border piece new_piece : nat) (l : list nat) :
  forall st : State,
    _downstream_piece st = Some new_piece ->
    for_each l (fun f =>
      np ← downstream_piece piece;
      append_piece_swap (mkPieceSwap border np f)) st
    = (Ok tt, enqueue_piece_swaps (mkPieceSwap border new_piece <$> l) st).
Proof.
  induction l as [| f l IH]; intros st Hmemo.
  - simpl. by rewrite enqueue_piece_swaps_nil.
  - simpl.
    destruct (downstream_piece_spec st piece) as (np & st1 & Hdp & _ & _ & _
                                                   & _ & _ & _ & _ & Hsome & _).
    { rewrite Hmemo. done. }
    destruct (Hsome _ Hmemo) as [-> ->].
    erewrite bind_ok; cycle 1.
    { rewrite (bind_ok _ _ _ _ _ Hdp). reflexivity. }
    rewrite IH by done.
    change (set_core_queue _ st)
      with (enqueue_piece_swaps [mkPieceSwap border new_piece f] st).
    by rewrite enqueue_piece_swaps_app.
Qed.

Lemma enqueue_coord_swaps_nil (st : State) : enqueue_coord_swaps [] st = st.
Proof.
  unfold enqueue_coord_swaps. rewrite app_nil_r.
  by destruct st as [? ? ? [? ?] ? ? ? ? ?].
Qed.

Lemma enqueue_coord_swaps_app (rs rs' : list CoordSwap) (st : State) :
  enqueue_coord_swaps rs' (enqueue_coord_swaps rs st)
  = enqueue_coord_swaps (rs ++ rs') st.
Proof. unfold enqueue_coord_swaps. simpl. by rewrite app_assoc. Qed.

Lemma contained_loop (cid : nat) (l : list nat) :
  forall st : State,
    for_each l (fun f => append_coord_swap (mkCoordSwap f cid)) st
    = (Ok tt, enqueue_coord_swaps ((fun f => mkCoordSwap f cid) <$> l) st).
Proof.
  induction l as [| f l IH]; intros st; simpl.
  - by rewrite enqueue_coord_swaps_nil.
  - erewrite bind_ok; [| reflexivity]. rewrite IH.
    change (set_core_queue _ st)
      with (enqueue_coord_swaps [mkCoordSwap f cid] st).
    by rewrite enqueue_coord_swaps_app.
Qed.

Lemma group_classification_Some (st : State) (new_coords : Coordinates.t)
    (is_plus : bool) (item : list nat * nat) (c : Classification) :
  group_classification st new_coords is_plus item = Some c ->
  exists f0_ref rest f0,
    fst item = f0_ref :: rest /\ features st !! f0_ref = Some f0 /\
    classify (FeatureVsCoords_init f0 new_coords is_plus) = Some c.
Proof.
  unfold group_classification. destruct item as [[| f0_ref rest] piece];
    simpl; [done |].
  destruct (features st !! f0_ref) as [f0 |] eqn:Hf0; simpl; [| done].
  intros H. by exists f0_ref, rest, f0.
Qed.

Lemma visit_contained (st : State) (new_coords : Coordinates.t)
    (is_plus seen : bool) (border : option nat) (item : list nat * nat) :
  group_classification st new_coords is_plus item = Some contained ->
  visit new_coords is_plus (seen, border) item st
  = (Ok (true, border),
     enqueue_coord_swaps (group_coord_swaps new_coords item) st).
Proof.
  intros H. apply group_classification_Some in H
    as (f0_ref & rest & f0 & Hitem & Hf0 & Hclass).
  destruct item as [aligned piece]. simpl in Hitem. subst aligned.
  unfold visit. rewrite (bind_ok _ _ _ _ _ (get_feature_ok _ _ _ Hf0)).
  rewrite Hclass. erewrite bind_ok; [| apply contained_loop]. done.
Qed.

Lemma visit_passed_over (st : State) (new_coords : Coordinates.t)
    (is_plus seen : bool) (border : option nat) (item : list nat * nat)
    (c : Classification) :
  group_classification st new_coords is_plus item = Some c ->
  passed_over c ->
  visit new_coords is_plus (seen, border) item st = (Ok (seen, border), st).
Proof.
  intros H Hc. apply group_classification_Some in H
    as (f0_ref & rest & f0 & Hitem & Hf0 & Hclass).
  destruct item as [aligned piece]. simpl in Hitem. subst aligned.
  unfold visit. rewrite (bind_ok _ _ _ _ _ (get_feature_ok _ _ _ Hf0)).
  rewrite Hclass. by destruct Hc as [-> | [-> | ->]].
Qed.

Lemma visit_downstream_no_border (st : State) (new_coords : Coordinates.t)
    (is_plus seen : bool) (item : list nat * nat) :
  group_classification st new_coords is_plus item = Some downstream ->
  visit new_coords is_plus (seen, None) item st = (Ok (seen, None), st).
Proof.
  intros H. apply group_classification_Some in H
    as (f0_ref & rest & f0 & Hitem & Hf0 & Hclass).
  destruct item as [aligned piece]. simpl in Hitem. subst aligned.
  unfold visit. rewrite (bind_ok _ _ _ _ _ (get_feature_ok _ _ _ Hf0)).
  by rewrite Hclass.
Qed.

(** A turn that returns has classified its group. *)
Lemma visit_Ok_classified (st st' : State) (new_coords : Coordinates.t)
    (is_plus : bool) (locals locals' : bool * option nat)
    (item : list nat * nat) :
  visit new_coords is_plus locals item st = (Ok locals', st') ->
  exists c, group_classification st new_coords is_plus item = Some c.
Proof.
  destruct locals as [seen border], item as [[| f0_ref rest] piece];
    unfold visit, group_classification; simpl; [done |].
  unfold mbind at 1, M_bind at 1, get_feature.
  destruct (features st !! f0_ref) as [f0 |]; [| done]. simpl.
  intros _. apply classify_total.
Qed.



Lemma flushed_interval (st : State) (k : nat) (t : Feature.t) :
  Feature.start (flushed st k t) = Feature.start t /\
  Feature.end_ (flushed st k t) = Feature.end_ t.
Proof. done. Qed.



(** The span of a walk covers its features, and a walk with a span has a
    feature. *)
Lemma is_span_covers (st : State) (transition_gen : list (list nat * nat))
    (lo hi : Z) :
  is_span st transition_gen lo hi ->
  transition_gen <> [] /\
  forall k, k ∈ walk_features transition_gen ->
    exists t, features st !! k = Some t /\
              lo <= fst (py_interval t) /\ snd (py_interval t) <= hi.
Proof.
  intros (Hwithin & (k0 & t0 & Hk0 & _) & _). split; [| done].
  intros ->. by apply elem_of_nil in Hk0.
Qed.



(** ** When the slice holds no feature of the transcript *)

Lemma bind_Ok_inv {A B : Type} (m : M A) (k : A -> M B) (st st' : State)
    (b : B) :
  (m ≫= k) st = (Ok b, st') ->
  exists a st1, m st = (Ok a, st1) /\ k a st1 = (Ok b, st').
Proof.
  unfold mbind, M_bind. destruct (m st) as [[a | e] st1]; [| done].
  intros H. by exists a, st1.
Qed.

Lemma mret_Ok_inv {A : Type} (a b : A) (st st' : State) :
  (mret a : M A) st = (Ok b, st') -> a = b /\ st = st'.
Proof. intros [= -> ->]. done. Qed.

Ltac bind_inv H :=
  let a := fresh "a" in
  let st1 := fresh "st1" in
  let H1 := fresh "Hrun" in
  apply bind_Ok_inv in H as (a & st1 & H1 & H).

Tactic Notation "invert_bind" hyp(H) "as" ident(a) ident(st1) ident(H1) :=
  apply bind_Ok_inv in H as (a & st1 & H1 & H).

(** What a turn that returns makes of [seen_one_overlap]. *)
Lemma visit_seen (st st' : State) (new_coords : Coordinates.t)
    (is_plus seen seen' : bool) (border border' : option nat)
    (item : list nat * nat) (c : Classification) :
  group_classification st new_coords is_plus item = Some c ->
  visit new_coords is_plus (seen, border) item st = (Ok (seen', border'), st') ->
  seen' = seen || sets_seen c.
Proof.
  intros Hc Hrun. apply group_classification_Some in Hc
    as (f0_ref & rest & f0 & Hitem & Hf0 & Hclass).
  destruct item as [aligned piece]. simpl in Hitem. subst aligned.
  unfold visit in Hrun.
  rewrite (bind_ok _ _ _ _ _ (get_feature_ok _ _ _ Hf0)) in Hrun.
  rewrite Hclass in Hrun.
  destruct c; simpl.
  - apply mret_Ok_inv in Hrun as [[= -> ->] _]. by rewrite orb_false_r.
  - apply mret_Ok_inv in Hrun as [[= -> ->] _]. by rewrite orb_false_r.
  - apply mret_Ok_inv in Hrun as [[= -> ->] _]. by rewrite orb_false_r.
  - bind_inv Hrun. apply mret_Ok_inv in Hrun as [[= <- <-] _].
    by rewrite orb_true_r.
  - do 3 bind_inv Hrun. apply mret_Ok_inv in Hrun as [[= <- <-] _].
    by rewrite orb_true_r.
  - bind_inv Hrun. apply mret_Ok_inv in Hrun as [[= <- <-] _].
    by rewrite orb_false_r.
Qed.

Lemma walk_seen (new_coords : Coordinates.t) (is_plus : bool)
    (transition_gen : list (list nat * nat)) :
  forall (st st' : State) (border border' : option nat) (seen' : bool),
    walk new_coords is_plus transition_gen (true, border) st
    = (Ok (seen', border'), st') ->
    seen' = true.
Proof.
  induction transition_gen as [| item rest IH];
    intros st st' border border' seen' Hrun.
  - by apply mret_Ok_inv in Hrun as [[= <- <-] _].
  - simpl in Hrun. bind_inv Hrun. destruct a as [seen1 border1].
    destruct (visit_Ok_classified _ _ _ _ _ _ _ Hrun0) as [c Hc].
    rewrite (visit_seen _ _ _ _ _ _ _ _ _ _ Hc Hrun0) in Hrun.
    simpl in Hrun. by eapply IH.
Qed.

(** A walk over groups that do not set [seen_one_overlap], with no border
    identified, changes nothing. *)
Lemma walk_unseen (new_coords : Coordinates.t) (is_plus : bool)
    (transition_gen : list (list nat * nat)) (st : State) (seen : bool) :
  (forall item, item ∈ transition_gen ->
     exists c, group_classification st new_coords is_plus item = Some c /\
               sets_seen c = false) ->
  walk new_coords is_plus transition_gen (seen, None) st
  = (Ok (seen, None), st).
Proof.
  induction transition_gen as [| item rest IH]; intros Hall; [done |].
  simpl. destruct (Hall item) as (c & Hc & Hquiet); [apply list_elem_of_here |].
  rewrite (bind_ok _ _ st st (seen, None)).
  - apply IH. intros item' Hin. apply Hall. by apply list_elem_of_further.
  - destruct c; try discriminate Hquiet.
    + eapply visit_passed_over; [exact Hc | by left].
    + eapply visit_passed_over; [exact Hc | right; by left].
    + eapply visit_passed_over; [exact Hc | right; by right].
    + by apply visit_downstream_no_border.
Qed.

Lemma walk_unseen_inv (new_coords : Coordinates.t) (is_plus : bool)
    (transition_gen : list (list nat * nat)) (st st' : State)
    (border' : option nat) :
  walk new_coords is_plus transition_gen (false, None) st
  = (Ok (false, border'), st') ->
  forall item, item ∈ transition_gen ->
    exists c, group_classification st new_coords is_plus item = Some c /\
              sets_seen c = false.
Proof.
  induction transition_gen as [| item rest IH]; intros Hrun item' Hin;
    [by apply elem_of_nil in Hin |].
  simpl in Hrun. bind_inv Hrun. destruct a as [seen1 border1].
  destruct (visit_Ok_classified _ _ _ _ _ _ _ Hrun0) as [c Hc].
  pose proof (visit_seen _ _ _ _ _ _ _ _ _ _ Hc Hrun0) as Hseen.
  simpl in Hseen. subst seen1.
  destruct (sets_seen c) eqn:Hq.
  { apply walk_seen in Hrun. done. }
  assert (Hsame : visit new_coords is_plus (false, None) item st
                  = (Ok (false, None), st)).
  { destruct c; try discriminate Hq.
    + eapply visit_passed_over; [exact Hc | by left].
    + eapply visit_passed_over; [exact Hc | right; by left].
    + eapply visit_passed_over; [exact Hc | right; by right].
    + by apply visit_downstream_no_border. }
  rewrite Hsame in Hrun0. injection Hrun0 as <- <-.
  apply elem_of_cons in Hin as [-> | Hin]; [eauto |].
  by apply IH.
Qed.

Lemma for_each_check {A : Type} (l : list A) (body : A -> M unit)
    (chk : A -> bool) (e : exn) (st : State) :
  (forall x, x ∈ l -> body x st = (if chk x then Ok tt else Raise e, st)) ->
  for_each l body st = (if forallb chk l then Ok tt else Raise e, st).
Proof.
  induction l as [| x l IH]; intros Hall; [done |].
  simpl. pose proof (Hall x (list_elem_of_here _ _)) as Hx.
  destruct (chk x); simpl.
  - rewrite (bind_ok _ _ _ _ _ Hx). apply IH.
    intros y Hy. apply Hall. by apply list_elem_of_further.
  - by rewrite (bind_raise _ _ _ _ _ Hx).
Qed.

Lemma elem_of_piece_features (st : State) (piece k : nat) :
  k ∈ piece_features st piece ->
  exists f, features st !! k = Some f /\
            piece ∈ Feature.transcribed_pieces f.
Proof.
  unfold piece_features. rewrite list_elem_of_fmap.
  intros [[k' f] [-> H]]. apply elem_of_map_to_list in H.
  apply map_lookup_filter_Some in H as [H1 H2]. eauto.
Qed.

(** The handler of [NoFeaturesInSliceError] in [modify4slice]. *)
Lemma double_check_run (st : State) (transcribed : nat)
    (new_coords : Coordinates.t) (is_plus : bool) :
  (st ← get;
   for_each (transcribed_pieces st transcribed) (fun piece =>
     st ← get;
     for_each (piece_features st piece) (fun feature_ref =>
       feature ← get_feature feature_ref;
       if eqb is_plus (Feature.is_plus_strand feature)
       then
         if is_plus
         then assert
                (negb ((Coordinates.start new_coords
                          <=? Feature.start feature)
                       && (Feature.start feature
                             <=? Coordinates.end_ new_coords)))
                feature_within_slice
         else assert
                (negb ((Coordinates.start new_coords - 1
                          <=? Feature.start feature)
                       && (Feature.start feature
                             <=? Coordinates.end_ new_coords - 1)))
                feature_within_slice
       else mret tt))) st
  = (if double_check st transcribed new_coords is_plus
     then Ok tt else Raise (AssertionError feature_within_slice), st).
Proof.
  rewrite (bind_ok get _ st st st) by done.
  unfold double_check. apply for_each_check. intros piece _.
  rewrite (bind_ok get _ st st st) by done.
  apply for_each_check. intros k Hk.
  apply elem_of_piece_features in Hk as (f & Hf & _).
  rewrite (bind_ok _ _ _ _ _ (get_feature_ok _ _ _ Hf)). rewrite Hf.
  destruct (eqb is_plus (Feature.is_plus_strand f)); [| done].
  unfold outside_slice, assert.
  destruct is_plus;
    match goal with |- context [if negb ?b then _ else _] => by destruct b end.
Qed.

(** C2, as the code has it.  [modify4new_slice] raises
    [NoFeaturesInSliceError] if and only if every group of the walk is
    classified, and none as contained or as overlapping the downstream
    border ([seen_one_overlap] stays false); a group that overlaps the
    upstream border does not count.  The state is then as it was before the
    call.  On that error [modify4slice] checks every feature of the strand
    at hand on every piece of the transcript against the slice, and goes on
    to the next transcript if all are outside, and raises
    [AssertionError] if one is not. *)
Theorem C2_no_features_in_slice (transition_gen : list (list nat * nat))
    (new_coords : Coordinates.t) (is_plus : bool) (st : State)
    (transition_5p_to_3p : State -> nat -> list (list nat * nat))
    (transcribed : nat) :
  (forall c, sets_seen c = true <->
             c = contained \/ c = overlaps_downstream_of) /\
  (fst (modify4new_slice transition_gen new_coords is_plus st)
   = Raise NoFeaturesInSliceError
   <->
   forall item, item ∈ transition_gen ->
     exists c, group_classification st new_coords is_plus item = Some c /\
               sets_seen c = false) /\
  (fst (modify4new_slice transition_gen new_coords is_plus st)
   = Raise NoFeaturesInSliceError ->
   snd (modify4new_slice transition_gen new_coords is_plus st) = st) /\
  (fst (modify4new_slice
          (transition_5p_to_3p (TranscriptTrimmer_init transcribed st)
                               transcribed)
          new_coords is_plus (TranscriptTrimmer_init transcribed st))
   = Raise NoFeaturesInSliceError ->
   modify4slice transition_5p_to_3p [transcribed] new_coords is_plus st
   = (if double_check (TranscriptTrimmer_init transcribed st) transcribed
           new_coords is_plus
      then Ok tt else Raise (AssertionError feature_within_slice),
      TranscriptTrimmer_init transcribed st)).
Proof.
  assert (Hiff : forall gen s,
    fst (modify4new_slice gen new_coords is_plus s)
    = Raise NoFeaturesInSliceError ->
    (forall item, item ∈ gen ->
       exists c, group_classification s new_coords is_plus item = Some c /\
                 sets_seen c = false)).
  { intros gen s Hraise. unfold modify4new_slice in Hraise.
    unfold mbind, M_bind in Hraise.
    destruct (walk new_coords is_plus gen (false, None) s)
      as [[[seen border] | e] s'] eqn:Hwalk.
    - destruct seen; simpl in Hraise; [done |].
      by eapply walk_unseen_inv.
    - simpl in Hraise. injection Hraise as ->.
      exfalso.
      apply (never_raises_walk NoFeaturesInSliceError new_coords is_plus gen
               (false, None) ltac:(done) ltac:(done) ltac:(done) ltac:(done)
               s).
      by rewrite Hwalk. }
  assert (Hrun : forall gen s,
    (forall item, item ∈ gen ->
       exists c, group_classification s new_coords is_plus item = Some c /\
                 sets_seen c = false) ->
    modify4new_slice gen new_coords is_plus s
    = (Raise NoFeaturesInSliceError, s)).
  { intros gen s Hall. unfold modify4new_slice.
    by rewrite (bind_ok _ _ _ _ _ (walk_unseen _ _ _ s false Hall)). }
  split; [intros c; destruct c; simpl; naive_solver |].
  split; [split; [apply Hiff | intros Hall; by rewrite Hrun] |].
  split; [intros Hraise; by rewrite (Hrun _ _ (Hiff _ _ Hraise)) |].
  intros Hraise. pose proof (Hrun _ _ (Hiff _ _ Hraise)) as Hnf.
  unfold modify4slice. simpl for_each.
  set (st0 := TranscriptTrimmer_init transcribed st) in *.
  assert (Hbody :
    (modify (TranscriptTrimmer_init transcribed) ;;
     st ← get;
     try_except
       (modify4new_slice (transition_5p_to_3p st transcribed)
                         new_coords is_plus)
       NoFeaturesInSliceError
       (st ← get;
        for_each (transcribed_pieces st transcribed) (fun piece =>
          st ← get;
          for_each (piece_features st piece) (fun feature_ref =>
            feature ← get_feature feature_ref;
            if eqb is_plus (Feature.is_plus_strand feature)
            then
              if is_plus
              then assert
                     (negb ((Coordinates.start new_coords
                               <=? Feature.start feature)
                            && (Feature.start feature
                                  <=? Coordinates.end_ new_coords)))
                     feature_within_slice
              else assert
                     (negb ((Coordinates.start new_coords - 1
                               <=? Feature.start feature)
                            && (Feature.start feature
                                  <=? Coordinates.end_ new_coords - 1)))
                     feature_within_slice
            else mret tt)))) st
    = (if double_check st0 transcribed new_coords is_plus
       then Ok tt else Raise (AssertionError feature_within_slice), st0)).
  { rewrite (bind_ok (modify _) _ st st0 tt) by done.
    rewrite (bind_ok get _ st0 st0 st0) by done.
    unfold try_except. rewrite Hnf. rewrite decide_True by done.
    apply double_check_run. }
  destruct (double_check st0 transcribed new_coords is_plus).
  - by rewrite (bind_ok _ _ _ _ _ Hbody).
  - by rewrite (bind_raise _ _ _ _ _ Hbody).
Qed.

(** C2, counterexample: the only group overlaps the upstream boundary of
    the slice, and [modify4new_slice] raises [NoFeaturesInSliceError]; the
    double check passes (the start, 50, is outside [100,200]) and
    [modify4slice] goes on as if the transcript did not meet the slice. *)
Lemma C2_counterexample :
  group_classification upstream_overlap slice_100_200 true ([1%nat], 10%nat)
  = Some overlaps_upstream_of /\
  fst (modify4new_slice [([1%nat], 10%nat)] slice_100_200 true
         upstream_overlap)
  = Raise NoFeaturesInSliceError /\
  fst (modify4slice (fun _ _ => [([1%nat], 10%nat)]) [7%nat] slice_100_200
         true upstream_overlap)
  = Ok tt.
Proof. vm_compute. repeat split. Qed.

(** ** What a computation leaves alone *)

Section Preserves.
Context (R : relation State) `{!PreOrder R}.

Lemma preserves_ret {A : Type} (a : A) : preserves R (mret a).
Proof. intros st. simpl. reflexivity. Qed.

Lemma preserves_raise {A : Type} (e : exn) : preserves R (raise e : M A).
Proof. intros st. simpl. reflexivity. Qed.

Lemma preserves_get : preserves R get.
Proof. intros st. simpl. reflexivity. Qed.

Lemma preserves_get_feature (k : nat) : preserves R (get_feature k).
Proof.
  intros st. unfold get_feature. destruct (features st !! k); reflexivity.
Qed.

Lemma preserves_get_piece (k : nat) : preserves R (get_piece k).
Proof.
  intros st. unfold get_piece. destruct (pieces st !! k); reflexivity.
Qed.

Lemma preserves_assert (b : bool) (a : assertion) : preserves R (assert b a).
Proof. intros st. unfold assert. destruct b; reflexivity. Qed.

Lemma preserves_modify (f : State -> State) :
  (forall st, R st (f st)) -> preserves R (modify f).
Proof. intros H st. apply H. Qed.

Lemma preserves_bind {A B : Type} (m : M A) (k : A -> M B) :
  preserves R m -> (forall a, preserves R (k a)) -> preserves R (m ≫= k).
Proof.
  intros Hm Hk st. unfold mbind, M_bind.
  generalize (Hm st). destruct (m st) as [[a | e] st1]; simpl; [| done].
  intros H1. etransitivity; [exact H1 | apply Hk].
Qed.

Lemma preserves_for_each {A : Type} (l : list A) (body : A -> M unit) :
  (forall x, x ∈ l -> preserves R (body x)) -> preserves R (for_each l body).
Proof.
  induction l as [| x l IH]; intros Hb; simpl.
  - apply preserves_ret.
  - apply preserves_bind; [apply Hb, list_elem_of_here |].
    intros _. apply IH. intros y Hy. apply Hb. by apply list_elem_of_further.
Qed.

End Preserves.

Ltac preserves_step :=
  lazymatch goal with
  | |- preserves _ (mbind _ _) =>
      apply preserves_bind; [apply _ | | intros ? ]
  | |- preserves _ (mret _) => apply preserves_ret; apply _
  | |- preserves _ (raise _) => apply preserves_raise; apply _
  | |- preserves _ get => apply preserves_get; apply _
  | |- preserves _ (get_feature _) => apply preserves_get_feature; apply _
  | |- preserves _ (get_piece _) => apply preserves_get_piece; apply _
  | |- preserves _ (assert _ _) => apply preserves_assert; apply _
  | |- preserves _ (modify _) => apply preserves_modify; intros ?
  | |- preserves _ (for_each _ _) =>
      apply preserves_for_each; [apply _ | intros ? ? ]
  end.

Section Unchanged.
Context {B : Type} (proj : State -> B).

Lemma unchanged_mk_new_piece (piece : nat) :
  (forall m st, proj (set_pieces m st) = proj st) ->
  (forall h st, proj (set_handlers h st) = proj st) ->
  preserves (unchanged proj) (mk_new_piece piece).
Proof.
  intros Hp Hh. unfold mk_new_piece.
  repeat preserves_step; try apply Hp; try apply Hh.
  match goal with |- context [if ?b then _ else _] => destruct b end;
    repeat preserves_step. apply Hp.
Qed.

Lemma unchanged_downstream_piece (piece : nat) :
  (forall m st, proj (set_pieces m st) = proj st) ->
  (forall h st, proj (set_handlers h st) = proj st) ->
  (forall x st, proj (set_downstream_piece x st) = proj st) ->
  preserves (unchanged proj) (downstream_piece piece).
Proof.
  intros Hp Hh Hd. unfold downstream_piece.
  preserves_step; [preserves_step |].
  destruct (_downstream_piece a); repeat preserves_step.
  - by apply unchanged_mk_new_piece.
  - apply Hd.
Qed.

Lemma unchanged_set_status_downstream_border
    (new_coords old_coords : Coordinates.t) (is_plus : bool)
    (template_feature new_piece old_piece : nat) :
  (forall m st, proj (set_features m st) = proj st) ->
  (forall t st, proj (set_trees t st) = proj st) ->
  (forall h st, proj (set_handler_holder h st) = proj st) ->
  preserves (unchanged proj)
    (set_status_downstream_border new_coords old_coords is_plus
       template_feature new_piece old_piece).
Proof.
  intros Hf Ht Hh. unfold set_status_downstream_border.
  repeat preserves_step.
  destruct (swap_list_item _ _ _); repeat preserves_step.
  - unfold new_handled_data. repeat preserves_step.
    + apply Hh.
    + apply Hf.
  - unfold load_to_intervaltree. repeat preserves_step.
    destruct (Feature.is_plus_strand a2);
      match goal with |- context [if ?b then _ else _] => destruct b end;
      repeat preserves_step; apply Ht.
  - apply Hf.
Qed.

End Unchanged.

(** ** Where the queue is flushed *)

Lemma preserves_mono {A : Type} (R R' : relation State) (m : M A) :
  (forall st st', R st st' -> R' st st') -> preserves R m -> preserves R' m.
Proof. intros Hsub Hm st. apply Hsub, Hm. Qed.





Lemma group_classification_features (st st' : State)
    (new_coords : Coordinates.t) (is_plus : bool) (item : list nat * nat) :
  features st' = features st ->
  group_classification st' new_coords is_plus item
  = group_classification st new_coords is_plus item.
Proof. intros H. unfold group_classification. by rewrite H. Qed.





(** ** What a walk can do to a feature outside its groups *)





















(** ** A feature within the slice *)








(** ** Downstream of the border *)

Lemma unchanged_piece_store_within_budget (st st' : State) :
  unchanged piece_store st st' -> within_budget st st'.
Proof.
  unfold unchanged, piece_store, within_budget, pieces_budget.
  intros [= -> ->]. lia.
Qed.

(** A call of [mk_new_piece] that raises has changed nothing. *)
Lemma mk_new_piece_fails (st : State) (piece : nat) :
  pieces st !! piece = None -> snd (mk_new_piece piece st) = st.
Proof.
  intros Hp. unfold mk_new_piece.
  rewrite (bind_ok get _ st st st) by done.
  assert (Hget : get_piece piece st = (Raise InvalidReference, st)).
  { unfold get_piece. by rewrite Hp. }
  destruct (transcribed_pieces st (transcript st)) as [| x l] eqn:Hl.
  - simpl. rewrite (bind_ok (mret tt) _ st st tt) by done.
    by rewrite (bind_raise _ _ _ _ _ Hget).
  - assert (Hx : x ∈ transcribed_pieces st (transcript st)).
    { rewrite Hl. apply list_elem_of_here. }
    apply elem_of_transcribed_pieces in Hx as (o & Ho & _).
    erewrite bind_raise; [done |].
    simpl. erewrite bind_raise; [done |].
    rewrite (bind_ok _ _ _ _ _ (get_piece_ok _ _ _ Ho)).
    by rewrite (bind_raise _ _ _ _ _ Hget).
Qed.

Lemma within_budget_downstream_piece (piece : nat) :
  preserves within_budget (downstream_piece piece).
Proof.
  intros st. unfold downstream_piece.
  rewrite (bind_ok get _ st st st) by done.
  destruct (_downstream_piece st) as [np |] eqn:Hmemo; [reflexivity |].
  destruct (pieces st !! piece) as [p |] eqn:Hp.
  - rewrite (bind_ok _ _ _ _ _ (mk_new_piece_spec _ _ _ Hp)). simpl.
    unfold within_budget, pieces_budget. simpl. rewrite Hmemo.
    rewrite map_size_insert_None.
    + rewrite map_size_fmap. lia.
    + rewrite lookup_fmap, fresh_piece_is_new. done.
  - pose proof (mk_new_piece_fails st piece Hp) as Hfail.
    unfold mbind, M_bind.
    destruct (mk_new_piece piece st) as [[k | e] st1]; simpl in Hfail; subst.
    + simpl. unfold within_budget, pieces_budget. simpl. rewrite Hmemo. lia.
    + reflexivity.
Qed.

Lemma within_budget_visit (new_coords : Coordinates.t) (is_plus : bool)
    (locals : bool * option nat) (item : list nat * nat) :
  preserves within_budget (visit new_coords is_plus locals item).
Proof.
  unfold visit. destruct locals as [seen border], item as [aligned piece].
  destruct aligned as [| f0_ref rest]; [preserves_step |].
  preserves_step; [preserves_step |].
  destruct (classify (FeatureVsCoords_init a new_coords is_plus)) as [c |];
    [| preserves_step].
  destruct c; repeat preserves_step.
  - unfold append_coord_swap. preserves_step.
    unfold within_budget, pieces_budget. simpl. lia.
  - apply within_budget_downstream_piece.
  - unfold execute_so_far. preserves_step.
    unfold within_budget, pieces_budget. simpl. lia.
  - eapply preserves_mono; [apply unchanged_piece_store_within_budget |].
    by apply unchanged_set_status_downstream_border.
  - destruct border as [b |]; [| preserves_step].
    destruct (decide (piece = b)); repeat preserves_step.
    + apply within_budget_downstream_piece.
    + unfold append_piece_swap. preserves_step.
    unfold within_budget, pieces_budget. simpl. lia.
Qed.

Lemma within_budget_walk (new_coords : Coordinates.t) (is_plus : bool)
    (transition_gen : list (list nat * nat)) :
  forall locals,
    preserves within_budget (walk new_coords is_plus transition_gen locals).
Proof.
  induction transition_gen as [| item rest IH]; intros locals.
  - apply preserves_ret. apply _.
  - simpl. apply preserves_bind; [apply _ | | apply IH].
    apply within_budget_visit.
Qed.

(** A call that begins with no downstream piece memoized ends with at
    most one piece more. *)
Lemma one_new_piece_per_call (transition_gen : list (list nat * nat))
    (new_coords : Coordinates.t) (is_plus : bool) (st : State) :
  _downstream_piece st = None ->
  (size (pieces (snd (modify4new_slice transition_gen new_coords is_plus st)))
   <= size (pieces st) + 1)%nat.
Proof.
  intros Hmemo. unfold modify4new_slice, mbind, M_bind.
  pose proof (within_budget_walk new_coords is_plus transition_gen
                (false, None) st) as Hw.
  unfold within_budget, pieces_budget in Hw. rewrite Hmemo in Hw.
  destruct (walk new_coords is_plus transition_gen (false, None) st)
    as [[[seen border] | e] st1]; simpl in *.
  - destruct seen; simpl; lia.
  - lia.
Qed.

(** C6, as the code has it.  At a group classified downstream: if the
    border piece has been identified and the group's piece is the border
    piece, a piece reassignment from the border piece to the downstream
    piece is added to the queue for each feature of the group, in order,
    where the downstream piece is the memoized one if there is one and is
    otherwise made now and memoized; if the group's piece is not the border
    piece, or no border has been identified, nothing is added and nothing
    changes.  A call that begins with no downstream piece memoized makes at
    most one new piece. *)
Theorem C6_downstream_reassignment (st : State) (new_coords : Coordinates.t)
    (is_plus : bool) (seen : bool) (f0_ref : nat) (rest : list nat)
    (piece : nat) (f0 : Feature.t) :
  features st !! f0_ref = Some f0 ->
  classify (FeatureVsCoords_init f0 new_coords is_plus) = Some downstream ->
  (_downstream_piece st = None -> is_Some (pieces st !! piece)) ->
  (exists (new_piece : nat) (st1 : State),
     downstream_piece piece st = (Ok new_piece, st1) /\
     (forall np, _downstream_piece st = Some np ->
                 new_piece = np /\ st1 = st) /\
     (_downstream_piece st = None -> pieces st !! new_piece = None) /\
     _downstream_piece st1 = Some new_piece /\
     visit new_coords is_plus (seen, Some piece) (f0_ref :: rest, piece) st
     = (Ok (seen, Some piece),
        enqueue_piece_swaps
          (mkPieceSwap piece new_piece <$> f0_ref :: rest) st1)) /\
  (forall border, border <> piece ->
     visit new_coords is_plus (seen, Some border) (f0_ref :: rest, piece) st
     = (Ok (seen, Some border), st)) /\
  visit new_coords is_plus (seen, None) (f0_ref :: rest, piece) st
  = (Ok (seen, None), st) /\
  (forall (transition_gen : list (list nat * nat)) (s : State),
     _downstream_piece s = None ->
     (size (pieces (snd (modify4new_slice transition_gen new_coords is_plus
                           s)))
      <= size (pieces s) + 1)%nat).
Proof.
  intros Hf0 Hclass Hpiece.
  split; [| split; [| split; [| intros gen s; apply one_new_piece_per_call]]].
  - destruct (downstream_piece_spec st piece Hpiece)
      as (np & st1 & Hdp & Hmemo1 & _ & _ & _ & _ & _ & _ & Hsome & Hnone).
    exists np, st1. split; [done |].
    split; [done |].
    split.
    { intros Hn. destruct (Hnone Hn) as [-> _]. apply fresh_piece_is_new. }
    split; [done |].
    unfold visit. rewrite (bind_ok _ _ _ _ _ (get_feature_ok _ _ _ Hf0)).
    rewrite Hclass. rewrite decide_True by done.
    erewrite bind_ok; [reflexivity |].
    simpl for_each.
    erewrite bind_ok; cycle 1.
    { rewrite (bind_ok _ _ _ _ _ Hdp). reflexivity. }
    rewrite (downstream_loop_memo piece piece np) by done.
    change (set_core_queue _ st1)
      with (enqueue_piece_swaps [mkPieceSwap piece np f0_ref] st1).
    by rewrite enqueue_piece_swaps_app.
  - intros border Hne. unfold visit.
    rewrite (bind_ok _ _ _ _ _ (get_feature_ok _ _ _ Hf0)).
    rewrite Hclass. rewrite decide_False by done. reflexivity.
  - unfold visit.
    rewrite (bind_ok _ _ _ _ _ (get_feature_ok _ _ _ Hf0)).
    by rewrite Hclass.
Qed.

(** C6, witness: the third feature of the scenario, after the border. *)
Lemma C6_downstream_reassignment_witness :
  exists (new_piece : nat) (st1 : State),
    downstream_piece 10 (set_downstream_piece (Some 11%nat) scenario)
    = (Ok new_piece, st1) /\
    visit slice_0_400 true (true, Some 10%nat) ([3%nat], 10%nat)
      (set_downstream_piece (Some 11%nat) scenario)
    = (Ok (true, Some 10%nat),
       enqueue_piece_swaps [mkPieceSwap 10 new_piece 3] st1).
Proof.
  destruct (C6_downstream_reassignment
              (set_downstream_piece (Some 11%nat) scenario)
              slice_0_400 true true 3 [] 10 (plus_feature 500 800 [10%nat]))
    as ((np & st1 & Hdp & _ & _ & _ & Hrun) & _).
  - reflexivity.
  - reflexivity.
  - intros H. discriminate H.
  - by exists np, st1.
Defined.

(** C6, counterexample: the group at [500,800) is classified downstream
    and is met after the border piece 10 has been identified, but it is on
    piece 12: the call ends with no piece reassignment in the queue. *)
Lemma C6_counterexample :
  classify (FeatureVsCoords_init (plus_feature 200 500 [10%nat])
                                 slice_0_400 true)
  = Some overlaps_downstream_of /\
  classify (FeatureVsCoords_init (plus_feature 500 800 [12%nat])
                                 slice_0_400 true)
  = Some downstream /\
  fst (modify4new_slice two_pieces_walk slice_0_400 true two_pieces) = Ok tt /\
  piece_swaps
    (core_queue
       (snd (modify4new_slice two_pieces_walk slice_0_400 true two_pieces)))
  = [].
Proof. vm_compute. repeat split. Qed.

(** * Further properties of the classifier *)

Ltac bool_eq :=
  apply Bool.eq_iff_eq_true;
  rewrite ?andb_true_iff, ?negb_true_iff, ?andb_false_iff, ?Z.ltb_lt,
    ?Z.leb_le, ?Z.geb_le, ?Z.ltb_ge, ?Z.leb_gt;
  lia.

Lemma mirror_coordinates_involutive (c : Coordinates.t) :
  mirror_coordinates (mirror_coordinates c) = c.
Proof.
  destruct c as [i s a b]. unfold mirror_coordinates. simpl.
  f_equal; lia.
Qed.

Lemma mirror_feature_involutive (f : Feature.t) :
  mirror_feature (mirror_feature f) = f.
Proof.
  destruct f. unfold mirror_feature. simpl.
  rewrite mirror_coordinates_involutive, negb_involutive, !Z.opp_involutive.
  done.
Qed.

Lemma holds_mirror (f : Feature.t) (c : Coordinates.t) (is_plus : bool)
    (q : Classification) :
  holds q (FeatureVsCoords_init f c is_plus)
  = holds q (FeatureVsCoords_init (mirror_feature f) (mirror_coordinates c)
               (negb is_plus)).
Proof.
  destruct q; simpl.
  - unfold is_detached. simpl.
    by destruct is_plus, (Feature.is_plus_strand f).
  - questions_unfold. destruct is_plus; simpl; bool_eq.
  - questions_unfold. destruct is_plus; simpl; bool_eq.
  - questions_unfold. destruct is_plus; simpl; bool_eq.
  - questions_unfold. destruct is_plus; simpl; bool_eq.
  - questions_unfold. destruct is_plus; simpl; bool_eq.
Qed.

(** X1.  The minus strand is the mirror image of the plus strand: each of
    the six questions of [FeatureVsCoords], and so the answer of the chain
    of [modify4new_slice], is the same for a feature, a slice and a strand
    as for their images under [z -> -z] on the other strand; and the image
    of the image is the thing itself. *)
Theorem FeatureVsCoords_mirror (f : Feature.t) (c : Coordinates.t)
    (is_plus : bool) :
  (forall q, holds q (FeatureVsCoords_init f c is_plus)
             = holds q (FeatureVsCoords_init (mirror_feature f)
                          (mirror_coordinates c) (negb is_plus))) /\
  classify (FeatureVsCoords_init f c is_plus)
  = classify (FeatureVsCoords_init (mirror_feature f) (mirror_coordinates c)
                (negb is_plus)) /\
  mirror_feature (mirror_feature f) = f /\
  mirror_coordinates (mirror_coordinates c) = c.
Proof.
  split; [intros q; apply holds_mirror |].
  split; [| split; [apply mirror_feature_involutive
                   | apply mirror_coordinates_involutive]].
  unfold classify.
  pose proof (holds_mirror f c is_plus detached) as H0.
  pose proof (holds_mirror f c is_plus upstream) as H1.
  pose proof (holds_mirror f c is_plus overlaps_upstream_of) as H2.
  pose proof (holds_mirror f c is_plus contained) as H3.
  pose proof (holds_mirror f c is_plus overlaps_downstream_of) as H4.
  pose proof (holds_mirror f c is_plus downstream) as H5.
  simpl in H0, H1, H2, H3, H4, H5.
  by rewrite H0, H1, H2, H3, H4, H5.
Qed.

(** X2.  The chain read as intervals.  For a feature on the slice's
    sequence and strand whose adjusted interval is not empty, and a slice
    whose end is not before its start, the answer of the chain says where
    the interval lies: upstream, it ends at or before the slice's 5' end;
    overlapping upstream, the slice's 5' end falls strictly inside it (also
    when it reaches beyond the 3' end as well); contained, it lies within
    the slice; overlapping downstream, it begins within the slice and the
    slice's 3' end falls strictly inside it; downstream, it begins at or
    beyond the slice's 3' end. *)
Theorem classify_interval_reading (f : Feature.t) (slice : Coordinates.t)
    (is_plus : bool) (c : Classification) :
  is_detached (FeatureVsCoords_init f slice is_plus) = false ->
  feature_py_start (FeatureVsCoords_init f slice is_plus)
  < feature_py_end (FeatureVsCoords_init f slice is_plus) ->
  Coordinates.start slice <= Coordinates.end_ slice ->
  (classify (FeatureVsCoords_init f slice is_plus) = Some c
   <->
   interval_reading is_plus
     (feature_py_start (FeatureVsCoords_init f slice is_plus))
     (feature_py_end (FeatureVsCoords_init f slice is_plus))
     (Coordinates.start slice) (Coordinates.end_ slice) c).
Proof.
  intros Hdet Hne Hslice. unfold classify. rewrite Hdet.
  questions_unfold.
  destruct is_plus; simpl in *;
    repeat match goal with
    | |- context [if ?b then _ else _] => destruct b eqn:?
    end;
    bool_cases; destruct c; simpl;
    (split; [intros [=] | intros ?]); try done; try lia.
Qed.

(** X2, witness: the feature at [200,500) against the slice [0,400)
    overlaps the downstream border, and 400 falls strictly inside it. *)
Lemma classify_interval_reading_witness :
  classify (FeatureVsCoords_init (plus_feature 200 500 [10%nat]) slice_0_400
              true)
  = Some overlaps_downstream_of
  <-> interval_reading true 200 500 0 400 overlaps_downstream_of.
Proof.
  apply (classify_interval_reading (plus_feature 200 500 [10%nat])
           slice_0_400 true overlaps_downstream_of).
  - reflexivity.
  - simpl. lia.
  - simpl. lia.
Defined.

(** X3.  The five geometric questions of [FeatureVsCoords], asked of an
    interval that is not empty and a slice whose end is not before its
    start, exclude one another, but for the two overlaps: these hold
    together exactly when the interval reaches strictly beyond both ends
    of the slice. *)
Theorem questions_exclusive (f : Feature.t) (slice : Coordinates.t)
    (is_plus : bool) :
  feature_py_start (FeatureVsCoords_init f slice is_plus)
  < feature_py_end (FeatureVsCoords_init f slice is_plus) ->
  Coordinates.start slice <= Coordinates.end_ slice ->
  (forall c c',
     c <> detached -> c' <> detached -> c <> c' ->
     holds c (FeatureVsCoords_init f slice is_plus) = true ->
     holds c' (FeatureVsCoords_init f slice is_plus) = true ->
     (c = overlaps_upstream_of /\ c' = overlaps_downstream_of \/
      c = overlaps_downstream_of /\ c' = overlaps_upstream_of)) /\
  (overlaps_upstream (FeatureVsCoords_init f slice is_plus)
   && overlaps_downstream (FeatureVsCoords_init f slice is_plus) = true
   <->
   feature_py_start (FeatureVsCoords_init f slice is_plus)
   < Coordinates.start slice /\
   Coordinates.end_ slice
   < feature_py_end (FeatureVsCoords_init f slice is_plus)).
Proof.
  intros Hne Hslice. split.
  - intros c c' Hc Hc' Hcc' H1 H2.
    destruct c, c'; try done; simpl in H1, H2; questions_unfold;
      try (left; done); try (right; done);
      exfalso; destruct is_plus; simpl in *; bool_cases; lia.
  - questions_unfold.
    rewrite andb_true_iff.
    destruct is_plus; simpl in *;
      rewrite !andb_true_iff, !Z.ltb_lt; lia.
Qed.

(** X3, witness: the feature at [200,500) against the slice [300,400)
    reaches beyond both ends and both overlaps hold. *)
Lemma questions_exclusive_witness :
  overlaps_upstream
    (FeatureVsCoords_init (plus_feature 200 500 [10%nat])
       (Coordinates.mk 5 1 300 400) true)
  && overlaps_downstream
       (FeatureVsCoords_init (plus_feature 200 500 [10%nat])
          (Coordinates.mk 5 1 300 400) true) = true.
Proof.
  apply (questions_exclusive (plus_feature 200 500 [10%nat])
           (Coordinates.mk 5 1 300 400) true); simpl; lia.
Defined.

(** * Further properties of the caller's double check *)

(** X4.  The double check of [modify4slice] against the classifier.  For a
    feature on the slice's sequence and strand, with an interval that is
    not empty, and a slice whose end is not before its start: the check
    passes a feature that is upstream or overlaps the upstream border; it
    fails one that is contained or overlaps the downstream border; and it
    fails a downstream feature exactly when the feature begins at the cut
    point, right where the slice ends, because the check takes the
    slice's end as within the slice. *)
Theorem double_check_vs_classifier (f : Feature.t) (slice : Coordinates.t)
    (is_plus : bool) (c : Classification) :
  classify (FeatureVsCoords_init f slice is_plus) = Some c ->
  c <> detached ->
  feature_py_start (FeatureVsCoords_init f slice is_plus)
  < feature_py_end (FeatureVsCoords_init f slice is_plus) ->
  Coordinates.start slice <= Coordinates.end_ slice ->
  (outside_slice slice is_plus f = false
   <->
   c = contained \/ c = overlaps_downstream_of \/
   (c = downstream /\ Feature.start f = down_at slice is_plus)).
Proof.
  intros Hclass Hc Hne Hslice.
  destruct (classify_first_match _ _ Hclass) as [Hholds Hbefore].
  assert (Hup : forall c', (rank c' < rank c)%nat ->
            holds c' (FeatureVsCoords_init f slice is_plus) = false)
    by exact Hbefore.
  unfold outside_slice, down_at.
  destruct c; try done; simpl in Hholds;
    try pose proof (Hup upstream ltac:(simpl; lia)) as Hu;
    try pose proof (Hup overlaps_upstream_of ltac:(simpl; lia)) as Hou;
    try pose proof (Hup contained ltac:(simpl; lia)) as Hco;
    try pose proof (Hup overlaps_downstream_of ltac:(simpl; lia)) as Hod;
    clear Hup Hbefore Hclass; simpl in *; questions_unfold;
    destruct is_plus; simpl in *;
    rewrite negb_false_iff, andb_true_iff, !Z.leb_le;
    bool_cases;
    (split; [intros ? | intros [? | [? | [? ?]]]]);
    try discriminate; try lia;
    try (left; done); try (right; left; done);
    try (right; right; split; [done | lia]).
Qed.

(** X4, witness: a plus-strand feature at [400,500) is downstream of the
    slice [0,400), begins at the cut point 400, and fails the check. *)
Lemma double_check_vs_classifier_witness :
  outside_slice slice_0_400 true (plus_feature 400 500 [10%nat]) = false.
Proof.
  apply (double_check_vs_classifier (plus_feature 400 500 [10%nat])
           slice_0_400 true downstream).
  - reflexivity.
  - discriminate.
  - simpl. lia.
  - simpl. lia.
  - right. right. split; reflexivity.
Defined.

(** The turn of [modify4slice] at a transcript in whose walk no group is
    contained or crosses the downstream border. *)
Lemma modify4slice_nothing_seen
    (transition_5p_to_3p : State -> nat -> list (list nat * nat))
    (transcribed : nat) (new_coords : Coordinates.t) (is_plus : bool)
    (st : State) :
  (forall item,
     item ∈ transition_5p_to_3p (TranscriptTrimmer_init transcribed st)
              transcribed ->
     exists c,
       group_classification (TranscriptTrimmer_init transcribed st)
         new_coords is_plus item = Some c /\
       sets_seen c = false) ->
  modify4slice transition_5p_to_3p [transcribed] new_coords is_plus st
  = (if double_check (TranscriptTrimmer_init transcribed st) transcribed
          new_coords is_plus
     then Ok tt else Raise (AssertionError feature_within_slice),
     TranscriptTrimmer_init transcribed st).
Proof.
  intros Hall.
  set (st0 := TranscriptTrimmer_init transcribed st) in *.
  assert (Hnf : modify4new_slice (transition_5p_to_3p st0 transcribed)
                  new_coords is_plus st0
                = (Raise NoFeaturesInSliceError, st0)).
  { unfold modify4new_slice.
    by rewrite (bind_ok _ _ _ _ _ (walk_unseen _ _ _ st0 false Hall)). }
  unfold modify4slice. simpl for_each.
  match goal with |- (?body ;; mret tt) st = _ =>
    assert (Hbody : body st
      = (if double_check st0 transcribed new_coords is_plus
         then Ok tt else Raise (AssertionError feature_within_slice), st0))
  end.
  { rewrite (bind_ok (modify _) _ st st0 tt) by done.
    rewrite (bind_ok get _ st0 st0 st0) by done.
    unfold try_except. rewrite Hnf. rewrite decide_True by done.
    apply double_check_run. }
  destruct (double_check st0 transcribed new_coords is_plus).
  - by rewrite (bind_ok _ _ _ _ _ Hbody).
  - by rewrite (bind_raise _ _ _ _ _ Hbody).
Qed.

Lemma piece_features_elem_of (st : State) (piece k : nat) (f : Feature.t) :
  features st !! k = Some f -> piece ∈ Feature.transcribed_pieces f ->
  k ∈ piece_features st piece.
Proof.
  intros Hf Hin. unfold piece_features. apply list_elem_of_fmap.
  exists (k, f). split; [done |].
  apply elem_of_map_to_list. by apply map_lookup_filter_Some.
Qed.

(** X5.  A transcript that lies downstream of the slice and begins right
    where the slice ends stops [modify4slice].  If no group of the
    transcript's walk is contained or crosses the downstream border, and a
    feature on one of the transcript's pieces, on the strand at hand,
    starts at the cut point ([new_coords.end] on the plus strand,
    [new_coords.start - 1] on the minus strand), then [modify4slice]
    raises the [AssertionError] of its double check, having changed
    nothing but the trimmer. *)
Theorem modify4slice_adjacent_downstream
    (transition_5p_to_3p : State -> nat -> list (list nat * nat))
    (transcribed : nat) (new_coords : Coordinates.t) (is_plus : bool)
    (st : State) (piece k : nat) (p : TranscribedPiece.t) (f : Feature.t) :
  (forall item,
     item ∈ transition_5p_to_3p (TranscriptTrimmer_init transcribed st)
              transcribed ->
     exists c,
       group_classification (TranscriptTrimmer_init transcribed st)
         new_coords is_plus item = Some c /\
       sets_seen c = false) ->
  pieces st !! piece = Some p ->
  TranscribedPiece.transcribed p = transcribed ->
  features st !! k = Some f ->
  piece ∈ Feature.transcribed_pieces f ->
  Feature.is_plus_strand f = is_plus ->
  Feature.start f = down_at new_coords is_plus ->
  Coordinates.start new_coords <= Coordinates.end_ new_coords ->
  modify4slice transition_5p_to_3p [transcribed] new_coords is_plus st
  = (Raise (AssertionError feature_within_slice),
     TranscriptTrimmer_init transcribed st).
Proof.
  intros Hall Hp Ht Hf Hin Hstrand Hstart Hslice.
  rewrite modify4slice_nothing_seen by done.
  set (st0 := TranscriptTrimmer_init transcribed st) in *.
  destruct (double_check st0 transcribed new_coords is_plus) eqn:Hcheck;
    [exfalso | done].
  unfold double_check in Hcheck.
  rewrite forallb_forall in Hcheck.
  assert (Hpiece : piece ∈ transcribed_pieces st0 transcribed).
  { apply elem_of_transcribed_pieces. by exists p. }
  apply list_elem_of_In in Hpiece.
  specialize (Hcheck piece Hpiece). rewrite forallb_forall in Hcheck.
  assert (Hk : k ∈ piece_features st0 piece)
    by by apply (piece_features_elem_of st0 piece k f).
  apply list_elem_of_In in Hk.
  specialize (Hcheck k Hk). simpl in Hcheck. rewrite Hf in Hcheck.
  rewrite Hstrand, eqb_reflx in Hcheck.
  unfold outside_slice, down_at in *.
  destruct is_plus; bool_cases; lia.
Qed.

(** X5, witness: the transcript of one feature at [400,500), against the
    slice [0,400). *)
Lemma modify4slice_adjacent_downstream_witness :
  modify4slice (fun _ _ => [([1%nat], 10%nat)]) [7%nat] slice_0_400 true
    adjacent_downstream
  = (Raise (AssertionError feature_within_slice),
     TranscriptTrimmer_init 7 adjacent_downstream).
Proof.
  apply (modify4slice_adjacent_downstream (fun _ _ => [([1%nat], 10%nat)])
           7 slice_0_400 true adjacent_downstream 10 1
           (TranscribedPiece.mk 7 0) (plus_feature 400 500 [10%nat])).
  - intros item Hin. apply list_elem_of_singleton in Hin as ->.
    exists downstream. split; reflexivity.
  - reflexivity.
  - reflexivity.
  - reflexivity.
  - apply list_elem_of_here.
  - reflexivity.
  - reflexivity.
  - simpl. lia.
Defined.

(** * Further properties of [modify4slice] *)

Lemma never_raises_try_except {A : Type} (e e0 : exn) (m handler : M A) :
  (e <> e0 -> never_raises e m) -> never_raises e handler ->
  never_raises e (try_except m e0 handler).
Proof.
  intros Hm Hh st. unfold try_except.
  destruct (m st) as [[a | e'] st'] eqn:Hrun; [done |].
  case_decide as He.
  - apply Hh.
  - simpl. intros [= ->]. apply (Hm He st). by rewrite Hrun.
Qed.

Lemma never_raises_modify4new_slice (e : exn)
    (transition_gen : list (list nat * nat)) (new_coords : Coordinates.t)
    (is_plus : bool) :
  e <> InvalidReference -> e <> ValueError -> e <> IndexError ->
  e <> AssertionError old_piece_not_in_pieces ->
  e <> NoFeaturesInSliceError ->
  never_raises e (modify4new_slice transition_gen new_coords is_plus).
Proof.
  intros H1 H2 H3 H4 H5. unfold modify4new_slice.
  apply never_raises_bind; [by apply never_raises_walk |].
  intros [seen border]. destruct seen; simpl; never_step.
Qed.

(** X6.  [modify4slice] never lets [NoFeaturesInSliceError] out: the error
    of a transcript is caught, and the double check that follows raises
    nothing but its own [AssertionError]; nor does it ever raise the
    [AssertionError] of the final [else] of the chain. *)
Theorem modify4slice_catches
    (transition_5p_to_3p : State -> nat -> list (list nat * nat))
    (transcribeds : list nat) (new_coords : Coordinates.t)
    (is_plus : bool) (st : State) :
  fst (modify4slice transition_5p_to_3p transcribeds new_coords is_plus st)
    <> Raise NoFeaturesInSliceError /\
  fst (modify4slice transition_5p_to_3p transcribeds new_coords is_plus st)
    <> Raise (AssertionError unreachable_code).
Proof.
  assert (H : forall e,
    e = NoFeaturesInSliceError \/ e = AssertionError unreachable_code ->
    never_raises e
      (modify4slice transition_5p_to_3p transcribeds new_coords is_plus)).
  { intros e He. unfold modify4slice.
    assert (e <> InvalidReference) by (destruct He; congruence).
    assert (e <> AssertionError feature_within_slice)
      by (destruct He; congruence).
    repeat never_step.
    apply never_raises_try_except.
    - intros Hne. apply never_raises_modify4new_slice;
        destruct He; congruence.
    - repeat never_step.
      destruct (eqb is_plus (Feature.is_plus_strand a3));
        [| never_step].
      destruct is_plus; never_step. }
  split; apply H; auto.
Qed.

Lemma modify4slice_cons
    (transition_5p_to_3p : State -> nat -> list (list nat * nat))
    (transcribed : nat) (transcribeds : list nat)
    (new_coords : Coordinates.t) (is_plus : bool) (st : State) :
  modify4slice transition_5p_to_3p (transcribed :: transcribeds) new_coords
    is_plus st
  = (modify4slice transition_5p_to_3p [transcribed] new_coords is_plus ;;
     modify4slice transition_5p_to_3p transcribeds new_coords is_plus) st.
Proof.
  unfold modify4slice. simpl for_each. unfold mbind, M_bind.
  repeat match goal with
  | |- context [match ?x with _ => _ end] => destruct x eqn:?; simpl
  end; congruence.
Qed.

Lemma one_new_piece_per_transcript
    (transition_5p_to_3p : State -> nat -> list (list nat * nat))
    (transcribed : nat) (new_coords : Coordinates.t) (is_plus : bool)
    (st : State) :
  (size (pieces (snd (modify4slice transition_5p_to_3p [transcribed]
                        new_coords is_plus st)))
   <= size (pieces st) + 1)%nat.
Proof.
  unfold modify4slice. simpl for_each.
  set (st0 := TranscriptTrimmer_init transcribed st).
  pose proof (one_new_piece_per_call (transition_5p_to_3p st0 transcribed)
                new_coords is_plus st0 eq_refl) as Hcall.
  change (pieces st0) with (pieces st) in Hcall.
  unfold mbind at 1, M_bind at 1.
  rewrite (bind_ok (modify _) _ st st0 tt) by done.
  rewrite (bind_ok get _ st0 st0 st0) by done.
  unfold try_except.
  destruct (modify4new_slice (transition_5p_to_3p st0 transcribed)
              new_coords is_plus st0) as [[[] | e] st1]; simpl in *; [done |].
  case_decide; [| done].
  rewrite double_check_run.
  by destruct (double_check st1 transcribed new_coords is_plus).
Qed.

(** X7.  Each transcript gets a trimmer of its own, with no downstream
    piece memoized, so that [modify4slice] makes at most one new piece for
    each transcript of the super locus, whether it returns or raises. *)
Theorem modify4slice_pieces_budget
    (transition_5p_to_3p : State -> nat -> list (list nat * nat))
    (transcribeds : list nat) (new_coords : Coordinates.t)
    (is_plus : bool) (st : State) :
  (size (pieces (snd (modify4slice transition_5p_to_3p transcribeds
                        new_coords is_plus st)))
   <= size (pieces st) + length transcribeds)%nat.
Proof.
  revert st. induction transcribeds as [| t ts IH]; intros st.
  - unfold modify4slice. simpl. lia.
  - rewrite modify4slice_cons. unfold mbind, M_bind.
    pose proof (one_new_piece_per_transcript transition_5p_to_3p t
                  new_coords is_plus st) as H1.
    destruct (modify4slice transition_5p_to_3p [t] new_coords is_plus st)
      as [[[] | e] st1]; simpl in *.
    + specialize (IH st1). lia.
    + lia.
Qed.

(** * Further properties of [swap_list_item] *)

(** X8.  [swap_list_item] fails, with the [ValueError] of [list.index],
    exactly when the item to remove is not in the list; otherwise it gives
    the list with the replacement written at the first index of the item,
    and nowhere else, so that the length is kept and later occurrences of
    the item stay; and replacing an item by itself gives the list back. *)
Theorem swap_list_item_index (template_list : list nat)
    (replacement_item item_to_remove : nat) :
  (swap_list_item template_list replacement_item item_to_remove = None
   <-> item_to_remove ∉ template_list) /\
  (forall l',
     swap_list_item template_list replacement_item item_to_remove = Some l' ->
     exists i : nat,
       template_list !! i = Some item_to_remove /\
       (forall j : nat, (j < i)%nat ->
                        template_list !! j <> Some item_to_remove) /\
       l' = <[i := replacement_item]> template_list /\
       length l' = length template_list) /\
  (item_to_remove ∈ template_list ->
   swap_list_item template_list item_to_remove item_to_remove
   = Some template_list).
Proof.
  split; [| split].
  - induction template_list as [| x l IH]; simpl.
    + split; [intros _; apply not_elem_of_nil | done].
    + case_decide as Hx.
      * subst x. split; [done |]. intros Hni. exfalso. apply Hni.
        apply list_elem_of_here.
      * rewrite not_elem_of_cons, <- IH.
        destruct (swap_list_item l replacement_item item_to_remove);
          simpl; naive_solver.
  - induction template_list as [| x l IH]; intros l'; simpl; [done |].
    case_decide as Hx.
    + intros [= <-]. subst x. exists 0%nat.
      split; [done |]. split; [intros j Hj; lia |]. done.
    + destruct (swap_list_item l replacement_item item_to_remove)
        as [l'' |]; simpl; [| done].
      intros [= <-].
      destruct (IH l'' eq_refl) as (i & Hi & Hfirst & -> & Hlen).
      exists (S i). split; [done |]. split.
      * intros [| j] Hj; simpl; [congruence |]. apply Hfirst. lia.
      * split; [done |]. simpl. by rewrite Hlen.
  - induction template_list as [| x l IH]; intros Hin;
      [by apply elem_of_nil in Hin |].
    simpl. case_decide as Hx; [by subst |].
    rewrite IH; [done |].
    apply elem_of_cons in Hin as [-> | Hin]; done.
Qed.

(** X9.  Swapping back.  If the old item is in the list and the new one is
    not, [swap_list_item] puts the new item in, and swapping the old item
    back for the new one gives the list as it was. *)
Theorem swap_list_item_round_trip (template_list : list nat)
    (new old : nat) :
  old ∈ template_list -> new ∉ template_list ->
  exists l',
    swap_list_item template_list new old = Some l' /\
    new ∈ l' /\
    swap_list_item l' old new = Some template_list.
Proof.
  induction template_list as [| x l IH]; intros Hin Hni;
    [by apply elem_of_nil in Hin |].
  apply not_elem_of_cons in Hni as [Hnx Hnl].
  simpl. case_decide as Hx.
  - subst x. exists (new :: l). split; [done |].
    split; [apply list_elem_of_here |].
    simpl. by rewrite decide_True.
  - apply elem_of_cons in Hin as [-> | Hin]; [done |].
    destruct (IH Hin Hnl) as (l' & -> & Hnew & Hback).
    exists (x :: l'). split; [done |].
    split; [by apply list_elem_of_further |].
    simpl. rewrite decide_False by done. by rewrite Hback.
Qed.

(** X9, witness: piece 11 for piece 10 among the pieces 9, 10, 12, and
    back. *)
Lemma swap_list_item_round_trip_witness :
  exists l',
    swap_list_item [9; 10; 12]%nat 11 10 = Some l' /\
    (11%nat) ∈ l' /\
    swap_list_item l' 10 11 = Some [9; 10; 12]%nat.
Proof.
  apply (swap_list_item_round_trip [9; 10; 12]%nat 11 10).
  - apply list_elem_of_further, list_elem_of_here.
  - intros H. repeat (apply elem_of_cons in H as [H | H]; [discriminate |]).
    by apply elem_of_nil in H.
Defined.

(** * Further properties of the interval trees *)

Lemma load_to_intervaltree_refused (st : State) (self : nat)
    (data : Feature.t) :
  features st !! self = Some data ->
  snd (py_interval data) <= fst (py_interval data) ->
  load_to_intervaltree self st
  = (Raise ValueError,
     set_trees
       (<[Coordinates.seqid (Feature.coordinate data) :=
            tree_of st (Coordinates.seqid (Feature.coordinate data))]>
          (trees st)) st).
Proof.
  intros Hd Hge. unfold load_to_intervaltree.
  rewrite (bind_ok _ _ _ _ _ (get_feature_ok _ _ _ Hd)).
  rewrite (bind_ok get _ st st st) by done.
  unfold py_interval in *.
  destruct (Feature.is_plus_strand data); simpl in *;
    apply Z.ltb_ge in Hge; by rewrite Hge.
Qed.

Lemma same_but_trees_set (st : State) (t : gmap Z (gset Interval)) :
  same_but_trees st (set_trees t st).
Proof. by destruct st. Qed.

(** X10.  [FeatureHandler.load_to_intervaltree] succeeds exactly when the
    adjusted interval of the feature is not empty, and then the tree of the
    feature's sequence holds the interval with the feature as its data,
    beside all it held; on an empty or inverted interval it raises
    [ValueError] and files nothing.  Either way the sequence has a tree
    afterwards (a new, empty one if it had none), the trees of the other
    sequences are as they were, and nothing but the trees has changed. *)
Theorem load_to_intervaltree_outcome (st : State) (self : nat)
    (data : Feature.t) :
  features st !! self = Some data ->
  exists st',
    load_to_intervaltree self st
    = (if bool_decide (fst (py_interval data) < snd (py_interval data))
       then Ok tt else Raise ValueError, st') /\
    same_but_trees st st' /\
    (forall s, s <> Coordinates.seqid (Feature.coordinate data) ->
               trees st' !! s = trees st !! s) /\
    trees st' !! Coordinates.seqid (Feature.coordinate data)
    = Some (if bool_decide (fst (py_interval data) < snd (py_interval data))
            then {[ interval_of self data ]}
                 ∪ tree_of st (Coordinates.seqid (Feature.coordinate data))
            else tree_of st (Coordinates.seqid (Feature.coordinate data))).
Proof.
  intros Hd. case_bool_decide as Hlt.
  - rewrite (load_to_intervaltree_spec _ _ _ Hd Hlt).
    eexists. split; [reflexivity |].
    split; [apply same_but_trees_set |]. simpl.
    split; [intros s Hs; by rewrite lookup_insert_ne |].
    by rewrite lookup_insert_eq.
  - rewrite (load_to_intervaltree_refused _ _ _ Hd) by lia.
    eexists. split; [reflexivity |].
    split; [apply same_but_trees_set |]. simpl.
    split; [intros s Hs; by rewrite lookup_insert_ne |].
    by rewrite lookup_insert_eq.
Qed.

(** X10, witness: the feature at [200,500) of the scenario is filed under
    sequence 1. *)
Lemma load_to_intervaltree_outcome_witness :
  exists st',
    load_to_intervaltree 2 scenario = (Ok tt, st') /\
    trees st' !! 1 = Some {[ (200, 500, 2%nat) ]}.
Proof.
  destruct (load_to_intervaltree_outcome scenario 2
              (plus_feature 200 500 [10%nat]) eq_refl)
    as (st' & Hrun & _ & _ & Htree).
  exists st'. split; [exact Hrun |].
  etransitivity; [exact Htree |].
  rewrite bool_decide_eq_true_2 by (simpl; lia).
  unfold tree_of, interval_of. simpl. rewrite lookup_empty. simpl.
  reflexivity.
Defined.

(** X11.  Loading a feature twice is loading it once: the tree is a set
    of intervals, and the second call finds the interval there. *)
Theorem load_to_intervaltree_idempotent (st : State) (self : nat) :
  (load_to_intervaltree self ;; load_to_intervaltree self) st
  = load_to_intervaltree self st.
Proof.
  destruct (features st !! self) as [data |] eqn:Hd.
  - destruct (decide (fst (py_interval data) < snd (py_interval data)))
      as [Hlt | Hge].
    + rewrite (bind_ok _ _ _ _ _ (load_to_intervaltree_spec _ _ _ Hd Hlt)).
      rewrite (load_to_intervaltree_spec _ _ _ Hd Hlt).
      rewrite (load_to_intervaltree_spec _ self data) by done.
      simpl. rewrite lookup_insert_eq. simpl.
      rewrite insert_insert_eq.
      by rewrite (assoc_L (∪)), (idemp_L (∪)).
    + assert (Hge' : snd (py_interval data) <= fst (py_interval data))
        by lia.
      rewrite (bind_raise _ _ _ _ _
                 (load_to_intervaltree_refused _ _ _ Hd Hge')).
      by rewrite (load_to_intervaltree_refused _ _ _ Hd Hge').
  - unfold load_to_intervaltree.
    assert (Hget : get_feature self st = (Raise InvalidReference, st)).
    { unfold get_feature. by rewrite Hd. }
    rewrite (bind_raise _ _ _ _ _ Hget).
    by rewrite (bind_raise _ _ _ _ _ (bind_raise _ _ _ _ _ Hget)).
Qed.

(** X12.  The order in which two features with intervals that are not
    empty are loaded does not matter. *)
Theorem load_to_intervaltree_commutes (st : State) (f g : nat)
    (df dg : Feature.t) :
  features st !! f = Some df -> features st !! g = Some dg ->
  fst (py_interval df) < snd (py_interval df) ->
  fst (py_interval dg) < snd (py_interval dg) ->
  (load_to_intervaltree f ;; load_to_intervaltree g) st
  = (load_to_intervaltree g ;; load_to_intervaltree f) st.
Proof.
  intros Hf Hg Hlf Hlg.
  rewrite (bind_ok _ _ _ _ _ (load_to_intervaltree_spec _ _ _ Hf Hlf)).
  rewrite (bind_ok _ _ _ _ _ (load_to_intervaltree_spec _ _ _ Hg Hlg)).
  rewrite (load_to_intervaltree_spec _ g dg) by done.
  rewrite (load_to_intervaltree_spec _ f df) by done.
  simpl. f_equal. unfold set_trees. simpl. f_equal.
  destruct (decide (Coordinates.seqid (Feature.coordinate df)
                    = Coordinates.seqid (Feature.coordinate dg)))
    as [Heq | Hne].
  - rewrite Heq, !lookup_insert_eq, !insert_insert_eq. simpl.
    f_equal. apply leibniz_equiv. set_solver.
  - rewrite !lookup_insert_ne by done.
    by rewrite insert_insert_ne.
Qed.

(** X12, witness: the first two features of the scenario, either way
    round. *)
Lemma load_to_intervaltree_commutes_witness :
  (load_to_intervaltree 1 ;; load_to_intervaltree 2) scenario
  = (load_to_intervaltree 2 ;; load_to_intervaltree 1) scenario.
Proof.
  apply (load_to_intervaltree_commutes scenario 1 2
           (plus_feature 100 200 [10%nat]) (plus_feature 200 500 [10%nat]));
    first [reflexivity | simpl; lia].
Defined.

Lemma set_trees_twice (t t' : gmap Z (gset Interval)) (st : State) :
  set_trees t (set_trees t' st) = set_trees t st.
Proof. done. Qed.

Lemma tree_of_loaded (st : State) (k : nat) (d : Feature.t) (s : Z)
    (i : Interval) :
  i ∈ tree_of
        (set_trees
           (<[Coordinates.seqid (Feature.coordinate d) :=
                {[ interval_of k d ]}
                ∪ tree_of st (Coordinates.seqid (Feature.coordinate d))]>
              (trees st)) st) s
  <-> i ∈ tree_of st s \/
      (s = Coordinates.seqid (Feature.coordinate d) /\ i = interval_of k d).
Proof.
  unfold tree_of at 1. simpl.
  destruct (decide (s = Coordinates.seqid (Feature.coordinate d)))
    as [-> | Hne].
  - rewrite lookup_insert_eq. simpl. set_solver.
  - rewrite lookup_insert_ne by done. fold (tree_of st s). naive_solver.
Qed.

(** The loop of [SuperLocusHandler.load_to_intervaltree] over features
    with intervals that are not empty. *)
Lemma load_all (l : list nat) :
  forall st : State,
    (forall k, k ∈ l ->
       exists d, features st !! k = Some d /\
                 fst (py_interval d) < snd (py_interval d)) ->
    exists st',
      for_each l (fun f => load_to_intervaltree f) st = (Ok tt, st') /\
      same_but_trees st st' /\
      (forall s i,
         i ∈ tree_of st' s <->
         i ∈ tree_of st s \/
         exists k d, k ∈ l /\ features st !! k = Some d /\
                     s = Coordinates.seqid (Feature.coordinate d) /\
                     i = interval_of k d).
Proof.
  induction l as [| k l IH]; intros st Hall.
  - exists st. split; [done |]. split; [by destruct st |].
    intros s i. split; [by left |].
    intros [? | (k & d & Hk & _)]; [done | by apply elem_of_nil in Hk].
  - destruct (Hall k (list_elem_of_here _ _)) as (d & Hd & Hlt).
    simpl. rewrite (bind_ok _ _ _ _ _ (load_to_intervaltree_spec _ _ _ Hd Hlt)).
    fold (interval_of k d).
    fold (tree_of st (Coordinates.seqid (Feature.coordinate d))).
    match goal with |- context [for_each l _ ?s] => set (st1 := s) end.
    destruct (IH st1) as (st' & Hrun & Hsame & Htrees).
    { intros k' Hk'. apply Hall. by apply list_elem_of_further. }
    exists st'. split; [done |]. split.
    { unfold same_but_trees in *. rewrite Hsame. by destruct st. }
    intros s i. rewrite Htrees. unfold st1 at 1. rewrite tree_of_loaded.
    change (features st1) with (features st).
    split.
    + intros [[? | [-> ->]] | (k' & d' & Hk' & Hd' & -> & ->)].
      * by left.
      * right. exists k, d. split; [apply list_elem_of_here | done].
      * right. exists k', d'. split; [by apply list_elem_of_further | done].
    + intros [? | (k' & d' & Hk' & Hd' & -> & ->)]; [by left; left |].
      apply elem_of_cons in Hk' as [-> | Hk'].
      * assert (d' = d) as -> by congruence. left. by right.
      * right. by exists k', d'.
Qed.

(** The loop stops with [ValueError] at the first empty interval. *)
Lemma load_all_refused (l : list nat) :
  forall st : State,
    (forall k, k ∈ l -> is_Some (features st !! k)) ->
    (exists k d, k ∈ l /\ features st !! k = Some d /\
                 snd (py_interval d) <= fst (py_interval d)) ->
    fst (for_each l (fun f => load_to_intervaltree f) st) = Raise ValueError.
Proof.
  induction l as [| k l IH]; intros st Hall (k' & d' & Hk' & Hd' & Hge).
  - by apply elem_of_nil in Hk'.
  - destruct (Hall k (list_elem_of_here _ _)) as [d Hd].
    destruct (decide (fst (py_interval d) < snd (py_interval d)))
      as [Hlt | Hnlt].
    + simpl.
      rewrite (bind_ok _ _ _ _ _ (load_to_intervaltree_spec _ _ _ Hd Hlt)).
      apply IH.
      * intros k'' Hk''. simpl. apply Hall. by apply list_elem_of_further.
      * apply elem_of_cons in Hk' as [-> | Hk'].
        -- assert (d' = d) as -> by congruence. lia.
        -- by exists k', d'.
    + simpl. erewrite bind_raise; [done |].
      apply load_to_intervaltree_refused; [done | lia].
Qed.

Lemma elem_of_SuperLocusHandler_features (st : State)
    (transcribeds : list nat) (k : nat) :
  k ∈ SuperLocusHandler.features st transcribeds <->
  exists transcript piece p d,
    transcript ∈ transcribeds /\
    pieces st !! piece = Some p /\
    TranscribedPiece.transcribed p = transcript /\
    features st !! k = Some d /\
    piece ∈ Feature.transcribed_pieces d.
Proof.
  unfold SuperLocusHandler.features. rewrite list_elem_of_bind. split.
  - intros (t & Hk & Ht). apply list_elem_of_bind in Hk as (piece & Hk & Hp).
    apply elem_of_transcribed_pieces in Hp as (p & Hp & Htp).
    apply elem_of_piece_features in Hk as (d & Hd & Hin).
    by exists t, piece, p, d.
  - intros (t & piece & p & d & Ht & Hp & Htp & Hd & Hin).
    exists t. split; [| done]. apply list_elem_of_bind.
    exists piece. split; [by eapply piece_features_elem_of |].
    apply elem_of_transcribed_pieces. by exists p.
Qed.

Lemma interval_dec (st : State) (k : nat) :
  {forall d, features st !! k = Some d ->
             fst (py_interval d) < snd (py_interval d)}
  + {exists d, features st !! k = Some d /\
               snd (py_interval d) <= fst (py_interval d)}.
Proof.
  destruct (features st !! k) as [d |].
  - destruct (decide (fst (py_interval d) < snd (py_interval d))).
    + left. by intros d' [= <-].
    + right. exists d. split; [done | lia].
  - left. intros d' [=].
Qed.

(** X13.  [SuperLocusHandler.features] yields the features that are on a
    piece of a transcript of the super locus.
    [SuperLocusHandler.load_to_intervaltree] succeeds exactly when none of
    them has an empty adjusted interval, and raises [ValueError]
    otherwise; when it succeeds, the trees hold what they held and, for
    each of these features, its interval in the tree of its sequence, and
    nothing else; and nothing but the trees and the handler holder has
    changed. *)
Theorem SuperLocusHandler_load_to_intervaltree_outcome
    (make_all_handlers : list nat -> list nat) (transcribeds : list nat)
    (st : State) :
  (forall k,
     k ∈ SuperLocusHandler.features st transcribeds <->
     exists transcript piece p d,
       transcript ∈ transcribeds /\
       pieces st !! piece = Some p /\
       TranscribedPiece.transcribed p = transcript /\
       features st !! k = Some d /\
       piece ∈ Feature.transcribed_pieces d) /\
  (fst (SuperLocusHandler.load_to_intervaltree make_all_handlers
          transcribeds st) = Ok tt
   <->
   forall k d,
     k ∈ SuperLocusHandler.features st transcribeds ->
     features st !! k = Some d ->
     fst (py_interval d) < snd (py_interval d)) /\
  (fst (SuperLocusHandler.load_to_intervaltree make_all_handlers
          transcribeds st) <> Ok tt ->
   fst (SuperLocusHandler.load_to_intervaltree make_all_handlers
          transcribeds st) = Raise ValueError) /\
  (fst (SuperLocusHandler.load_to_intervaltree make_all_handlers
          transcribeds st) = Ok tt ->
   same_but_trees
     (set_handler_holder (make_all_handlers (handler_holder st)) st)
     (snd (SuperLocusHandler.load_to_intervaltree make_all_handlers
             transcribeds st)) /\
   forall s i,
     i ∈ tree_of (snd (SuperLocusHandler.load_to_intervaltree
                         make_all_handlers transcribeds st)) s
     <->
     i ∈ tree_of st s \/
     exists k d,
       k ∈ SuperLocusHandler.features st transcribeds /\
       features st !! k = Some d /\
       s = Coordinates.seqid (Feature.coordinate d) /\
       i = interval_of k d).
Proof.
  split; [intros k; apply elem_of_SuperLocusHandler_features |].
  set (st0 := set_handler_holder (make_all_handlers (handler_holder st)) st).
  set (l := SuperLocusHandler.features st transcribeds).
  assert (Hrun : SuperLocusHandler.load_to_intervaltree make_all_handlers
                   transcribeds st
                 = for_each l (fun f => load_to_intervaltree f) st0).
  { unfold SuperLocusHandler.load_to_intervaltree.
    rewrite (bind_ok (modify _) _ st st0 tt) by done.
    by rewrite (bind_ok get _ st0 st0 st0). }
  rewrite Hrun.
  assert (Hexist : forall k, k ∈ l -> is_Some (features st0 !! k)).
  { intros k Hk. apply elem_of_SuperLocusHandler_features in Hk
      as (_ & _ & _ & d & _ & _ & _ & Hd & _). by exists d. }
  destruct (Forall_Exists_dec
              (fun k => forall d, features st !! k = Some d ->
                                  fst (py_interval d) < snd (py_interval d))
              (fun k => exists d, features st !! k = Some d /\
                                  snd (py_interval d) <= fst (py_interval d))
              (interval_dec st) l) as [Hgood | Hbad].
  - rewrite Forall_forall in Hgood.
    destruct (load_all l st0) as (st' & Hl & Hsame & Htrees).
    { intros k Hk. destruct (Hexist k Hk) as [d Hd].
      exists d. split; [done |]. by apply (Hgood k Hk). }
    rewrite Hl. simpl.
    split; [split; [intros _ k d Hk Hd; by apply (Hgood k Hk) | done] |].
    split; [done |].
    intros _. split; [done |]. exact Htrees.
  - apply Exists_exists in Hbad as (k & Hk & d & Hd & Hge).
    assert (Hfail : fst (for_each l (fun f => load_to_intervaltree f) st0)
                    = Raise ValueError).
    { apply load_all_refused; [done |]. by exists k, d. }
    rewrite Hfail.
    split; [split; [done |] |].
    { intros Hall. specialize (Hall k d Hk Hd). lia. }
    split; [done |]. done.
Qed.

(** * Further properties of the piece manager *)

(** X14.  [mk_new_piece] keeps the order of the transcript's pieces and
    puts the new piece right after the given one.  The new piece is under
    a key that no piece had, in the trimmer's transcript, at the position
    of the given piece plus one; the given piece is where it was; an old
    piece of the transcript at or before the position of the given piece
    stays where it is, below the new piece; an old piece beyond it moves
    up by one, above the new piece; so no other piece of the transcript
    shares the position of the new piece, and two old pieces are in the
    order they were in.  The new piece's handler is appended to the
    trimmer's handlers, and the features, the queue and the trees are left
    alone. *)
Theorem mk_new_piece_order (st : State) (piece : nat)
    (p : TranscribedPiece.t) :
  pieces st !! piece = Some p ->
  exists (new_piece : nat) (st' : State) (new : TranscribedPiece.t),
    mk_new_piece piece st = (Ok new_piece, st') /\
    handlers st' = handlers st ++ [new_piece] /\
    features st' = features st /\
    core_queue st' = core_queue st /\
    trees st' = trees st /\
    pieces st !! new_piece = None /\
    pieces st' !! new_piece = Some new /\
    TranscribedPiece.transcribed new = transcript st /\
    TranscribedPiece.position new = TranscribedPiece.position p + 1 /\
    pieces st' !! piece = Some p /\
    (forall k x',
       k <> new_piece -> pieces st' !! k = Some x' ->
       TranscribedPiece.transcribed x' = transcript st ->
       TranscribedPiece.position x' <> TranscribedPiece.position new) /\
    (forall k x,
       pieces st !! k = Some x ->
       TranscribedPiece.transcribed x = transcript st ->
       exists x',
         pieces st' !! k = Some x' /\
         (TranscribedPiece.position x <= TranscribedPiece.position p ->
          x' = x /\
          TranscribedPiece.position x' < TranscribedPiece.position new) /\
         (TranscribedPiece.position p < TranscribedPiece.position x ->
          TranscribedPiece.position x' = TranscribedPiece.position x + 1 /\
          TranscribedPiece.position new < TranscribedPiece.position x')) /\
    (forall k1 k2 x1 x2 x1' x2',
       pieces st !! k1 = Some x1 -> pieces st !! k2 = Some x2 ->
       TranscribedPiece.transcribed x1 = transcript st ->
       TranscribedPiece.transcribed x2 = transcript st ->
       pieces st' !! k1 = Some x1' -> pieces st' !! k2 = Some x2' ->
       (TranscribedPiece.position x1 < TranscribedPiece.position x2
        <-> TranscribedPiece.position x1' < TranscribedPiece.position x2')).
Proof.
  intros Hp. rewrite (mk_new_piece_spec _ _ _ Hp).
  eexists _, _, _. split; [reflexivity |]. simpl.
  fold (pieces_after_split st p).
  split; [done |]. split; [done |]. split; [done |]. split; [done |].
  split; [apply fresh_piece_is_new |].
  split; [unfold pieces_after_split; apply lookup_insert_eq |].
  split; [done |]. split; [done |].
  assert (Hold : forall k x,
    pieces st !! k = Some x ->
    TranscribedPiece.transcribed x = transcript st ->
    pieces_after_split st p !! k
    = Some (bump_position (TranscribedPiece.position p) x)).
  { intros k x Hk Ht. rewrite (pieces_after_split_old _ _ x) by done.
    unfold bumped. by rewrite decide_True. }
  split.
  { rewrite (pieces_after_split_old _ _ p) by done.
    unfold bumped. case_decide; [by rewrite bump_position_self | done]. }
  split.
  { intros k x' Hne Hk Ht. simpl.
    apply pieces_after_split_inv in Hk as [[-> _] | (x & Hx & ->)];
      [done |].
    rewrite bumped_transcribed in Ht.
    destruct (bumped_position (transcript st) (TranscribedPiece.position p)
                x Ht) as [[? ->] | [? ->]]; lia. }
  split.
  - intros k x Hk Ht. eexists. split; [by apply Hold |].
    unfold bump_position.
    destruct (TranscribedPiece.position x >? TranscribedPiece.position p)
      eqn:E; rewrite Z.gtb_ltb in E; bool_arith; simpl; split; intros ?;
      try lia; split; (done || lia).
  - intros k1 k2 x1 x2 x1' x2' H1 H2 Ht1 Ht2 H1' H2'.
    rewrite (Hold _ _ H1 Ht1) in H1'. rewrite (Hold _ _ H2 Ht2) in H2'.
    injection H1' as <-. injection H2' as <-.
    unfold bump_position.
    destruct (TranscribedPiece.position x1 >? TranscribedPiece.position p)
      eqn:E1;
      destruct (TranscribedPiece.position x2 >? TranscribedPiece.position p)
        eqn:E2;
      rewrite Z.gtb_ltb in E1, E2; bool_arith; simpl; lia.
Qed.

(** X14, witness: in the transcript with pieces at 0, 1, 2, a split after
    the first puts the new piece at 1, leaves the first at 0 and moves the
    second to 2. *)
Lemma mk_new_piece_order_witness :
  exists (new_piece : nat) (st' : State) (new : TranscribedPiece.t),
    mk_new_piece 10 three_pieces = (Ok new_piece, st') /\
    handlers st' = [new_piece] /\
    pieces st' !! new_piece = Some new /\
    TranscribedPiece.position new = 1 /\
    pieces st' !! 10%nat = Some (TranscribedPiece.mk 7 0) /\
    exists x', pieces st' !! 11%nat = Some x' /\
               TranscribedPiece.position x' = 2.
Proof.
  destruct (mk_new_piece_order three_pieces 10 (TranscribedPiece.mk 7 0)
              eq_refl)
    as (np & st' & new & Hrun & Hh & _ & _ & _ & _ & Hnew & _ & Hpos & Hgiven
        & _ & Hold & _).
  exists np, st', new. split; [exact Hrun |]. split; [exact Hh |].
  split; [exact Hnew |]. split; [exact Hpos |]. split; [exact Hgiven |].
  destruct (Hold 11%nat (TranscribedPiece.mk 7 1) eq_refl eq_refl)
    as (x' & Hx' & _ & Hup).
  exists x'. split; [exact Hx' |].
  apply Hup. simpl. lia.
Defined.

(** * Further properties of the border split *)

Lemma downstream_empty_interval (d : Z) (oc : Coordinates.t)
    (ps : list nat) (t : Feature.t) :
  ~ downstream_nonempty d t ->
  snd (py_interval (downstream_kwargs d oc ps t))
  <= fst (py_interval (downstream_kwargs d oc ps t)).
Proof.
  unfold downstream_nonempty, py_interval. simpl.
  destruct (Feature.is_plus_strand t); simpl; lia.
Qed.

Lemma set_status_downstream_border_asserts (st : State)
    (new_coords old_coords : Coordinates.t) (is_plus : bool)
    (template_feature new_piece old_piece : nat) (t : Feature.t) :
  features st !! template_feature = Some t ->
  old_piece ∉ Feature.transcribed_pieces t ->
  set_status_downstream_border new_coords old_coords is_plus
    template_feature new_piece old_piece st
  = (Raise (AssertionError old_piece_not_in_pieces), st).
Proof.
  intros Ht Hni. unfold set_status_downstream_border.
  rewrite (bind_ok _ _ _ _ _ (get_feature_ok _ _ _ Ht)).
  unfold assert. by rewrite bool_decide_eq_false_2.
Qed.

Lemma set_status_downstream_border_refused (st : State)
    (new_coords old_coords : Coordinates.t) (is_plus : bool)
    (template_feature new_piece old_piece : nat) (t : Feature.t) :
  features st !! template_feature = Some t ->
  old_piece ∈ Feature.transcribed_pieces t ->
  ~ downstream_nonempty (down_at new_coords is_plus) t ->
  exists (st' : State) (downstream_pieces : list nat),
    swap_list_item (Feature.transcribed_pieces t) new_piece old_piece
    = Some downstream_pieces /\
    set_status_downstream_border new_coords old_coords is_plus
      template_feature new_piece old_piece st
    = (Raise ValueError, st') /\
    features st'
    = <[fresh (dom (features st)) :=
          downstream_kwargs (down_at new_coords is_plus) old_coords
            downstream_pieces t]> (features st) /\
    features st' !! template_feature = Some t /\
    handler_holder st'
    = handler_holder st ++ [fresh (dom (features st))].
Proof.
  intros Ht Hin Hempty.
  destruct (swap_list_item_Some _ new_piece _ Hin) as [ps' Hps'].
  assert (Hne : fresh (dom (features st)) <> template_feature).
  { intros E. pose proof (fresh_feature_is_new st) as Hf.
    rewrite E in Hf. congruence. }
  unfold set_status_downstream_border.
  rewrite (bind_ok _ _ _ _ _ (get_feature_ok _ _ _ Ht)).
  unfold assert. rewrite bool_decide_eq_true_2 by done.
  rewrite (bind_ok (mret tt) _ st st tt) by done.
  rewrite Hps'.
  rewrite (bind_ok _ _ _ _ _ (new_handled_data_spec _ _ _ _ Ht)).
  erewrite bind_raise; cycle 1.
  { apply load_to_intervaltree_refused; [simpl; apply lookup_insert_eq |].
    by apply downstream_empty_interval. }
  eexists _, ps'. split; [done |]. split; [reflexivity |]. simpl.
  split; [done |]. split; [| done].
  by rewrite lookup_insert_ne.
Qed.

Lemma downstream_nonempty_dec (d : Z) (t : Feature.t) :
  downstream_nonempty d t \/ ~ downstream_nonempty d t.
Proof.
  unfold downstream_nonempty. destruct (Feature.is_plus_strand t); lia.
Qed.

(** X15.  How [set_status_downstream_border] fails.  If the old piece is
    not among the template's pieces, the [assert] raises and nothing has
    changed; the [ValueError] of [list.index] in [swap_list_item] can
    therefore not occur.  If the old piece is there but the part of the
    template beyond the cut is empty, the tree refuses the new feature
    with [ValueError]: by then the new feature and its handler have been
    made, and the template has not been truncated.  The call succeeds
    exactly when neither is the case. *)
Theorem set_status_downstream_border_failures (st : State)
    (new_coords old_coords : Coordinates.t) (is_plus : bool)
    (template_feature new_piece old_piece : nat) (t : Feature.t) :
  features st !! template_feature = Some t ->
  (old_piece ∉ Feature.transcribed_pieces t ->
   set_status_downstream_border new_coords old_coords is_plus
     template_feature new_piece old_piece st
   = (Raise (AssertionError old_piece_not_in_pieces), st)) /\
  (old_piece ∈ Feature.transcribed_pieces t ->
   ~ downstream_nonempty (down_at new_coords is_plus) t ->
   exists (st' : State) (downstream_pieces : list nat),
     swap_list_item (Feature.transcribed_pieces t) new_piece old_piece
     = Some downstream_pieces /\
     set_status_downstream_border new_coords old_coords is_plus
       template_feature new_piece old_piece st
     = (Raise ValueError, st') /\
     features st'
     = <[fresh (dom (features st)) :=
           downstream_kwargs (down_at new_coords is_plus) old_coords
             downstream_pieces t]> (features st) /\
     features st' !! template_feature = Some t /\
     handler_holder st'
     = handler_holder st ++ [fresh (dom (features st))]) /\
  (fst (set_status_downstream_border new_coords old_coords is_plus
          template_feature new_piece old_piece st) = Ok tt
   <->
   old_piece ∈ Feature.transcribed_pieces t /\
   downstream_nonempty (down_at new_coords is_plus) t).
Proof.
  intros Ht.
  split; [by apply set_status_downstream_border_asserts |].
  split; [by apply set_status_downstream_border_refused |].
  split.
  - intros Hok.
    destruct (decide (old_piece ∈ Feature.transcribed_pieces t))
      as [Hin | Hni]; cycle 1.
    { rewrite (set_status_downstream_border_asserts _ _ _ _ _ _ _ _ Ht Hni)
        in Hok. discriminate Hok. }
    split; [done |].
    destruct (downstream_nonempty_dec (down_at new_coords is_plus) t)
      as [Hn | Hn]; [done |].
    destruct (set_status_downstream_border_refused st new_coords old_coords
                is_plus template_feature new_piece old_piece t Ht Hin Hn)
      as (st' & ps & _ & Hrun & _).
    rewrite Hrun in Hok. discriminate Hok.
  - intros [Hin Hn].
    destruct (set_status_downstream_border_spec st new_coords old_coords
                is_plus template_feature new_piece old_piece t Ht Hin)
      as (st' & ps & Hrun & _).
    { intros ps. by apply downstream_nonempty_interval. }
    by rewrite Hrun.
Qed.

(** X15, witness: the feature at [100,200) of the scenario, cut at 400:
    nothing of it lies beyond the cut, the tree refuses the new feature,
    and the template still ends at 200. *)
Lemma set_status_downstream_border_failures_witness :
  exists (st' : State),
    set_status_downstream_border slice_0_400 chr1 true 1 11 10 scenario
    = (Raise ValueError, st') /\
    features st' !! 1%nat = Some (plus_feature 100 200 [10%nat]).
Proof.
  destruct (set_status_downstream_border_failures scenario slice_0_400 chr1
              true 1 11 10 (plus_feature 100 200 [10%nat]) eq_refl)
    as (_ & Hrefused & _).
  destruct Hrefused as (st' & ps & _ & Hrun & _ & Hkept & _).
  - apply list_elem_of_here.
  - unfold downstream_nonempty, down_at. simpl. lia.
  - exists st'. split; [exact Hrun | exact Hkept].
Defined.




(** * Further properties of [modify4new_slice] *)

(** A walk none of whose groups crosses the downstream border, begun with
    no border identified. *)
Lemma walk_without_border (new_coords : Coordinates.t) (is_plus : bool)
    (st : State) (transition_gen : list (list nat * nat)) :
  (forall item, item ∈ transition_gen ->
     exists c, group_classification st new_coords is_plus item = Some c /\
               c <> overlaps_downstream_of) ->
  forall (st1 : State) (seen : bool),
    features st1 = features st ->
    walk new_coords is_plus transition_gen (seen, None) st1
    = (Ok (seen
           || negb (bool_decide
                      (groups_classified contained st new_coords is_plus
                         transition_gen = [])),
           None),
       enqueue_coord_swaps
         (mjoin (group_coord_swaps new_coords
                   <$> groups_classified contained st new_coords is_plus
                         transition_gen)) st1).
Proof.
  unfold groups_classified.
  induction transition_gen as [| item rest IH]; intros Hall st1 seen Hfs.
  - simpl. rewrite enqueue_coord_swaps_nil. by rewrite orb_false_r.
  - destruct (Hall item (list_elem_of_here _ _)) as (c & Hc & Hnb).
    assert (Hc1 : group_classification st1 new_coords is_plus item = Some c)
      by by rewrite (group_classification_features st st1).
    assert (Hrest : forall item', item' ∈ rest ->
              exists c', group_classification st new_coords is_plus item'
                         = Some c' /\ c' <> overlaps_downstream_of).
    { intros item' Hin. apply Hall. by apply list_elem_of_further. }
    simpl walk.
    destruct (decide (c = contained)) as [-> | Hnc].
    + rewrite (bind_ok _ _ _ _ _ (visit_contained _ _ _ seen None _ Hc1)).
      rewrite filter_cons_True by done.
      rewrite (IH Hrest _ true) by done.
      rewrite enqueue_coord_swaps_app.
      rewrite orb_true_l.
      rewrite bool_decide_eq_false_2 by (intros ?; discriminate).
      by rewrite orb_true_r.
    + rewrite filter_cons_False by congruence.
      assert (Hv : visit new_coords is_plus (seen, None) item st1
                   = (Ok (seen, None), st1)).
      { destruct c; try done.
        - eapply visit_passed_over; [exact Hc1 | by left].
        - eapply visit_passed_over; [exact Hc1 | right; by left].
        - eapply visit_passed_over; [exact Hc1 | right; by right].
        - by apply visit_downstream_no_border. }
      rewrite (bind_ok _ _ _ _ _ Hv). by apply IH.
Qed.

(** X17.  Without a border there is no split.  If no group of the walk
    crosses the downstream border, [modify4new_slice] makes no feature and
    no piece, files nothing in the trees and queues no piece
    reassignment: it adds to the queue one coordinate reassignment for
    each feature of each contained group, in the order of the walk, and
    returns, with the memoized downstream piece reset; or, if no group is
    contained, raises [NoFeaturesInSliceError] and leaves the state as it
    was. *)
Theorem modify4new_slice_without_border
    (transition_gen : list (list nat * nat)) (new_coords : Coordinates.t)
    (is_plus : bool) (st : State) :
  (forall item, item ∈ transition_gen ->
     exists c, group_classification st new_coords is_plus item = Some c /\
               c <> overlaps_downstream_of) ->
  modify4new_slice transition_gen new_coords is_plus st
  = if bool_decide (groups_classified contained st new_coords is_plus
                      transition_gen = [])
    then (Raise NoFeaturesInSliceError, st)
    else (Ok tt,
          set_downstream_piece None
            (enqueue_coord_swaps
               (mjoin (group_coord_swaps new_coords
                         <$> groups_classified contained st new_coords
                               is_plus transition_gen)) st)).
Proof.
  intros Hall. unfold modify4new_slice.
  rewrite (bind_ok _ _ _ _ _
             (walk_without_border _ _ st _ Hall st false eq_refl)).
  simpl. case_bool_decide as Hnone; simpl; [| done].
  rewrite Hnone. simpl. by rewrite enqueue_coord_swaps_nil.
Qed.

(** X17, witness: the first and the third feature of the scenario, one
    contained in the slice and one downstream of it. *)
Lemma modify4new_slice_without_border_witness :
  modify4new_slice [([1%nat], 10%nat); ([3%nat], 10%nat)] slice_0_400 true
    scenario
  = (Ok tt,
     set_downstream_piece None
       (enqueue_coord_swaps [mkCoordSwap 1 2] scenario)).
Proof.
  rewrite (modify4new_slice_without_border
             [([1%nat], 10%nat); ([3%nat], 10%nat)] slice_0_400 true
             scenario).
  - reflexivity.
  - intros item Hin.
    apply elem_of_cons in Hin as [-> | Hin];
      [exists contained; split; [reflexivity | discriminate] |].
    apply list_elem_of_singleton in Hin as ->.
    exists downstream. split; [reflexivity | discriminate].
Defined.

(** * What a call never does *)

Lemma same_identity_refl (f : Feature.t) : same_identity f f.
Proof. unfold same_identity. naive_solver. Qed.

Lemma same_identity_trans (f1 f2 f3 : Feature.t) :
  same_identity f1 f2 -> same_identity f2 f3 -> same_identity f1 f3.
Proof.
  unfold same_identity.
  intros (? & ? & ? & ? & ? & ? & ? & H12) (? & ? & ? & ? & ? & ? & ? & H23).
  split_and!; try congruence.
  intros Hend3. destruct (H23 Hend3) as [Hend2 E23].
  destruct (H12 Hend2) as [Hend1 E12].
  split; [done | congruence].
Qed.

#[global] Instance persists_preorder : PreOrder persists.
Proof.
  split.
  - intros st. split; [| split; [| done]].
    + intros k f Hk. exists f. split; [done | apply same_identity_refl].
    + intros k p Hk. exists p. split; [done |]. split; [done | lia].
  - intros st1 st2 st3 (Hf & Hp & Hc) (Hf' & Hp' & Hc').
    split; [| split; [| congruence]].
    + intros k f Hk. destruct (Hf k f Hk) as (f2 & Hk2 & Hs).
      destruct (Hf' k f2 Hk2) as (f3 & Hk3 & Hs').
      exists f3. split; [done |]. by eapply same_identity_trans.
    + intros k p Hk. destruct (Hp k p Hk) as (p2 & Hk2 & Ht & Hpos).
      destruct (Hp' k p2 Hk2) as (p3 & Hk3 & Ht' & Hpos').
      exists p3. split; [done |]. split; [congruence | lia].
Qed.

Lemma unchanged_stored_persists (st st' : State) :
  unchanged stored st st' -> persists st st'.
Proof.
  unfold unchanged, stored. intros [= Hf Hp Hc].
  split; [| split; [| done]].
  - intros k f Hk. exists f. rewrite Hf.
    split; [done | apply same_identity_refl].
  - intros k p Hk. exists p. rewrite Hp. split; [done |].
    split; [done | lia].
Qed.

Lemma persists_features (st : State) (fs : gmap nat Feature.t) :
  (forall k f, features st !! k = Some f ->
     exists f', fs !! k = Some f' /\ same_identity f f') ->
  persists st (set_features fs st).
Proof.
  intros H. split; [done |]. split; [| done].
  intros k p Hk. exists p. split; [done |]. split; [done | lia].
Qed.

Lemma persists_mk_new_piece (piece : nat) :
  preserves persists (mk_new_piece piece).
Proof.
  intros st. destruct (pieces st !! piece) as [p |] eqn:Hp.
  - rewrite (mk_new_piece_spec _ _ _ Hp). simpl.
    fold (pieces_after_split st p).
    split; [| split; [| done]].
    + intros k f Hk. exists f. split; [done | apply same_identity_refl].
    + intros k x Hk. simpl. rewrite (pieces_after_split_old _ _ x) by done.
      eexists. split; [done |].
      split; [apply bumped_transcribed |].
      unfold bumped, bump_position.
      repeat case_decide; try lia;
        destruct (TranscribedPiece.position x
                  >? TranscribedPiece.position p); simpl; lia.
  - rewrite mk_new_piece_fails by done. reflexivity.
Qed.

Lemma persists_downstream_piece (piece : nat) :
  preserves persists (downstream_piece piece).
Proof.
  unfold downstream_piece.
  preserves_step; [preserves_step |].
  destruct (_downstream_piece a); repeat preserves_step.
  - apply persists_mk_new_piece.
  - by apply unchanged_stored_persists.
Qed.

Lemma persists_execute_so_far : preserves persists execute_so_far.
Proof.
  intros st. destruct (execute_so_far_spec st) as (fs & -> & Hfs). simpl.
  split; [| split; [| done]].
  - intros k f Hk. simpl. rewrite Hfs, Hk. simpl.
    eexists. split; [done |]. unfold same_identity, flushed. simpl.
    naive_solver.
  - intros k p Hk. exists p. split; [done |]. split; [done | lia].
Qed.

Lemma persists_new_handled_data (template : nat)
    (kwargs : Feature.t -> Feature.t) :
  preserves persists (new_handled_data template kwargs).
Proof.
  intros st. destruct (features st !! template) as [t |] eqn:Ht.
  - rewrite (new_handled_data_spec _ _ _ _ Ht). simpl.
    split; [| split; [| done]].
    + intros k f Hk. simpl. exists f. split; [| apply same_identity_refl].
      rewrite lookup_insert_ne; [done |].
      intros <-. rewrite fresh_feature_is_new in Hk. done.
    + intros k p Hk. exists p. split; [done |]. split; [done | lia].
  - unfold new_handled_data, mbind, M_bind, get_feature. rewrite Ht.
    reflexivity.
Qed.

Lemma unchanged_load_to_intervaltree {B : Type} (proj : State -> B)
    (self : nat) :
  (forall t st, proj (set_trees t st) = proj st) ->
  preserves (unchanged proj) (load_to_intervaltree self).
Proof.
  intros Ht. unfold load_to_intervaltree. repeat preserves_step.
  destruct (Feature.is_plus_strand a);
    match goal with |- context [if ?b then _ else _] => destruct b end;
    repeat preserves_step; apply Ht.
Qed.

Lemma persists_set_status_downstream_border
    (new_coords old_coords : Coordinates.t) (is_plus : bool)
    (template_feature new_piece old_piece : nat) :
  preserves persists
    (set_status_downstream_border new_coords old_coords is_plus
       template_feature new_piece old_piece).
Proof.
  unfold set_status_downstream_border.
  repeat preserves_step.
  destruct (swap_list_item _ _ _); repeat preserves_step.
  - apply persists_new_handled_data.
  - eapply preserves_mono; [apply unchanged_stored_persists |].
    by apply unchanged_load_to_intervaltree.
  - apply persists_features. intros k f Hk.
    destruct (decide (k = template_feature)) as [-> | Hne].
    + rewrite lookup_alter_eq, Hk. simpl. eexists. split; [done |].
      unfold same_identity, truncated. simpl. naive_solver.
    + rewrite lookup_alter_ne by done. exists f.
      split; [done | apply same_identity_refl].
Qed.

Lemma persists_visit (new_coords : Coordinates.t) (is_plus : bool)
    (locals : bool * option nat) (item : list nat * nat) :
  preserves persists (visit new_coords is_plus locals item).
Proof.
  unfold visit. destruct locals as [seen border], item as [aligned piece].
  destruct aligned as [| f0_ref rest]; [preserves_step |].
  preserves_step; [preserves_step |].
  destruct (classify (FeatureVsCoords_init a new_coords is_plus)) as [c |];
    [| preserves_step].
  destruct c; repeat preserves_step.
  - unfold append_coord_swap. preserves_step.
    by apply unchanged_stored_persists.
  - apply persists_downstream_piece.
  - apply persists_execute_so_far.
  - apply persists_set_status_downstream_border.
  - destruct border as [b |]; [| preserves_step].
    destruct (decide (piece = b)); repeat preserves_step.
    + apply persists_downstream_piece.
    + unfold append_piece_swap. preserves_step.
      by apply unchanged_stored_persists.
Qed.

Lemma persists_walk (new_coords : Coordinates.t) (is_plus : bool)
    (transition_gen : list (list nat * nat)) :
  forall locals,
    preserves persists (walk new_coords is_plus transition_gen locals).
Proof.
  induction transition_gen as [| item rest IH]; intros locals.
  - apply preserves_ret. apply _.
  - simpl. apply preserves_bind; [apply _ | | apply IH].
    apply persists_visit.
Qed.

Lemma persists_modify4new_slice (transition_gen : list (list nat * nat))
    (new_coords : Coordinates.t) (is_plus : bool) :
  preserves persists (modify4new_slice transition_gen new_coords is_plus).
Proof.
  unfold modify4new_slice.
  preserves_step; [apply persists_walk |].
  destruct (negb (fst a)); preserves_step.
  by apply unchanged_stored_persists.
Qed.

Lemma preserves_try_except {A : Type} (R : relation State) `{!PreOrder R}
    (m handler : M A) (e : exn) :
  preserves R m -> preserves R handler ->
  preserves R (try_except m e handler).
Proof.
  intros Hm Hh st. unfold try_except.
  generalize (Hm st). destruct (m st) as [[a | e'] st1]; simpl; [done |].
  intros H1. case_decide; [| done].
  etransitivity; [exact H1 | apply Hh].
Qed.

Lemma persists_modify4slice
    (transition_5p_to_3p : State -> nat -> list (list nat * nat))
    (transcribeds : list nat) (new_coords : Coordinates.t)
    (is_plus : bool) :
  preserves persists
    (modify4slice transition_5p_to_3p transcribeds new_coords is_plus).
Proof.
  unfold modify4slice. repeat preserves_step.
  - by apply unchanged_stored_persists.
  - apply preserves_try_except; [apply _ | apply persists_modify4new_slice |].
    repeat preserves_step.
    destruct (eqb is_plus (Feature.is_plus_strand a3)); [| preserves_step].
    destruct is_plus; preserves_step.
Qed.

(** X18.  Nothing is lost.  Whatever the walk, and whether the call
    returns or raises, after [modify4new_slice], and after [modify4slice]
    over any transcripts: every feature that was in the session is still
    there, with the name, type, start, strand, phase, source and mark of
    its start that it had, and if its end is still marked as biological
    then its end is where it was; every piece is still there, in the
    transcript it was in, at the position it had or beyond; and the
    coordinates are untouched.  (What the flush at the border does to a
    feature is taken from the model of [execute_so_far].) *)
Theorem nothing_is_lost
    (transition_5p_to_3p : State -> nat -> list (list nat * nat))
    (transcribeds : list nat) (transition_gen : list (list nat * nat))
    (new_coords : Coordinates.t) (is_plus : bool) (st : State) :
  persists st (snd (modify4new_slice transition_gen new_coords is_plus st)) /\
  persists st (snd (modify4slice transition_5p_to_3p transcribeds new_coords
                      is_plus st)).
Proof.
  split.
  - apply persists_modify4new_slice.
  - apply persists_modify4slice.
Qed.

#[global] Instance trees_grow_preorder : PreOrder trees_grow.
Proof.
  split.
  - intros st. split; [done |]. split; [done |]. intros s lo hi k H. by left.
  - intros st1 st2 st3 (Hd & Hg & Hn) (Hd' & Hg' & Hn').
    split; [set_solver |]. split; [naive_solver |].
    intros s lo hi k H3.
    destruct (Hn' s lo hi k H3) as [H2 | [Hnone Hlt]].
    + by apply Hn.
    + right. split; [| done].
      apply not_elem_of_dom. apply not_elem_of_dom in Hnone. set_solver.
Qed.

Lemma unchanged_filed_trees_grow (st st' : State) :
  unchanged filed st st' -> trees_grow st st'.
Proof.
  unfold unchanged, filed, trees_grow, tree_of. intros [= Hf Ht].
  rewrite Hf, Ht. split; [done |]. split; [done |]. intros. by left.
Qed.

Lemma trees_grow_features (st : State) (fs : gmap nat Feature.t) :
  dom (features st) ⊆ dom fs -> trees_grow st (set_features fs st).
Proof.
  intros Hd. split; [done |]. split; [done |]. intros. by left.
Qed.

Lemma trees_grow_execute_so_far : preserves trees_grow execute_so_far.
Proof.
  intros st. destruct (execute_so_far_spec st) as (fs & -> & Hfs). simpl.
  split; [| split; [done | intros; by left]].
  simpl. intros k. rewrite !elem_of_dom, Hfs. by rewrite fmap_is_Some.
Qed.

(** Making a feature and filing it. *)
Lemma trees_grow_new_loaded (template : nat)
    (kwargs : Feature.t -> Feature.t) (k : M unit) :
  preserves trees_grow k ->
  preserves trees_grow
    (downstream ← new_handled_data template kwargs;
     load_to_intervaltree downstream ;; k).
Proof.
  intros Hk st. destruct (features st !! template) as [t |] eqn:Ht; cycle 1.
  { unfold new_handled_data, mbind, M_bind, get_feature. rewrite Ht.
    reflexivity. }
  rewrite (bind_ok _ _ _ _ _ (new_handled_data_spec _ _ _ _ Ht)).
  set (key := fresh (dom (features st))).
  set (st1 := set_features _ _).
  assert (Hkey : features st1 !! key = Some (kwargs t))
    by apply lookup_insert_eq.
  assert (Hnew : features st !! key = None) by apply fresh_feature_is_new.
  assert (Hdom : dom (features st) ⊆ dom (features st1)).
  { unfold st1. simpl. set_solver. }
  destruct (decide (fst (py_interval (kwargs t))
                    < snd (py_interval (kwargs t)))) as [Hlt | Hge].
  - rewrite (bind_ok _ _ _ _ _ (load_to_intervaltree_spec _ _ _ Hkey Hlt)).
    fold (interval_of key (kwargs t)).
    fold (tree_of st1 (Coordinates.seqid (Feature.coordinate (kwargs t)))).
    etransitivity; [| apply Hk].
    split; [done |]. split.
    + intros s i Hi. apply tree_of_loaded. by left.
    + intros s lo hi k' Hi. apply tree_of_loaded in Hi as [Hi | [_ Hi]].
      * by left.
      * right. unfold interval_of in Hi. injection Hi as -> -> ->. done.
  - assert (Hge' : snd (py_interval (kwargs t))
                   <= fst (py_interval (kwargs t))) by lia.
    rewrite (bind_raise _ _ _ _ _
               (load_to_intervaltree_refused _ _ _ Hkey Hge')).
    simpl. split; [done |].
    assert (Hsame : forall s,
      tree_of (set_trees
                 (<[Coordinates.seqid (Feature.coordinate (kwargs t)) :=
                      tree_of st1 (Coordinates.seqid
                                     (Feature.coordinate (kwargs t)))]>
                    (trees st1)) st1) s = tree_of st s).
    { intros s. unfold tree_of at 1. simpl.
      destruct (decide (s = Coordinates.seqid
                             (Feature.coordinate (kwargs t)))) as [-> | Hne].
      - by rewrite lookup_insert_eq.
      - by rewrite lookup_insert_ne. }
    split.
    + intros s i Hi. by rewrite Hsame.
    + intros s lo hi k' Hi. left. by rewrite Hsame in Hi.
Qed.

Lemma trees_grow_set_status_downstream_border
    (new_coords old_coords : Coordinates.t) (is_plus : bool)
    (template_feature new_piece old_piece : nat) :
  preserves trees_grow
    (set_status_downstream_border new_coords old_coords is_plus
       template_feature new_piece old_piece).
Proof.
  unfold set_status_downstream_border.
  repeat preserves_step.
  destruct (swap_list_item _ _ _); [| preserves_step].
  apply trees_grow_new_loaded. preserves_step.
  apply trees_grow_features. by rewrite dom_alter_L.
Qed.

Lemma trees_grow_downstream_piece (piece : nat) :
  preserves trees_grow (downstream_piece piece).
Proof.
  eapply preserves_mono; [apply unchanged_filed_trees_grow |].
  by apply unchanged_downstream_piece.
Qed.

Lemma trees_grow_visit (new_coords : Coordinates.t) (is_plus : bool)
    (locals : bool * option nat) (item : list nat * nat) :
  preserves trees_grow (visit new_coords is_plus locals item).
Proof.
  unfold visit. destruct locals as [seen border], item as [aligned piece].
  destruct aligned as [| f0_ref rest]; [preserves_step |].
  preserves_step; [preserves_step |].
  destruct (classify (FeatureVsCoords_init a new_coords is_plus)) as [c |];
    [| preserves_step].
  destruct c; repeat preserves_step.
  - unfold append_coord_swap. preserves_step.
    by apply unchanged_filed_trees_grow.
  - apply trees_grow_downstream_piece.
  - apply trees_grow_execute_so_far.
  - apply trees_grow_set_status_downstream_border.
  - destruct border as [b |]; [| preserves_step].
    destruct (decide (piece = b)); repeat preserves_step.
    + apply trees_grow_downstream_piece.
    + unfold append_piece_swap. preserves_step.
      by apply unchanged_filed_trees_grow.
Qed.

Lemma trees_grow_modify4new_slice (transition_gen : list (list nat * nat))
    (new_coords : Coordinates.t) (is_plus : bool) :
  preserves trees_grow (modify4new_slice transition_gen new_coords is_plus).
Proof.
  unfold modify4new_slice.
  preserves_step.
  - generalize (false, @None nat).
    induction transition_gen as [| item rest IH]; intros locals.
    + apply preserves_ret. apply _.
    + simpl. apply preserves_bind; [apply _ | | apply IH].
      apply trees_grow_visit.
  - destruct (negb (fst a)); preserves_step.
    by apply unchanged_filed_trees_grow.
Qed.

(** X19.  The interval trees only grow.  Whatever the walk, and whether
    the call returns or raises, after [modify4new_slice], and after
    [modify4slice] over any transcripts: every interval that was in a tree
    is still in it, so that the interval of a feature that has been
    truncated is still the one from before the cut; and every interval
    that was not there is not empty and is filed for a feature made by the
    call. *)
Theorem trees_only_grow
    (transition_5p_to_3p : State -> nat -> list (list nat * nat))
    (transcribeds : list nat) (transition_gen : list (list nat * nat))
    (new_coords : Coordinates.t) (is_plus : bool) (st : State) :
  trees_grow st (snd (modify4new_slice transition_gen new_coords is_plus
                        st)) /\
  trees_grow st (snd (modify4slice transition_5p_to_3p transcribeds
                        new_coords is_plus st)).
Proof.
  split; [apply trees_grow_modify4new_slice |].
  assert (H : preserves trees_grow
                (modify4slice transition_5p_to_3p transcribeds new_coords
                   is_plus)); [| apply H].
  unfold modify4slice. repeat preserves_step.
  - by apply unchanged_filed_trees_grow.
  - apply preserves_try_except;
      [apply _ | apply trees_grow_modify4new_slice |].
    repeat preserves_step.
    destruct (eqb is_plus (Feature.is_plus_strand a3)); [| preserves_step].
    destruct is_plus; preserves_step.
Qed.

(** * What a call can raise *)

Lemma persists_well_formed (st st' : State)
    (transition_gen : list (list nat * nat)) :
  persists st st' -> well_formed st transition_gen ->
  well_formed st' transition_gen.
Proof.
  intros (Hf & Hp & _) Hwf item Hin.
  destruct (Hwf item Hin) as (Hne & Hfs & [p Hpiece]).
  split; [done |]. split.
  - intros f Hfin. destruct (Hfs f Hfin) as [t Ht].
    destruct (Hf f t Ht) as (t' & Ht' & _). by exists t'.
  - destruct (Hp _ _ Hpiece) as (p' & Hp' & _). by exists p'.
Qed.

Lemma never_raises_IndexError_visit (new_coords : Coordinates.t)
    (is_plus : bool) (locals : bool * option nat) (item : list nat * nat) :
  fst item <> [] ->
  never_raises IndexError (visit new_coords is_plus locals item).
Proof.
  intros Hne.
  unfold visit. destruct locals as [seen border], item as [aligned piece].
  destruct aligned as [| f0_ref rest]; [done |].
  never_step; [never_step |].
  destruct (classify_total (FeatureVsCoords_init a new_coords is_plus))
    as [c ->].
  destruct c; repeat never_step.
  - unfold append_coord_swap. never_step.
  - by apply never_raises_downstream_piece.
  - apply never_raises_execute_so_far.
  - by apply never_raises_set_status_downstream_border.
  - destruct border as [b |]; [| never_step].
    destruct (decide (piece = b)); repeat never_step.
    + by apply never_raises_downstream_piece.
    + unfold append_piece_swap. never_step.
Qed.

(** The loop of the border branch over features of the session asks the
    store for nothing it does not hold. *)
Lemma border_loop_valid (new_coords old_coords : Coordinates.t)
    (is_plus : bool) (new_piece old_piece : nat) (l : list nat) :
  forall st : State,
    (forall f, f ∈ l -> is_Some (features st !! f)) ->
    fst (for_each l (fun feature =>
           set_status_downstream_border new_coords old_coords is_plus
             feature new_piece old_piece) st)
    <> Raise InvalidReference.
Proof.
  induction l as [| f l IH]; intros st Hall; [done |].
  destruct (Hall f (list_elem_of_here _ _)) as [t Ht].
  simpl. unfold mbind, M_bind.
  pose proof (persists_set_status_downstream_border new_coords old_coords
                is_plus f new_piece old_piece st) as Hper.
  destruct (decide (old_piece ∈ Feature.transcribed_pieces t))
    as [Hin | Hni]; cycle 1.
  { by rewrite (set_status_downstream_border_asserts _ _ _ _ _ _ _ _ Ht Hni). }
  destruct (downstream_nonempty_dec (down_at new_coords is_plus) t)
    as [Hn | Hn]; cycle 1.
  { destruct (set_status_downstream_border_refused st new_coords old_coords
                is_plus f new_piece old_piece t Ht Hin Hn)
      as (st' & ps & _ & -> & _). done. }
  destruct (set_status_downstream_border_spec st new_coords old_coords
              is_plus f new_piece old_piece t Ht Hin)
    as (st' & ps & Hrun & _).
  { intros ps. by apply downstream_nonempty_interval. }
  rewrite Hrun in Hper |- *. simpl in Hper.
  apply IH. intros f' Hf'.
  destruct (Hall f' (list_elem_of_further _ _ _ Hf')) as [t' Ht'].
  destruct Hper as (Hfs & _). destruct (Hfs _ _ Ht') as (t'' & Ht'' & _).
  by exists t''.
Qed.

(** The loop of the downstream branch makes the downstream piece at most
    once, and asks the store for nothing it does not hold. *)
Lemma downstream_loop_valid (border piece : nat) (l : list nat)
    (st : State) :
  (_downstream_piece st = None -> is_Some (pieces st !! piece)) ->
  exists st',
    for_each l (fun f =>
      np ← downstream_piece piece;
      append_piece_swap (mkPieceSwap border np f)) st
    = (Ok tt, st').
Proof.
  intros Hpiece. destruct l as [| f l]; [by exists st |].
  destruct (downstream_piece_spec st piece Hpiece)
    as (np & st1 & Hdp & Hmemo & _).
  simpl. rewrite (bind_ok _ _ st
                    (enqueue_piece_swaps [mkPieceSwap border np f] st1) tt).
  - rewrite (downstream_loop_memo border piece np) by done. eauto.
  - by rewrite (bind_ok _ _ _ _ _ Hdp).
Qed.

Lemma visit_valid (new_coords : Coordinates.t) (is_plus : bool)
    (locals : bool * option nat) (item : list nat * nat) (st : State) :
  fst item <> [] ->
  (forall f, f ∈ fst item -> is_Some (features st !! f)) ->
  is_Some (pieces st !! snd item) ->
  fst (visit new_coords is_plus locals item st) <> Raise InvalidReference.
Proof.
  intros Hne Hfs Hpiece.
  destruct locals as [seen border], item as [aligned piece].
  destruct aligned as [| f0_ref rest]; [done |]. simpl in *.
  destruct (Hfs f0_ref (list_elem_of_here _ _)) as [f0 Hf0].
  destruct (classify_total (FeatureVsCoords_init f0 new_coords is_plus))
    as [c Hc].
  assert (Hg : group_classification st new_coords is_plus
                 (f0_ref :: rest, piece) = Some c).
  { unfold group_classification. simpl. by rewrite Hf0. }
  destruct c.
  - erewrite visit_passed_over; [done | exact Hg | by left].
  - erewrite visit_passed_over; [done | exact Hg | right; by left].
  - erewrite visit_passed_over; [done | exact Hg | right; by right].
  - by rewrite visit_contained.
  - unfold visit. rewrite (bind_ok _ _ _ _ _ (get_feature_ok _ _ _ Hf0)).
    rewrite Hc.
    destruct (downstream_piece_spec st piece ltac:(done))
      as (np & st1 & Hdp & _ & Hfeat & _).
    rewrite (bind_ok _ _ _ _ _ Hdp).
    destruct (execute_so_far_spec st1) as (fs & Hex & Hfs').
    rewrite (bind_ok _ _ _ _ _ Hex).
    unfold mbind at 1, M_bind at 1.
    pose proof (border_loop_valid new_coords (Feature.coordinate f0) is_plus
                  np piece (f0_ref :: rest)
                  (set_core_queue (mkCoreQueue [] []) (set_features fs st1)))
      as Hloop.
    destruct (for_each (f0_ref :: rest) _ _) as [[[] | e] st3] eqn:Hrun;
      [done |].
    simpl in *. intros [= ->]. apply Hloop; [| done].
    intros f Hf. destruct (Hfs f Hf) as [t Ht].
    rewrite Hfs', Hfeat, Ht. by eexists.
  - unfold visit. rewrite (bind_ok _ _ _ _ _ (get_feature_ok _ _ _ Hf0)).
    rewrite Hc.
    destruct border as [b |]; [| done].
    destruct (decide (piece = b)) as [-> | Hnb]; [| done].
    destruct (downstream_loop_valid b b (f0_ref :: rest) st ltac:(done))
      as [st' Hrun].
    by rewrite (bind_ok _ _ _ _ _ Hrun).
Qed.

Lemma walk_valid (new_coords : Coordinates.t) (is_plus : bool)
    (transition_gen : list (list nat * nat)) :
  forall (st : State) (locals : bool * option nat),
    well_formed st transition_gen ->
    fst (walk new_coords is_plus transition_gen locals st)
      <> Raise InvalidReference /\
    fst (walk new_coords is_plus transition_gen locals st)
      <> Raise IndexError.
Proof.
  induction transition_gen as [| item rest IH]; intros st locals Hwf;
    [done |].
  destruct (Hwf item (list_elem_of_here _ _)) as (Hne & Hfs & Hpiece).
  pose proof (visit_valid new_coords is_plus locals item st Hne Hfs Hpiece)
    as Hv.
  pose proof (never_raises_IndexError_visit new_coords is_plus locals item
                Hne st) as Hi.
  pose proof (persists_visit new_coords is_plus locals item st) as Hper.
  simpl. unfold mbind, M_bind.
  destruct (visit new_coords is_plus locals item st) as [[l1 | e] st1];
    simpl in *.
  - apply IH. apply (persists_well_formed st); [done |].
    intros item' Hin. apply Hwf. by apply list_elem_of_further.
  - split; congruence.
Qed.

(** X20.  What [modify4new_slice] can raise.  Over a walk as
    [transition_5p_to_3p] gives it, with no empty group and with features
    and pieces of the session, a call that raises, raises
    [NoFeaturesInSliceError], or the [AssertionError] on the old piece of
    [set_status_downstream_border], or the [ValueError] of the interval
    tree; it never takes the first item of an empty list, and never holds
    a reference to nothing. *)
Theorem modify4new_slice_raises (transition_gen : list (list nat * nat))
    (new_coords : Coordinates.t) (is_plus : bool) (st : State) (e : exn) :
  well_formed st transition_gen ->
  fst (modify4new_slice transition_gen new_coords is_plus st) = Raise e ->
  e = NoFeaturesInSliceError \/
  e = AssertionError old_piece_not_in_pieces \/
  e = ValueError.
Proof.
  intros Hwf Hraise.
  destruct (decide (e = NoFeaturesInSliceError)) as [-> | H1]; [by left |].
  destruct (decide (e = AssertionError old_piece_not_in_pieces))
    as [-> | H2]; [right; by left |].
  destruct (decide (e = ValueError)) as [-> | H3]; [right; by right |].
  exfalso.
  assert (Hwalk : fst (walk new_coords is_plus transition_gen (false, None)
                         st) = Raise e).
  { unfold modify4new_slice, mbind, M_bind in Hraise.
    destruct (walk new_coords is_plus transition_gen (false, None) st)
      as [[[seen border] | e'] st1]; simpl in *; [| congruence].
    destruct seen; simpl in Hraise; congruence. }
  destruct (walk_valid new_coords is_plus transition_gen st (false, None)
              Hwf) as [Hv Hi].
  destruct (decide (e = InvalidReference)) as [-> | H4]; [done |].
  destruct (decide (e = IndexError)) as [-> | H5]; [done |].
  by apply (never_raises_walk e new_coords is_plus transition_gen
              (false, None) H4 H3 H5 H2 st).
Qed.

(** X20, witness: the second feature of the scenario in one group with
    the first, which is not aligned with it: the split of the first at 400
    leaves nothing beyond the cut, and the tree refuses it. *)
Lemma modify4new_slice_raises_witness :
  fst (modify4new_slice [([2%nat; 1%nat], 10%nat)] slice_0_400 true scenario)
  = Raise ValueError /\
  (ValueError = NoFeaturesInSliceError \/
   ValueError = AssertionError old_piece_not_in_pieces \/
   ValueError = ValueError).
Proof.
  split; [by vm_compute |].
  apply (modify4new_slice_raises [([2%nat; 1%nat], 10%nat)] slice_0_400 true
           scenario ValueError).
  - intros item Hin. apply list_elem_of_singleton in Hin as ->.
    split; [discriminate |]. split.
    + intros f Hf. apply elem_of_cons in Hf as [-> | Hf];
        [by exists (plus_feature 200 500 [10%nat]) |].
      apply list_elem_of_singleton in Hf as ->.
      by exists (plus_feature 100 200 [10%nat]).
    + by exists (TranscribedPiece.mk 7 0).
  - by vm_compute.
Defined.

(** * The memoized downstream piece at the end of a call *)

Lemma visit_raise_memo (new_coords : Coordinates.t) (is_plus : bool)
    (locals : bool * option nat) (item : list nat * nat) (st : State)
    (e : exn) :
  fst item <> [] ->
  (forall f, f ∈ fst item -> is_Some (features st !! f)) ->
  is_Some (pieces st !! snd item) ->
  fst (visit new_coords is_plus locals item st) = Raise e ->
  is_Some (_downstream_piece (snd (visit new_coords is_plus locals item st))).
Proof.
  intros Hne Hfs Hpiece.
  destruct locals as [seen border], item as [aligned piece].
  destruct aligned as [| f0_ref rest]; [done |]. simpl in *.
  destruct (Hfs f0_ref (list_elem_of_here _ _)) as [f0 Hf0].
  destruct (classify_total (FeatureVsCoords_init f0 new_coords is_plus))
    as [c Hc].
  assert (Hg : group_classification st new_coords is_plus
                 (f0_ref :: rest, piece) = Some c).
  { unfold group_classification. simpl. by rewrite Hf0. }
  destruct c.
  - erewrite visit_passed_over; [done | exact Hg | by left].
  - erewrite visit_passed_over; [done | exact Hg | right; by left].
  - erewrite visit_passed_over; [done | exact Hg | right; by right].
  - by rewrite visit_contained.
  - intros _. unfold visit.
    rewrite (bind_ok _ _ _ _ _ (get_feature_ok _ _ _ Hf0)). rewrite Hc.
    destruct (downstream_piece_spec st piece ltac:(done))
      as (np & st1 & Hdp & Hmemo & _).
    rewrite (bind_ok _ _ _ _ _ Hdp).
    destruct (execute_so_far_spec st1) as (fs & Hex & _).
    rewrite (bind_ok _ _ _ _ _ Hex).
    set (st2 := set_core_queue (mkCoreQueue [] []) (set_features fs st1)).
    assert (Hloop : preserves (unchanged _downstream_piece)
              (for_each (f0_ref :: rest) (fun feature =>
                 set_status_downstream_border new_coords
                   (Feature.coordinate f0) is_plus feature np piece))).
    { apply preserves_for_each; [apply _ |]. intros f _.
      by apply unchanged_set_status_downstream_border. }
    specialize (Hloop st2). unfold unchanged in Hloop.
    unfold mbind at 1, M_bind at 1.
    destruct (for_each (f0_ref :: rest) _ st2) as [[[] | e'] st3];
      simpl in *; rewrite Hloop; unfold st2; simpl; rewrite Hmemo; by eexists.
  - unfold visit. rewrite (bind_ok _ _ _ _ _ (get_feature_ok _ _ _ Hf0)).
    rewrite Hc.
    destruct border as [b |]; [| done].
    destruct (decide (piece = b)) as [-> | Hnb]; [| done].
    destruct (downstream_loop_valid b b (f0_ref :: rest) st ltac:(done))
      as [st' Hrun].
    by rewrite (bind_ok _ _ _ _ _ Hrun).
Qed.

Lemma walk_raise_memo (new_coords : Coordinates.t) (is_plus : bool)
    (e : exn) (transition_gen : list (list nat * nat)) :
  forall (st : State) (locals : bool * option nat),
    well_formed st transition_gen ->
    fst (walk new_coords is_plus transition_gen locals st) = Raise e ->
    is_Some (_downstream_piece
               (snd (walk new_coords is_plus transition_gen locals st))).
Proof.
  induction transition_gen as [| item rest IH]; intros st locals Hwf;
    [done |].
  destruct (Hwf item (list_elem_of_here _ _)) as (Hne & Hfs & Hpiece).
  pose proof (visit_raise_memo new_coords is_plus locals item st) as Hv.
  pose proof (persists_visit new_coords is_plus locals item st) as Hper.
  simpl. unfold mbind, M_bind.
  destruct (visit new_coords is_plus locals item st) as [[l1 | e'] st1];
    simpl in *.
  - apply IH. apply (persists_well_formed st); [done |].
    intros item' Hin. apply Hwf. by apply list_elem_of_further.
  - intros _. by apply (Hv e').
Qed.

Lemma modify4new_slice_nothing_seen_inv
    (transition_gen : list (list nat * nat)) (new_coords : Coordinates.t)
    (is_plus : bool) (st : State) :
  fst (modify4new_slice transition_gen new_coords is_plus st)
  = Raise NoFeaturesInSliceError ->
  snd (modify4new_slice transition_gen new_coords is_plus st) = st.
Proof.
  intros Hraise.
  assert (Hall : forall item, item ∈ transition_gen ->
            exists c, group_classification st new_coords is_plus item
                      = Some c /\ sets_seen c = false).
  { unfold modify4new_slice, mbind, M_bind in Hraise.
    destruct (walk new_coords is_plus transition_gen (false, None) st)
      as [[[seen border] | e] s'] eqn:Hwalk.
    - destruct seen; simpl in Hraise; [done |]. by eapply walk_unseen_inv.
    - simpl in Hraise. injection Hraise as ->. exfalso.
      apply (never_raises_walk NoFeaturesInSliceError new_coords is_plus
               transition_gen (false, None) ltac:(done) ltac:(done)
               ltac:(done) ltac:(done) st).
      by rewrite Hwalk. }
  unfold modify4new_slice.
  by rewrite (bind_ok _ _ _ _ _ (walk_unseen _ _ _ st false Hall)).
Qed.

(** X21.  The memoized downstream piece at the end of a call.  When
    [modify4new_slice] returns, the memo is reset.  When it raises
    [NoFeaturesInSliceError], the memo is what it was.  When it raises
    anything else over a walk with no empty group and with features and
    pieces of the session, the reset has been skipped and a downstream
    piece is left memoized, for a later call on the same trimmer to
    find. *)
Theorem memo_at_the_end (transition_gen : list (list nat * nat))
    (new_coords : Coordinates.t) (is_plus : bool) (st : State) :
  (fst (modify4new_slice transition_gen new_coords is_plus st) = Ok tt ->
   _downstream_piece
     (snd (modify4new_slice transition_gen new_coords is_plus st)) = None) /\
  (fst (modify4new_slice transition_gen new_coords is_plus st)
   = Raise NoFeaturesInSliceError ->
   _downstream_piece
     (snd (modify4new_slice transition_gen new_coords is_plus st))
   = _downstream_piece st) /\
  (well_formed st transition_gen ->
   forall e,
     fst (modify4new_slice transition_gen new_coords is_plus st) = Raise e ->
     e <> NoFeaturesInSliceError ->
     is_Some (_downstream_piece
                (snd (modify4new_slice transition_gen new_coords is_plus
                        st)))).
Proof.
  split; [| split].
  - unfold modify4new_slice, mbind, M_bind.
    destruct (walk new_coords is_plus transition_gen (false, None) st)
      as [[[seen border] | e] st1]; simpl; [| done].
    by destruct seen.
  - intros Hraise. by rewrite modify4new_slice_nothing_seen_inv.
  - intros Hwf e Hraise Hne.
    pose proof (walk_raise_memo new_coords is_plus e transition_gen st
                  (false, None) Hwf) as Hw.
    unfold modify4new_slice, mbind, M_bind in *.
    destruct (walk new_coords is_plus transition_gen (false, None) st)
      as [[[seen border] | e'] st1]; simpl in *.
    + destruct seen; simpl in *; congruence.
    + apply Hw. congruence.
Qed.

(** * The order of the pieces across a call *)

#[global] Instance keeps_distinct_preorder : PreOrder keeps_distinct.
Proof.
  split.
  - by intros st t.
  - intros st1 st2 st3 H12 H23 t Hd. by apply H23, H12.
Qed.

Lemma unchanged_pieces_keeps_distinct (st st' : State) :
  unchanged pieces st st' -> keeps_distinct st st'.
Proof.
  unfold unchanged, keeps_distinct, positions_distinct. intros ->. done.
Qed.

Lemma keeps_distinct_mk_new_piece (piece : nat) :
  preserves keeps_distinct (mk_new_piece piece).
Proof.
  intros st. destruct (pieces st !! piece) as [p |] eqn:Hp; cycle 1.
  { rewrite mk_new_piece_fails by done. reflexivity. }
  rewrite (mk_new_piece_spec _ _ _ Hp). simpl.
  fold (pieces_after_split st p).
  intros t Hd.
  destruct (decide (t = transcript st)) as [-> | Hne].
  - apply (positions_distinct_after_split st p) in Hd.
    intros k1 k2 x1 x2 H1 H2. by apply Hd.
  - assert (Hold : forall k y,
      pieces_after_split st p !! k = Some y ->
      TranscribedPiece.transcribed y = t ->
      pieces st !! k = Some y).
    { intros k y Hk Ht.
      apply pieces_after_split_inv in Hk as [[_ ->] | (x & Hx & ->)];
        [simpl in Ht; congruence |].
      rewrite bumped_transcribed in Ht.
      unfold bumped. rewrite decide_False by congruence. done. }
    intros k1 k2 x1 x2 H1 H2 Ht1 Ht2 Hpos. simpl in H1, H2.
    apply (Hd k1 k2 x1 x2); auto.
Qed.

Lemma keeps_distinct_downstream_piece (piece : nat) :
  preserves keeps_distinct (downstream_piece piece).
Proof.
  unfold downstream_piece.
  preserves_step; [preserves_step |].
  destruct (_downstream_piece a); repeat preserves_step.
  - apply keeps_distinct_mk_new_piece.
  - by apply unchanged_pieces_keeps_distinct.
Qed.

Lemma keeps_distinct_visit (new_coords : Coordinates.t) (is_plus : bool)
    (locals : bool * option nat) (item : list nat * nat) :
  preserves keeps_distinct (visit new_coords is_plus locals item).
Proof.
  unfold visit. destruct locals as [seen border], item as [aligned piece].
  destruct aligned as [| f0_ref rest]; [preserves_step |].
  preserves_step; [preserves_step |].
  destruct (classify (FeatureVsCoords_init a new_coords is_plus)) as [c |];
    [| preserves_step].
  destruct c; repeat preserves_step.
  - unfold append_coord_swap. preserves_step.
    by apply unchanged_pieces_keeps_distinct.
  - apply keeps_distinct_downstream_piece.
  - unfold execute_so_far. preserves_step.
    by apply unchanged_pieces_keeps_distinct.
  - eapply preserves_mono; [apply unchanged_pieces_keeps_distinct |].
    by apply unchanged_set_status_downstream_border.
  - destruct border as [b |]; [| preserves_step].
    destruct (decide (piece = b)); repeat preserves_step.
    + apply keeps_distinct_downstream_piece.
    + unfold append_piece_swap. preserves_step.
      by apply unchanged_pieces_keeps_distinct.
Qed.

Lemma keeps_distinct_modify4new_slice
    (transition_gen : list (list nat * nat)) (new_coords : Coordinates.t)
    (is_plus : bool) :
  preserves keeps_distinct
    (modify4new_slice transition_gen new_coords is_plus).
Proof.
  unfold modify4new_slice.
  preserves_step.
  - generalize (false, @None nat).
    induction transition_gen as [| item rest IH]; intros locals.
    + apply preserves_ret. apply _.
    + simpl. apply preserves_bind; [apply _ | | apply IH].
      apply keeps_distinct_visit.
  - destruct (negb (fst a)); preserves_step.
    by apply unchanged_pieces_keeps_distinct.
Qed.

(** X22.  The order of the pieces survives a call.  Whatever the walk,
    and whether the call returns or raises, after [modify4new_slice], and
    after [modify4slice] over any transcripts: in every transcript in
    which no two pieces shared a position, no two pieces share one. *)
Theorem positions_stay_distinct
    (transition_5p_to_3p : State -> nat -> list (list nat * nat))
    (transcribeds : list nat) (transition_gen : list (list nat * nat))
    (new_coords : Coordinates.t) (is_plus : bool) (st : State) :
  keeps_distinct st
    (snd (modify4new_slice transition_gen new_coords is_plus st)) /\
  keeps_distinct st
    (snd (modify4slice transition_5p_to_3p transcribeds new_coords is_plus
            st)).
Proof.
  split; [apply keeps_distinct_modify4new_slice |].
  assert (H : preserves keeps_distinct
                (modify4slice transition_5p_to_3p transcribeds new_coords
                   is_plus)); [| apply H].
  unfold modify4slice. repeat preserves_step.
  - by apply unchanged_pieces_keeps_distinct.
  - apply preserves_try_except;
      [apply _ | apply keeps_distinct_modify4new_slice |].
    repeat preserves_step.
    destruct (eqb is_plus (Feature.is_plus_strand a3)); [| preserves_step].
    destruct is_plus; preserves_step.
Qed.

(** * Slices at the edge *)

Lemma empty_slice_sees_nothing (f : Feature.t) (slice : Coordinates.t)
    (is_plus : bool) (c : Classification) :
  Coordinates.end_ slice <= Coordinates.start slice ->
  classify (FeatureVsCoords_init f slice is_plus) = Some c ->
  sets_seen c = false.
Proof.
  intros Hslice Hclass.
  destruct (classify_first_match _ _ Hclass) as [Hholds Hbefore].
  destruct c; try done; exfalso; simpl in Hholds;
    try pose proof (Hbefore upstream ltac:(simpl; lia)) as Hu;
    try pose proof (Hbefore overlaps_upstream_of ltac:(simpl; lia)) as Hou;
    clear Hbefore Hclass; simpl in *; questions_unfold;
    destruct is_plus; simpl in *; bool_cases; lia.
Qed.

(** X23.  A slice with nothing in it.  Against a slice whose end is at or
    before its start, no feature is contained or crosses the downstream
    border, whatever its interval: over a walk with no empty group and
    with features and pieces of the session, [modify4new_slice] raises
    [NoFeaturesInSliceError] and leaves the state as it was. *)
Theorem modify4new_slice_empty_slice
    (transition_gen : list (list nat * nat)) (new_coords : Coordinates.t)
    (is_plus : bool) (st : State) :
  Coordinates.end_ new_coords <= Coordinates.start new_coords ->
  well_formed st transition_gen ->
  modify4new_slice transition_gen new_coords is_plus st
  = (Raise NoFeaturesInSliceError, st).
Proof.
  intros Hslice Hwf. unfold modify4new_slice.
  rewrite (bind_ok _ _ st st (false, None)); [done |].
  apply walk_unseen. intros item Hin.
  destruct (Hwf item Hin) as (Hne & Hfs & _).
  destruct item as [[| f0_ref rest] piece]; [done |]. simpl in *.
  destruct (Hfs f0_ref (list_elem_of_here _ _)) as [f0 Hf0].
  destruct (classify_total (FeatureVsCoords_init f0 new_coords is_plus))
    as [c Hc].
  exists c. split.
  - unfold group_classification. simpl. by rewrite Hf0.
  - by eapply empty_slice_sees_nothing.
Qed.

(** X23, witness: the walk of the scenario against the empty slice
    [400,400). *)
Lemma modify4new_slice_empty_slice_witness :
  modify4new_slice scenario_walk (Coordinates.mk 9 1 400 400) true scenario
  = (Raise NoFeaturesInSliceError, scenario).
Proof.
  apply (modify4new_slice_empty_slice scenario_walk
           (Coordinates.mk 9 1 400 400) true scenario).
  - simpl. lia.
  - intros item Hin. split; [| split].
    + repeat (apply elem_of_cons in Hin as [-> | Hin]; [discriminate |]).
      by apply elem_of_nil in Hin.
    + intros f Hf.
      repeat (apply elem_of_cons in Hin as [-> | Hin];
              [apply list_elem_of_singleton in Hf as ->; by eexists |]).
      by apply elem_of_nil in Hin.
    + repeat (apply elem_of_cons in Hin as [-> | Hin];
              [by exists (TranscribedPiece.mk 7 0) |]).
      by apply elem_of_nil in Hin.
Defined.




(** * Dense positions across a call *)

#[global] Instance keeps_dense_preorder (T : nat) (n : Z) (P : list nat) :
  PreOrder (keeps_dense T n P).
Proof.
  split.
  - by intros st H.
  - intros st1 st2 st3 H12 H23 H. by apply H23, H12.
Qed.

Lemma dense_pieces (st st' : State) (T : nat) (n : Z) :
  pieces st' = pieces st -> dense st T n -> dense st' T n.
Proof.
  unfold dense, positions_distinct, position_taken. intros ->. done.
Qed.

Lemma unchanged_trimmer_pieces_keeps_dense (T : nat) (n : Z) (P : list nat)
    (st st' : State) :
  unchanged trimmer_pieces st st' -> keeps_dense T n P st st'.
Proof.
  unfold unchanged, trimmer_pieces. intros [= Hp Ht Hm] [[HT Hd] HP].
  split.
  - split; [congruence |]. rewrite Hm.
    destruct Hd as [Hd | [Hs Hd]]; [left | right; split; [done |]];
      by apply (dense_pieces st).
  - intros piece Hin. rewrite Hp. by apply HP.
Qed.

Lemma keeps_dense_downstream_piece (T : nat) (n : Z) (P : list nat)
    (piece : nat) :
  piece ∈ P -> preserves (keeps_dense T n P) (downstream_piece piece).
Proof.
  intros Hin st [[HT Hd] HP].
  destruct (HP piece Hin) as (p & Hp & Htp).
  destruct (downstream_piece_spec st piece ltac:(by eexists))
    as (np & st1 & Hrun & Hmemo & _ & _ & _ & _ & _ & Ht1 & Hsome & Hnone).
  rewrite Hrun. simpl.
  destruct (_downstream_piece st) as [np' |] eqn:Hm.
  - destruct (Hsome np' eq_refl) as [_ ->].
    split; [split; [done |] | done]. by rewrite Hm.
  - destruct (Hnone eq_refl) as (_ & p' & Hp' & Hpieces).
    assert (p' = p) as -> by congruence.
    destruct Hd as [Hd | [[? [=]] _]].
    split.
    + split; [congruence |]. right. split; [by rewrite Hmemo |].
      subst T.
      apply (dense_pieces (set_pieces (pieces_after_split st p) st));
        [done |].
      by apply (dense_after_split st p piece n).
    + intros q Hq. destruct (HP q Hq) as (x & Hx & Htx).
      rewrite Hpieces, (pieces_after_split_old _ _ x) by done.
      eexists. split; [done |]. by rewrite bumped_transcribed.
Qed.

Lemma keeps_dense_visit (T : nat) (n : Z) (P : list nat)
    (new_coords : Coordinates.t) (is_plus : bool)
    (locals : bool * option nat) (item : list nat * nat) :
  snd item ∈ P ->
  preserves (keeps_dense T n P) (visit new_coords is_plus locals item).
Proof.
  intros Hin.
  unfold visit. destruct locals as [seen border], item as [aligned piece].
  simpl in Hin.
  destruct aligned as [| f0_ref rest]; [preserves_step |].
  preserves_step; [preserves_step |].
  destruct (classify (FeatureVsCoords_init a new_coords is_plus)) as [c |];
    [| preserves_step].
  destruct c; repeat preserves_step.
  - unfold append_coord_swap. preserves_step.
    by apply unchanged_trimmer_pieces_keeps_dense.
  - by apply keeps_dense_downstream_piece.
  - unfold execute_so_far. preserves_step.
    by apply unchanged_trimmer_pieces_keeps_dense.
  - eapply preserves_mono; [apply unchanged_trimmer_pieces_keeps_dense |].
    by apply unchanged_set_status_downstream_border.
  - destruct border as [b |]; [| preserves_step].
    destruct (decide (piece = b)); repeat preserves_step.
    + by apply keeps_dense_downstream_piece.
    + unfold append_piece_swap. preserves_step.
      by apply unchanged_trimmer_pieces_keeps_dense.
Qed.

Lemma keeps_dense_walk (T : nat) (n : Z) (P : list nat)
    (new_coords : Coordinates.t) (is_plus : bool)
    (transition_gen : list (list nat * nat)) :
  (forall item, item ∈ transition_gen -> snd item ∈ P) ->
  forall locals,
    preserves (keeps_dense T n P)
      (walk new_coords is_plus transition_gen locals).
Proof.
  induction transition_gen as [| item rest IH]; intros Hall locals.
  - apply preserves_ret. apply _.
  - simpl. apply preserves_bind; [apply _ | |].
    + apply keeps_dense_visit. apply Hall, list_elem_of_here.
    + intros locals'. apply IH. intros item' Hin.
      apply Hall. by apply list_elem_of_further.
Qed.

(** X25.  Dense positions survive a call.  If the pieces named by the
    walk are pieces of the trimmer's transcript, and the positions of the
    transcript's pieces are exactly [0 .. n-1], each held once, then
    after [modify4new_slice], whether it returns or raises, they are
    exactly [0 .. n-1] still, or exactly [0 .. n], each held once. *)
Theorem positions_stay_dense (transition_gen : list (list nat * nat))
    (new_coords : Coordinates.t) (is_plus : bool) (st : State) (n : Z) :
  pieces_of (transcript st) (snd <$> transition_gen) st ->
  dense st (transcript st) n ->
  dense (snd (modify4new_slice transition_gen new_coords is_plus st))
        (transcript st) n \/
  dense (snd (modify4new_slice transition_gen new_coords is_plus st))
        (transcript st) (n + 1).
Proof.
  intros HP Hd.
  pose proof (keeps_dense_walk (transcript st) n (snd <$> transition_gen)
                new_coords is_plus transition_gen) as Hw.
  specialize (Hw ltac:(intros item Hin; apply list_elem_of_fmap; eauto)
                 (false, None) st).
  destruct Hw as [[_ Hd'] _]; [split; [split; [done | by left] | done] |].
  assert (Hpieces : pieces (snd (modify4new_slice transition_gen new_coords
                                  is_plus st))
                    = pieces (snd (walk new_coords is_plus transition_gen
                                     (false, None) st))).
  { unfold modify4new_slice, mbind, M_bind.
    destruct (walk new_coords is_plus transition_gen (false, None) st)
      as [[[seen border] | e] st1]; simpl; [| done].
    by destruct seen. }
  destruct Hd' as [Hd' | [_ Hd']]; [left | right];
    by apply (dense_pieces _ _ _ _ Hpieces).
Qed.

(** X25, witness: the transcript of the scenario, with its one piece at
    position 0, has pieces at 0 and 1 after the call. *)
Lemma positions_stay_dense_witness :
  dense (snd (modify4new_slice scenario_walk slice_0_400 true scenario)) 7 1
  \/
  dense (snd (modify4new_slice scenario_walk slice_0_400 true scenario)) 7
        (1 + 1).
Proof.
  apply (positions_stay_dense scenario_walk slice_0_400 true scenario 1).
  - intros piece Hin. exists (TranscribedPiece.mk 7 0).
    repeat (apply elem_of_cons in Hin as [-> | Hin]; [by split |]).
    by apply elem_of_nil in Hin.
  - split.
    + intros k1 k2 x1 x2 H1 H2 _ _ _.
      assert (Hk : forall k x, pieces scenario !! k = Some x -> k = 10%nat).
      { intros k x Hk. simpl in Hk.
        destruct (decide (k = 10%nat)) as [-> | Hne]; [done |].
        rewrite lookup_insert_ne in Hk by done.
        by rewrite lookup_empty in Hk. }
      by rewrite (Hk _ _ H1), (Hk _ _ H2).
    + intros z. split.
      * intros (k & x & Hk & _ & <-). simpl in Hk.
        destruct (decide (k = 10%nat)) as [-> | Hne].
        -- rewrite lookup_insert_eq in Hk. injection Hk as <-. simpl. lia.
        -- rewrite lookup_insert_ne in Hk by done.
           by rewrite lookup_empty in Hk.
      * intros Hz. exists 10%nat, (TranscribedPiece.mk 7 0).
        split; [done |]. split; [done |]. simpl. lia.
Defined.

(** * Runs *)

(** X21, witness: the second feature of the scenario in one group with
    the first, which is not aligned with it: the call raises in the split
    and leaves the new piece memoized. *)
Lemma memo_at_the_end_witness :
  is_Some (_downstream_piece
             (snd (modify4new_slice [([2%nat; 1%nat], 10%nat)] slice_0_400
                     true scenario))).
Proof.
  apply (proj2 (proj2 (memo_at_the_end [([2%nat; 1%nat], 10%nat)]
                         slice_0_400 true scenario)))
    with (e := ValueError).
  - intros item Hin. apply list_elem_of_singleton in Hin as ->.
    split; [discriminate |]. split.
    + intros f Hf. apply elem_of_cons in Hf as [-> | Hf];
        [by exists (plus_feature 200 500 [10%nat]) |].
      apply list_elem_of_singleton in Hf as ->.
      by exists (plus_feature 100 200 [10%nat]).
    + by exists (TranscribedPiece.mk 7 0).
  - by vm_compute.
  - discriminate.
Defined.

(** X13, witness: the three features of the scenario's transcript are
    loaded. *)
Lemma SuperLocusHandler_load_to_intervaltree_outcome_witness :
  fst (SuperLocusHandler.load_to_intervaltree (fun handles => handles)
         [7%nat] scenario) = Ok tt.
Proof.
  apply (proj1 (proj2 (SuperLocusHandler_load_to_intervaltree_outcome
                         (fun handles => handles) [7%nat] scenario))).
  intros k d _ Hd. simpl in Hd.
  destruct (decide (k = 1%nat)) as [-> | H1];
    [rewrite lookup_insert_eq in Hd; injection Hd as <-; simpl; lia |].
  rewrite lookup_insert_ne in Hd by done.
  destruct (decide (k = 2%nat)) as [-> | H2];
    [rewrite lookup_insert_eq in Hd; injection Hd as <-; simpl; lia |].
  rewrite lookup_insert_ne in Hd by done.
  destruct (decide (k = 3%nat)) as [-> | H3];
    [rewrite lookup_insert_eq in Hd; injection Hd as <-; simpl; lia |].
  rewrite lookup_insert_ne in Hd by done.
  by rewrite lookup_empty in Hd.
Defined.
